(** * BusTub buffer pool: LRU-K replacer, buffer pool manager, page guards

    A shallow embedding of
      - src/buffer/lru_k_replacer.cpp
      - src/buffer/buffer_pool_manager.cpp
      - src/storage/page/page_guard.cpp
    together with the properties of the buffer-pool specification that are
    checked against it.

    Conventions.
    - Every C++ member function is a computation in a state-and-fault monad
      over the object it mutates.  A fault is either the C++ exception the
      source throws, or a place where the C++ has no defined behaviour (an
      access to the front of an empty [std::list], an index outside the
      frame array, a member call through a null [Page *]).
    - [size_t] values are integers in [0, 2^64) and their arithmetic wraps.
    - [frame_id_t] and [page_id_t] are declared in common/config.h, which is
      not part of the sources at hand.  Following the data model of the
      specification they are mathematical integers here, the sentinel
      [INVALID_PAGE_ID] being -1; the casts between [size_t] and
      [frame_id_t] are the identity.  [pin_count_] is an [int] whose overflow
      is undefined in C++; it is an unbounded integer here.
    - The manager's [latch_] and the replacer's [latch_] serialise the
      public operations; the embedding is the sequential behaviour of one
      operation run to completion. *)

From stdpp Require Import base option list sorting gmap fin_sets.
From Stdlib Require Import ZArith Lia.

Local Open Scope Z_scope.

(* ===================================================================== *)
(** * Faults and the state monad *)
(* ===================================================================== *)

Inductive fault : Type :=
| InvalidFrame   (* throw Exception("Invalid frame ID") *)
| EmptyHistory   (* front() or back() of an empty std::list *)
| OutOfBounds    (* pages_[i] with i outside the frame array *)
| NullPointer    (* member call through a null pointer *)
| LatchMisuse    (* unlocking a latch that is not held *)
| WouldBlock.    (* acquiring a latch that another holder keeps *)

Inductive outcome (A : Type) : Type :=
| Ok (a : A)
| Fail (e : fault).
Arguments Ok {A} a.
Arguments Fail {A} e.

Definition St (S A : Type) : Type := S -> outcome (A * S).

Definition sret {S A} (a : A) : St S A := fun s => Ok (a, s).

Definition sfail {S A} (e : fault) : St S A := fun _ => Fail e.

Definition sbind {S A B} (m : St S A) (k : A -> St S B) : St S B :=
  fun s => match m s with
           | Ok (a, s') => k a s'
           | Fail e => Fail e
           end.

Definition gets {S A} (f : S -> A) : St S A := fun s => Ok (f s, s).

Definition modify {S} (f : S -> S) : St S unit := fun s => Ok (tt, f s).

Definition lift_outcome {S A} (o : outcome A) : St S A :=
  fun s => match o with Ok a => Ok (a, s) | Fail e => Fail e end.

Definition when {S} (b : bool) (m : St S unit) : St S unit :=
  if b then m else sret tt.

Notation "'do' x <- m ; k" := (sbind m (fun x => k))
  (at level 10, x name, m at level 100, k at level 200).
Notation "m1 ;; m2" := (sbind m1 (fun _ => m2))
  (at level 100, m2 at level 200, right associativity).

(* ===================================================================== *)
(** * LRU-K replacer (src/buffer/lru_k_replacer.cpp) *)
(* ===================================================================== *)

Definition size_t_modulus : Z := 2 ^ 64.

Definition to_size_t (z : Z) : Z := z mod size_t_modulus.

(** Modelled from the spec: the constant [INF] is declared in
    buffer/lru_k_replacer.h, which is missing; the specification calls it
    "+infinity", and it is stored in a [size_t], so it is the largest
    [size_t] value. *)
Definition INF : Z := size_t_modulus - 1.

(** [node_store_] maps a frame id to its node; the only field of a node the
    source touches is [history_], the retained access timestamps, oldest
    first.  A frame without an entry has the empty history. *)
Record LRUKReplacer : Type := mkLRUKReplacer {
  node_store_ : gmap Z (list Z);
  evictable_ : gset Z;
  current_timestamp_ : Z;
  replacer_size_ : Z;
  k_ : Z
}.

Definition history_ (r : LRUKReplacer) (frame_id : Z) : list Z :=
  default [] (node_store_ r !! frame_id).

Definition set_history (frame_id : Z) (h : list Z) (r : LRUKReplacer)
  : LRUKReplacer :=
  mkLRUKReplacer (<[frame_id := h]> (node_store_ r)) (evictable_ r)
                 (current_timestamp_ r) (replacer_size_ r) (k_ r).

Definition set_evictable_ (e : gset Z) (r : LRUKReplacer) : LRUKReplacer :=
  mkLRUKReplacer (node_store_ r) e (current_timestamp_ r)
                 (replacer_size_ r) (k_ r).

Definition set_current_timestamp (t : Z) (r : LRUKReplacer) : LRUKReplacer :=
  mkLRUKReplacer (node_store_ r) (evictable_ r) t (replacer_size_ r) (k_ r).

Definition set_replacer_size (n : Z) (r : LRUKReplacer) : LRUKReplacer :=
  mkLRUKReplacer (node_store_ r) (evictable_ r) (current_timestamp_ r) n
                 (k_ r).

(** LRUKReplacer::LRUKReplacer *)
Definition LRUKReplacer_new (num_frames k : Z) : LRUKReplacer :=
  mkLRUKReplacer ∅ ∅ 0 num_frames k.

(** [std::list] accessors.  [front] and [back] of an empty list are
    undefined behaviour: the model gives the call no result and records the
    fault [EmptyHistory], where a build without checks goes on with whatever
    the read yields.  What is proved of a call that returns [Ok] holds of
    every build. *)
Definition front (h : list Z) : outcome Z :=
  match h with
  | [] => Fail EmptyHistory
  | t :: _ => Ok t
  end.

Definition back (h : list Z) : outcome Z :=
  match last h with
  | None => Fail EmptyHistory
  | Some t => Ok t
  end.

Definition push_back (h : list Z) (t : Z) : list Z := h ++ [t].

Definition pop_front (h : list Z) : list Z := tail h.

(** [node.history_.size() < k_ ? INF : node.history_.back() - node.history_.front()] *)
Definition k_distance (k : Z) (h : list Z) : outcome Z :=
  if Z.of_nat (length h) <? k then Ok INF
  else match back h with
       | Fail e => Fail e
       | Ok b => match front h with
                 | Fail e => Fail e
                 | Ok f => Ok (to_size_t (b - f))
                 end
       end.

(** The loop-carried variables of [Evict]: [None] while [found] is false,
    otherwise [(max_frame_id, max_k_distance, lru_timestamp)]. *)
Definition evict_acc : Type := option (Z * Z * Z).

(** One iteration of the [for] loop of [Evict], with the short-circuit
    evaluation of its condition. *)
Definition evict_step (r : LRUKReplacer) (acc : evict_acc) (evictable_fid : Z)
  : outcome evict_acc :=
  let h := history_ r evictable_fid in
  match k_distance (k_ r) h with
  | Fail e => Fail e
  | Ok kd =>
      let cond : outcome bool :=
        match acc with
        | None => Ok true
        | Some (_, max_k_distance, lru_timestamp) =>
            if max_k_distance <? kd then Ok true
            else if kd =? max_k_distance then
                   match front h with
                   | Fail e => Fail e
                   | Ok t => Ok (t <? lru_timestamp)
                   end
                 else Ok false
        end in
      match cond with
      | Fail e => Fail e
      | Ok false => Ok acc
      | Ok true =>
          match front h with
          | Fail e => Fail e
          | Ok t => Ok (Some (evictable_fid, kd, t))
          end
      end
  end.

Fixpoint evict_scan (r : LRUKReplacer) (fids : list Z) (acc : evict_acc)
  : outcome evict_acc :=
  match fids with
  | [] => Ok acc
  | fid :: rest =>
      match evict_step r acc fid with
      | Fail e => Fail e
      | Ok acc' => evict_scan r rest acc'
      end
  end.

(** The state [Evict] leaves behind once it has chosen [victim]. *)
Definition evicted (victim : Z) (r : LRUKReplacer) : LRUKReplacer :=
  set_evictable_ (evictable_ r ∖ {[victim]}) (set_history victim [] r).

(** LRUKReplacer::Evict.  The result is [Some frame_id] when the source
    returns true and stores the victim through its argument, [None] when it
    returns false.  The loop runs over the elements of [evictable_] in the
    order the container enumerates them. *)
Definition Evict : St LRUKReplacer (option Z) :=
  fun r =>
    match evict_scan r (elements (evictable_ r)) None with
    | Fail e => Fail e
    | Ok None => Ok (None, r)
    | Ok (Some (max_frame_id, _, _)) => Ok (Some max_frame_id, evicted max_frame_id r)
    end.

Definition frame_id_out_of_range (r : LRUKReplacer) (frame_id : Z) : bool :=
  (frame_id <? 0) || (replacer_size_ r <=? frame_id).

(** LRUKReplacer::RecordAccess *)
Definition RecordAccess (frame_id : Z) : St LRUKReplacer unit :=
  fun r =>
    if frame_id_out_of_range r frame_id then Fail InvalidFrame
    else
      let h := push_back (history_ r frame_id) (current_timestamp_ r) in
      let h' := if k_ r <? Z.of_nat (length h) then pop_front h else h in
      Ok (tt, set_current_timestamp (to_size_t (current_timestamp_ r + 1))
                (set_history frame_id h' r)).

(** LRUKReplacer::SetEvictable *)
Definition SetEvictable (frame_id : Z) (set_evictable : bool)
  : St LRUKReplacer unit :=
  fun r =>
    if frame_id_out_of_range r frame_id then Fail InvalidFrame
    else
      let is_evictable := bool_decide (frame_id ∈ evictable_ r) in
      let r1 := if is_evictable && negb set_evictable
                then set_evictable_ (evictable_ r ∖ {[frame_id]}) r else r in
      let r2 := if negb is_evictable && set_evictable
                then set_evictable_ ({[frame_id]} ∪ evictable_ r1) r1 else r1 in
      Ok (tt, r2).

(** LRUKReplacer::Remove *)
Definition Remove (frame_id : Z) : St LRUKReplacer unit :=
  fun r =>
    if bool_decide (frame_id ∈ evictable_ r) then Ok (tt, set_history frame_id [] r)
    else Ok (tt, r).

(** LRUKReplacer::Size *)
Definition Size (r : LRUKReplacer) : Z := Z.of_nat (size (evictable_ r)).

(* ===================================================================== *)
(** * Pages, the disk, and the buffer pool manager
      (src/buffer/buffer_pool_manager.cpp) *)
(* ===================================================================== *)

Definition INVALID_PAGE_ID : Z := -1.

(** Modelled from the spec: [BUSTUB_PAGE_SIZE] is declared in
    common/config.h, which is missing; the specification gives 4096. *)
Definition BUSTUB_PAGE_SIZE : nat := 4096.

Definition zero_page : list Byte.byte := replicate BUSTUB_PAGE_SIZE Byte.x00.

(** Modelled from the spec: the readers-writer latch of a page (class
    [ReaderWriterLatch], missing) as the number of shared holders and
    whether an exclusive holder exists.  A thread blocked in an
    acquisition has no sequential result: acquiring a latch that cannot be
    granted is the fault [WouldBlock]. *)
Record ReaderWriterLatch : Type := mkLatch {
  readers : Z;
  writer : bool
}.

(** Modelled from the spec: class [Page] (storage/page/page.h, missing):
    the byte buffer, the owning page id, the pin count, the dirty flag and
    the latch. *)
Record Page : Type := mkPage {
  data_ : list Byte.byte;
  page_id_ : Z;
  pin_count_ : Z;
  is_dirty_ : bool;
  rwlatch_ : ReaderWriterLatch
}.

(** Modelled from the spec: a default-constructed [Page] holds no page, is
    unpinned and clean, and its buffer is zeroed. *)
Definition Page_new : Page :=
  mkPage zero_page INVALID_PAGE_ID 0 false (mkLatch 0 false).

Definition set_data (d : list Byte.byte) (p : Page) : Page :=
  mkPage d (page_id_ p) (pin_count_ p) (is_dirty_ p) (rwlatch_ p).

Definition set_page_id (i : Z) (p : Page) : Page :=
  mkPage (data_ p) i (pin_count_ p) (is_dirty_ p) (rwlatch_ p).

Definition set_pin_count (n : Z) (p : Page) : Page :=
  mkPage (data_ p) (page_id_ p) n (is_dirty_ p) (rwlatch_ p).

Definition set_is_dirty (b : bool) (p : Page) : Page :=
  mkPage (data_ p) (page_id_ p) (pin_count_ p) b (rwlatch_ p).

Definition set_rwlatch (l : ReaderWriterLatch) (p : Page) : Page :=
  mkPage (data_ p) (page_id_ p) (pin_count_ p) (is_dirty_ p) l.

(** What the manager does to the disk and to the frame buffers, in program
    order.  The log is instrumentation: no operation reads it. *)
Inductive event : Type :=
| EvWritePage (page_id : Z) (d : list Byte.byte)   (* disk_manager_->WritePage *)
| EvReadPage (page_id : Z) (frame_id : Z)     (* disk_manager_->ReadPage into a frame *)
| EvResetMemory (frame_id : Z).               (* Page::ResetMemory of a frame *)

(** An event that overwrites the buffer of frame [f]. *)
Definition overwrites (f : Z) (e : event) : Prop :=
  match e with
  | EvWritePage _ _ => False
  | EvReadPage _ g => g = f
  | EvResetMemory g => g = f
  end.

(** [disk_] stands for the disk manager behind [disk_manager_]: the bytes
    last written for each page id.  Modelled from the spec: a page never
    written reads as zeroes. *)
Record BufferPoolManager : Type := mkBufferPoolManager {
  pool_size_ : Z;
  pages_ : list Page;
  page_table_ : gmap Z Z;
  free_list_ : list Z;
  replacer_ : LRUKReplacer;
  next_page_id_ : Z;
  disk_ : gmap Z (list Byte.byte);
  log_ : list event
}.

Definition set_pages (ps : list Page) (s : BufferPoolManager) :=
  mkBufferPoolManager (pool_size_ s) ps (page_table_ s) (free_list_ s)
    (replacer_ s) (next_page_id_ s) (disk_ s) (log_ s).

Definition set_page_table (pt : gmap Z Z) (s : BufferPoolManager) :=
  mkBufferPoolManager (pool_size_ s) (pages_ s) pt (free_list_ s)
    (replacer_ s) (next_page_id_ s) (disk_ s) (log_ s).

Definition set_free_list (fl : list Z) (s : BufferPoolManager) :=
  mkBufferPoolManager (pool_size_ s) (pages_ s) (page_table_ s) fl
    (replacer_ s) (next_page_id_ s) (disk_ s) (log_ s).

Definition set_replacer (r : LRUKReplacer) (s : BufferPoolManager) :=
  mkBufferPoolManager (pool_size_ s) (pages_ s) (page_table_ s) (free_list_ s)
    r (next_page_id_ s) (disk_ s) (log_ s).

Definition set_next_page_id (n : Z) (s : BufferPoolManager) :=
  mkBufferPoolManager (pool_size_ s) (pages_ s) (page_table_ s) (free_list_ s)
    (replacer_ s) n (disk_ s) (log_ s).

Definition set_disk (d : gmap Z (list Byte.byte)) (s : BufferPoolManager) :=
  mkBufferPoolManager (pool_size_ s) (pages_ s) (page_table_ s) (free_list_ s)
    (replacer_ s) (next_page_id_ s) d (log_ s).

Definition set_log (l : list event) (s : BufferPoolManager) :=
  mkBufferPoolManager (pool_size_ s) (pages_ s) (page_table_ s) (free_list_ s)
    (replacer_ s) (next_page_id_ s) (disk_ s) l.

(** BufferPoolManager::BufferPoolManager, over a disk holding [disk]. *)
Definition BufferPoolManager_new (pool_size : Z) (disk : gmap Z (list Byte.byte))
    (replacer_k : Z) : BufferPoolManager :=
  mkBufferPoolManager pool_size
    (replicate (Z.to_nat pool_size) Page_new)
    ∅
    (Z.of_nat <$> seq 0 (Z.to_nat pool_size))
    (LRUKReplacer_new pool_size replacer_k)
    0 disk [].

(** [pages_[frame_id]], read. *)
Definition page_at (frame_id : Z) : St BufferPoolManager Page :=
  fun s =>
    if frame_id <? 0 then Fail OutOfBounds
    else match pages_ s !! Z.to_nat frame_id with
         | None => Fail OutOfBounds
         | Some pg => Ok (pg, s)
         end.

(** [pages_[frame_id]], updated in place. *)
Definition update_page (frame_id : Z) (f : Page -> Page)
  : St BufferPoolManager unit :=
  fun s =>
    if frame_id <? 0 then Fail OutOfBounds
    else match pages_ s !! Z.to_nat frame_id with
         | None => Fail OutOfBounds
         | Some pg => Ok (tt, set_pages (<[Z.to_nat frame_id := f pg]> (pages_ s)) s)
         end.

(** A call on [replacer_]. *)
Definition with_replacer {A} (m : St LRUKReplacer A) : St BufferPoolManager A :=
  fun s =>
    match m (replacer_ s) with
    | Fail e => Fail e
    | Ok (a, r) => Ok (a, set_replacer r s)
    end.

Definition emit (e : event) : St BufferPoolManager unit :=
  modify (fun s => set_log (log_ s ++ [e]) s).

(** [disk_manager_->WritePage(page_id, data)] *)
Definition WritePage (page_id : Z) (d : list Byte.byte) : St BufferPoolManager unit :=
  modify (fun s => set_disk (<[page_id := d]> (disk_ s)) s) ;;
  emit (EvWritePage page_id d).

(** [disk_manager_->ReadPage(page_id, pages_[frame_id].data_)] *)
Definition ReadPage (page_id : Z) (frame_id : Z) : St BufferPoolManager unit :=
  do d <- gets (fun s => default zero_page (disk_ s !! page_id)) ;
  update_page frame_id (set_data d) ;;
  emit (EvReadPage page_id frame_id).

(** Modelled from the spec: [Page::ResetMemory] (missing) zeroes the buffer
    and nothing else. *)
Definition ResetMemory (frame_id : Z) : St BufferPoolManager unit :=
  update_page frame_id (set_data zero_page) ;;
  emit (EvResetMemory frame_id).

(** BufferPoolManager::AllocatePage, with the counter as an integer that
    grows without bound.  [AllocatePage32] below is the same increment at
    the width of [page_id_t]; the two agree as long as the counter stays
    below [PAGE_ID_MAX]. *)
Definition AllocatePage : St BufferPoolManager Z :=
  do n <- gets next_page_id_ ;
  modify (set_next_page_id (n + 1)) ;;
  sret n.

(** Modelled from the spec: [DeallocatePage] (defined in the missing
    header) is a notification only. *)
Definition DeallocatePage (page_id : Z) : St BufferPoolManager unit := sret tt.

(** BufferPoolManager::FindAndEvictFrame: [Some frame_id] when the source
    returns true. *)
Definition FindAndEvictFrame : St BufferPoolManager (option Z) :=
  do fl <- gets free_list_ ;
  match fl with
  | frame_id :: rest =>
      modify (set_free_list rest) ;;
      sret (Some frame_id)
  | [] =>
      do victim <- with_replacer Evict ;
      match victim with
      | None => sret None
      | Some frame_id =>
          do frame <- page_at frame_id ;
          modify (fun s => set_page_table (delete (page_id_ frame) (page_table_ s)) s) ;;
          when (is_dirty_ frame)
               (WritePage (page_id_ frame) (data_ frame) ;;
                update_page frame_id (set_is_dirty false)) ;;
          update_page frame_id (set_page_id INVALID_PAGE_ID) ;;
          ResetMemory frame_id ;;
          sret (Some frame_id)
      end
  end.

(** BufferPoolManager::NewPage: [Some (new_page_id, frame_id)] for the
    page id stored through the argument and the frame the returned pointer
    designates, [None] for [nullptr]. *)
Definition NewPage : St BufferPoolManager (option (Z * Z)) :=
  do found <- FindAndEvictFrame ;
  match found with
  | None => sret None
  | Some frame_id =>
      with_replacer (SetEvictable frame_id false) ;;
      with_replacer (RecordAccess frame_id) ;;
      do new_page_id <- AllocatePage ;
      update_page frame_id (set_page_id new_page_id) ;;
      update_page frame_id (set_pin_count 1) ;;
      modify (fun s => set_page_table (<[new_page_id := frame_id]> (page_table_ s)) s) ;;
      ResetMemory frame_id ;;
      sret (Some (new_page_id, frame_id))
  end.

(** BufferPoolManager::FetchPage: [Some frame_id] for the frame the
    returned pointer designates, [None] for [nullptr]. *)
Definition FetchPage (page_id : Z) : St BufferPoolManager (option Z) :=
  do pt <- gets page_table_ ;
  do entry <-
     match pt !! page_id with
     | Some frame_id => sret (Some frame_id)
     | None =>
         do found <- FindAndEvictFrame ;
         match found with
         | None => sret None
         | Some frame_id =>
             ReadPage page_id frame_id ;;
             update_page frame_id (set_page_id page_id) ;;
             update_page frame_id (set_pin_count 0) ;;
             modify (fun s => set_page_table (<[page_id := frame_id]> (page_table_ s)) s) ;;
             sret (Some frame_id)
         end
     end ;
  match entry with
  | None => sret None
  | Some frame_id =>
      update_page frame_id (fun p => set_pin_count (pin_count_ p + 1) p) ;;
      with_replacer (SetEvictable frame_id false) ;;
      with_replacer (RecordAccess frame_id) ;;
      sret (Some frame_id)
  end.

(** BufferPoolManager::UnpinPage *)
Definition UnpinPage (page_id : Z) (is_dirty : bool) : St BufferPoolManager bool :=
  do pt <- gets page_table_ ;
  match pt !! page_id with
  | None => sret false
  | Some frame_id =>
      do pg <- page_at frame_id ;
      if pin_count_ pg =? 0 then sret false
      else
        when is_dirty (update_page frame_id (set_is_dirty true)) ;;
        update_page frame_id (fun p => set_pin_count (pin_count_ p - 1) p) ;;
        do pg' <- page_at frame_id ;
        when (pin_count_ pg' =? 0) (with_replacer (SetEvictable frame_id true)) ;;
        sret true
  end.

(** BufferPoolManager::FlushPage *)
Definition FlushPage (page_id : Z) : St BufferPoolManager bool :=
  do pt <- gets page_table_ ;
  match pt !! page_id with
  | None => sret false
  | Some frame_id =>
      do pg <- page_at frame_id ;
      WritePage page_id (data_ pg) ;;
      update_page frame_id (set_is_dirty false) ;;
      sret true
  end.

(** The body of the loop of [FlushAllPages]. *)
Definition flush_entry (entry : Z * Z) : St BufferPoolManager unit :=
  do pg <- page_at entry.2 ;
  WritePage entry.1 (data_ pg) ;;
  update_page entry.2 (set_is_dirty false).

Fixpoint for_each {S A} (l : list A) (body : A -> St S unit) : St S unit :=
  match l with
  | [] => sret tt
  | x :: rest => body x ;; for_each rest body
  end.

(** BufferPoolManager::FlushAllPages, over the entries of [page_table_] in
    the order the container enumerates them. *)
Definition FlushAllPages : St BufferPoolManager unit :=
  do pt <- gets page_table_ ;
  for_each (map_to_list pt) flush_entry.

(** BufferPoolManager::DeletePage *)
Definition DeletePage (page_id : Z) : St BufferPoolManager bool :=
  do pt <- gets page_table_ ;
  match pt !! page_id with
  | None => sret true
  | Some frame_id =>
      do pg <- page_at frame_id ;
      if 1 <=? pin_count_ pg then sret false
      else
        when (is_dirty_ pg)
             (WritePage page_id (data_ pg) ;;
              update_page frame_id (set_is_dirty false)) ;;
        modify (fun s => set_page_table (delete page_id (page_table_ s)) s) ;;
        ResetMemory frame_id ;;
        with_replacer (Remove frame_id) ;;
        modify (fun s => set_free_list (free_list_ s ++ [frame_id]) s) ;;
        DeallocatePage page_id ;;
        sret true
  end.

(* ===================================================================== *)
(** * Page latches and page guards (src/storage/page/page_guard.cpp) *)
(* ===================================================================== *)

Definition update_latch (frame_id : Z)
    (f : ReaderWriterLatch -> outcome ReaderWriterLatch)
  : St BufferPoolManager unit :=
  do pg <- page_at frame_id ;
  do l <- lift_outcome (f (rwlatch_ pg)) ;
  update_page frame_id (set_rwlatch l).

(** Modelled from the spec: [Page::RLatch], [Page::RUnlatch],
    [Page::WLatch], [Page::WUnlatch] (missing header) take and release the
    shared, respectively exclusive, side of the page's latch. *)
Definition RLatch (frame_id : Z) : St BufferPoolManager unit :=
  update_latch frame_id
    (fun l => if writer l then Fail WouldBlock
              else Ok (mkLatch (readers l + 1) false)).

Definition RUnlatch (frame_id : Z) : St BufferPoolManager unit :=
  update_latch frame_id
    (fun l => if readers l <=? 0 then Fail LatchMisuse
              else Ok (mkLatch (readers l - 1) (writer l))).

Definition WLatch (frame_id : Z) : St BufferPoolManager unit :=
  update_latch frame_id
    (fun l => if writer l || (0 <? readers l) then Fail WouldBlock
              else Ok (mkLatch (readers l) true)).

Definition WUnlatch (frame_id : Z) : St BufferPoolManager unit :=
  update_latch frame_id
    (fun l => if writer l then Ok (mkLatch (readers l) false)
              else Fail LatchMisuse).

(** A guard holds [bpm_] (here: whether the pointer designates the manager
    or is null), [page_] (the frame the [Page *] designates, [None] for
    [nullptr]) and [is_dirty_]. *)
Record BasicPageGuard : Type := mkBasicPageGuard {
  g_bpm_ : bool;
  g_page_ : option Z;
  g_is_dirty_ : bool
}.

Record ReadPageGuard : Type := mkReadPageGuard { r_guard_ : BasicPageGuard }.

Record WritePageGuard : Type := mkWritePageGuard { w_guard_ : BasicPageGuard }.

(** Modelled from the spec: the constructor [BasicPageGuard(bpm, page)] of
    the missing header stores its two arguments; the guard starts clean. *)
Definition BasicPageGuard_new (page : option Z) : BasicPageGuard :=
  mkBasicPageGuard true page false.

(** A default-constructed guard. *)
Definition BasicPageGuard_empty : BasicPageGuard :=
  mkBasicPageGuard false None false.

(** BasicPageGuard::BasicPageGuard(BasicPageGuard &&that), applied to a
    fresh [this]: the pair is [(this, that)] afterwards. *)
Definition BasicPageGuard_move (that : BasicPageGuard)
  : BasicPageGuard * BasicPageGuard :=
  (mkBasicPageGuard (g_bpm_ that) (g_page_ that) (g_is_dirty_ that),
   mkBasicPageGuard false None false).

(** BasicPageGuard::Drop; the result is the guard afterwards. *)
Definition BasicPageGuard_Drop (g : BasicPageGuard)
  : St BufferPoolManager BasicPageGuard :=
  match g_page_ g with
  | None => sret g
  | Some frame_id =>
      if g_bpm_ g then
        do pg <- page_at frame_id ;
        UnpinPage (page_id_ pg) (g_is_dirty_ g) ;;
        sret (mkBasicPageGuard (g_bpm_ g) None (g_is_dirty_ g))
      else sfail NullPointer
  end.

(** BasicPageGuard::operator=(BasicPageGuard &&that) for two distinct
    guards: [(this, that)] afterwards.  The assignment of a guard to itself
    is [BasicPageGuard_assign_self] below. *)
Definition BasicPageGuard_assign (this that : BasicPageGuard)
  : St BufferPoolManager (BasicPageGuard * BasicPageGuard) :=
  do this' <- BasicPageGuard_Drop this ;
  sret (mkBasicPageGuard (g_bpm_ that) (g_page_ that) (g_is_dirty_ that),
        mkBasicPageGuard (g_bpm_ this') (g_page_ this') (g_is_dirty_ this')).

(** ReadPageGuard::operator=(ReadPageGuard &&that) *)
Definition ReadPageGuard_assign (this that : ReadPageGuard)
  : St BufferPoolManager (ReadPageGuard * ReadPageGuard) :=
  do gs <- BasicPageGuard_assign (r_guard_ this) (r_guard_ that) ;
  sret (mkReadPageGuard gs.1, mkReadPageGuard gs.2).

(** ReadPageGuard::Drop *)
Definition ReadPageGuard_Drop (g : ReadPageGuard)
  : St BufferPoolManager ReadPageGuard :=
  match g_page_ (r_guard_ g) with
  | None => sret g
  | Some frame_id =>
      RUnlatch frame_id ;;
      do g' <- BasicPageGuard_Drop (r_guard_ g) ;
      sret (mkReadPageGuard g')
  end.

(** WritePageGuard::operator=(WritePageGuard &&that) *)
Definition WritePageGuard_assign (this that : WritePageGuard)
  : St BufferPoolManager (WritePageGuard * WritePageGuard) :=
  do gs <- BasicPageGuard_assign (w_guard_ this) (w_guard_ that) ;
  sret (mkWritePageGuard gs.1, mkWritePageGuard gs.2).

(** WritePageGuard::Drop *)
Definition WritePageGuard_Drop (g : WritePageGuard)
  : St BufferPoolManager WritePageGuard :=
  match g_page_ (w_guard_ g) with
  | None => sret g
  | Some frame_id =>
      WUnlatch frame_id ;;
      do g' <- BasicPageGuard_Drop (w_guard_ g) ;
      sret (mkWritePageGuard g')
  end.

(** BufferPoolManager::FetchPageBasic *)
Definition FetchPageBasic (page_id : Z) : St BufferPoolManager BasicPageGuard :=
  do page <- FetchPage page_id ;
  sret (BasicPageGuard_new page).

(** BufferPoolManager::FetchPageRead: [page->RLatch()] is a member call
    through the pointer [FetchPage] returned. *)
Definition FetchPageRead (page_id : Z) : St BufferPoolManager ReadPageGuard :=
  do page <- FetchPage page_id ;
  match page with
  | None => sfail NullPointer
  | Some frame_id => RLatch frame_id
  end ;;
  sret (mkReadPageGuard (BasicPageGuard_new page)).

(** BufferPoolManager::FetchPageWrite *)
Definition FetchPageWrite (page_id : Z) : St BufferPoolManager WritePageGuard :=
  do page <- FetchPage page_id ;
  match page with
  | None => sfail NullPointer
  | Some frame_id => WLatch frame_id
  end ;;
  sret (mkWritePageGuard (BasicPageGuard_new page)).

(** BufferPoolManager::NewPageGuarded *)
Definition NewPageGuarded : St BufferPoolManager (option Z * BasicPageGuard) :=
  do r <- NewPage ;
  sret (fst <$> r, BasicPageGuard_new (snd <$> r)).

(* ===================================================================== *)
(** * Executions of the manager *)
(* ===================================================================== *)

(** The calls a client makes.  [OWriteData frame_id d] is a store by a
    client through [Page::GetData()] of the frame it was handed. *)
Inductive operation : Type :=
| ONewPage
| OFetchPage (page_id : Z)
| OUnpinPage (page_id : Z) (is_dirty : bool)
| OFlushPage (page_id : Z)
| OFlushAllPages
| ODeletePage (page_id : Z)
| OWriteData (frame_id : Z) (d : list Byte.byte).

Inductive result : Type :=
| RNewPage (r : option (Z * Z))
| RFetchPage (r : option Z)
| RBool (b : bool)
| RUnit.

Definition perform (o : operation) : St BufferPoolManager result :=
  match o with
  | ONewPage => do r <- NewPage ; sret (RNewPage r)
  | OFetchPage p => do r <- FetchPage p ; sret (RFetchPage r)
  | OUnpinPage p d => do b <- UnpinPage p d ; sret (RBool b)
  | OFlushPage p => do b <- FlushPage p ; sret (RBool b)
  | OFlushAllPages => FlushAllPages ;; sret RUnit
  | ODeletePage p => do b <- DeletePage p ; sret (RBool b)
  | OWriteData f d => update_page f (set_data d) ;; sret RUnit
  end.

(** Page ids handed to [FetchPage] are page identifiers, not the
    sentinel. *)
Definition valid_operation (o : operation) : Prop :=
  match o with
  | OFetchPage p => p ≠ INVALID_PAGE_ID
  | _ => True
  end.

(** Run a sequence of calls; the results come back in call order. *)
Fixpoint run (ops : list operation) : St BufferPoolManager (list result) :=
  match ops with
  | [] => sret []
  | o :: rest =>
      do r <- perform o ;
      do rs <- run rest ;
      sret (r :: rs)
  end.

(** The states a manager built over [disk] can be in between two calls. *)
Inductive reachable (pool_size : Z) (disk : gmap Z (list Byte.byte)) (k : Z)
  : BufferPoolManager -> Prop :=
| reachable_new :
    reachable pool_size disk k (BufferPoolManager_new pool_size disk k)
| reachable_step s o r s' :
    reachable pool_size disk k s ->
    valid_operation o ->
    perform o s = Ok (r, s') ->
    reachable pool_size disk k s'.

(** The page ids that the successful [NewPage] calls of a run returned, in
    call order. *)
Fixpoint new_page_ids (rs : list result) : list Z :=
  match rs with
  | [] => []
  | RNewPage (Some (p, _)) :: rest => p :: new_page_ids rest
  | _ :: rest => new_page_ids rest
  end.

(** The frame at index [f] of the pool. *)
Definition frame_of (ps : list Page) (f : Z) : option Page :=
  if f <? 0 then None else ps !! Z.to_nat f.

Definition frame (s : BufferPoolManager) (f : Z) : option Page :=
  frame_of (pages_ s) f.

Definition is_evictable (s : BufferPoolManager) (f : Z) : Prop :=
  f ∈ evictable_ (replacer_ s).

Definition in_free_list (s : BufferPoolManager) (f : Z) : Prop :=
  f ∈ free_list_ s.

(** What holds of every frame between two calls. *)
Record frame_inv (s : BufferPoolManager) (f : Z) (pg : Page) : Prop := {
  fi_free_pin : in_free_list s f -> pin_count_ pg = 0;
  fi_free_clean : in_free_list s f -> is_dirty_ pg = false;
  fi_free_history : in_free_list s f -> history_ (replacer_ s) f = [];
  fi_free_evictable :
    in_free_list s f -> (is_evictable s f <-> page_id_ pg ≠ INVALID_PAGE_ID);
  fi_used_id : ¬ in_free_list s f -> page_id_ pg ≠ INVALID_PAGE_ID;
  fi_used_pin : ¬ in_free_list s f -> 0 ≤ pin_count_ pg;
  fi_used_evictable :
    ¬ in_free_list s f -> (is_evictable s f <-> pin_count_ pg = 0);
  fi_used_history :
    ¬ in_free_list s f -> 1 ≤ k_ (replacer_ s) ->
    history_ (replacer_ s) f ≠ []
}.

Record manager_inv (s : BufferPoolManager) : Prop := {
  mi_pool_size : 0 ≤ pool_size_ s;
  mi_pages_length : Z.of_nat (length (pages_ s)) = pool_size_ s;
  mi_replacer_size : replacer_size_ (replacer_ s) = pool_size_ s;
  mi_free_nodup : NoDup (free_list_ s);
  mi_free_range : ∀ f, in_free_list s f -> 0 ≤ f < pool_size_ s;
  mi_evictable_range : ∀ f, is_evictable s f -> 0 ≤ f < pool_size_ s;
  mi_next_page_id : 0 ≤ next_page_id_ s;
  mi_frames : ∀ f pg, frame s f = Some pg -> frame_inv s f pg;
  mi_page_table : ∀ p f, page_table_ s !! p = Some f ->
      ¬ in_free_list s f ∧ ∃ pg, frame s f = Some pg ∧ page_id_ pg = p
}.

(* ===================================================================== *)
(** * The replacement policy in the words of the specification *)
(* ===================================================================== *)

(** Backward K-distance: "+infinity" with fewer than [k] recorded
    accesses, otherwise newest minus oldest retained timestamp. *)
Inductive distance : Type :=
| Finite (d : Z)
| Infinite.

Definition oldest (h : list Z) : Z := hd 0 h.

Definition newest (h : list Z) : Z := List.last h 0.

Definition backward_k_distance (k : Z) (h : list Z) : distance :=
  if Z.of_nat (length h) <? k then Infinite
  else Finite (newest h - oldest h).

Definition distance_lt (a b : distance) : Prop :=
  match a, b with
  | Finite x, Finite y => x < y
  | Finite _, Infinite => True
  | Infinite, _ => False
  end.

(** [g] loses against [v]: its distance is smaller, or the distances are
    equal and [v]'s oldest retained timestamp is the smaller one. *)
Definition loses_to (k : Z) (hg hv : list Z) : Prop :=
  distance_lt (backward_k_distance k hg) (backward_k_distance k hv)
  ∨ (backward_k_distance k hg = backward_k_distance k hv
     ∧ oldest hv < oldest hg).

(** Replacer states as [RecordAccess] builds them, before the timestamp
    counter reaches the largest [size_t]: every retained timestamp was
    issued by the counter, histories are in issue order, and no timestamp
    was issued twice. *)
Record replacer_wf (r : LRUKReplacer) : Prop := {
  wf_counter : 0 ≤ current_timestamp_ r < size_t_modulus;
  wf_issued : ∀ f t, t ∈ history_ r f -> 0 ≤ t < current_timestamp_ r;
  wf_sorted : ∀ f, StronglySorted Z.lt (history_ r f);
  wf_distinct : ∀ f g t, t ∈ history_ r f -> t ∈ history_ r g -> f = g
}.

(** The calls on a replacer, and the states a replacer built by
    [LRUKReplacer_new] can be in. *)
Inductive replacer_call : Type :=
| CEvict
| CRecordAccess (frame_id : Z)
| CSetEvictable (frame_id : Z) (set_evictable : bool)
| CRemove (frame_id : Z).

Definition replacer_perform (c : replacer_call) : St LRUKReplacer unit :=
  match c with
  | CEvict => Evict ;; sret tt
  | CRecordAccess f => RecordAccess f
  | CSetEvictable f b => SetEvictable f b
  | CRemove f => Remove f
  end.

Fixpoint replacer_run (cs : list replacer_call) : St LRUKReplacer unit :=
  match cs with
  | [] => sret tt
  | c :: rest => replacer_perform c ;; replacer_run rest
  end.

Inductive replacer_reachable (num_frames k : Z) : LRUKReplacer -> Prop :=
| replacer_reachable_new :
    replacer_reachable num_frames k (LRUKReplacer_new num_frames k)
| replacer_reachable_step r c r' :
    replacer_reachable num_frames k r ->
    replacer_perform c r = Ok (tt, r') ->
    replacer_reachable num_frames k r'.

(** The code's distance, as a [size_t], of a specification distance. *)
Definition encode_distance (d : distance) : Z :=
  match d with
  | Finite x => x
  | Infinite => INF
  end.

(** The pair the loop of [Evict] compares: distance and oldest timestamp. *)
Definition scan_key (r : LRUKReplacer) (f : Z) : Z * Z :=
  (encode_distance (backward_k_distance (k_ r) (history_ r f)),
   oldest (history_ r f)).

(** [a] is strictly preferred to [b] as a victim. *)
Definition beats (a b : Z * Z) : Prop :=
  b.1 < a.1 ∨ (a.1 = b.1 ∧ a.2 < b.2).

Definition beatsb (a b : Z * Z) : bool :=
  (b.1 <? a.1) || ((a.1 =? b.1) && (a.2 <? b.2)).

(** Ids in [evictable_] are frame ids of the replacer. *)
Definition evictable_in_range (r : LRUKReplacer) : Prop :=
  ∀ g, g ∈ evictable_ r -> 0 ≤ g < replacer_size_ r.

(** A state to which C4 applies: frame 0 was accessed at times 0 and 2,
    frame 1 at time 1, both are evictable, and k = 2.  Frame 1 has fewer
    than k accesses and is the victim. *)
Definition replacer_example : LRUKReplacer :=
  mkLRUKReplacer (<[1 := [1]]> (<[0 := [0; 2]]> ∅)) {[0; 1]} 3 2 2.


(** The frame array with frame [f] replaced. *)
Definition with_frame (f : Z) (pg : Page) (s : BufferPoolManager)
  : BufferPoolManager :=
  set_pages (<[Z.to_nat f := pg]> (pages_ s)) s.

(** The events a call appended to the log. *)
Definition appended (s s' : BufferPoolManager) (evs : list event) : Prop :=
  log_ s' = log_ s ++ evs.

(** What holds between [FindAndEvictFrame] handing out frame [f] and the
    caller installing a page in it: everything [manager_inv] says, except
    about frame [f] itself, which is in neither the free list nor the page
    table. *)
Record detached_inv (s : BufferPoolManager) (f : Z) : Prop := {
  di_pool_size : 0 ≤ pool_size_ s;
  di_pages_length : Z.of_nat (length (pages_ s)) = pool_size_ s;
  di_replacer_size : replacer_size_ (replacer_ s) = pool_size_ s;
  di_free_nodup : NoDup (free_list_ s);
  di_free_range : ∀ g, in_free_list s g -> 0 ≤ g < pool_size_ s;
  di_evictable_range : ∀ g, is_evictable s g -> 0 ≤ g < pool_size_ s;
  di_next_page_id : 0 ≤ next_page_id_ s;
  di_range : 0 ≤ f < pool_size_ s;
  di_not_free : ¬ in_free_list s f;
  di_frames : ∀ g pg, g ≠ f -> frame s g = Some pg -> frame_inv s g pg;
  di_page_table : ∀ p g, page_table_ s !! p = Some g ->
      g ≠ f ∧ ¬ in_free_list s g ∧ ∃ pg, frame s g = Some pg ∧ page_id_ pg = p
}.

(** The replacer after [SetEvictable f false] and [RecordAccess f]. *)
Record pinned_replacer (f : Z) (r r2 : LRUKReplacer) : Prop := {
  pr_evictable : evictable_ r2 = evictable_ r ∖ {[f]};
  pr_history : ∀ g, g ≠ f -> history_ r2 g = history_ r g;
  pr_accessed : 1 ≤ k_ r -> history_ r2 f ≠ [];
  pr_k : k_ r2 = k_ r;
  pr_size : replacer_size_ r2 = replacer_size_ r
}.

(** Every event of [evs] that overwrites a frame buffer overwrites that of
    frame [f]. *)
Definition discards_only (f : Z) (evs : list event) : Prop :=
  ∀ e g, e ∈ evs -> overwrites g e -> g = f.

(** In the events [evs] that a call starting in [s] appended to the log,
    every overwrite of the buffer of a frame that was dirty in [s] comes
    after a [WritePage] of the bytes and the page id that frame held. *)
Definition written_back_first (s : BufferPoolManager) (evs : list event)
  : Prop :=
  ∀ f pg pre e post,
    frame s f = Some pg -> is_dirty_ pg = true ->
    evs = pre ++ e :: post -> overwrites f e ->
    EvWritePage (page_id_ pg) (data_ pg) ∈ pre.

(** What one call does to the invariant, to the page-id counter and to
    the log. *)
Record step_ok (s s' : BufferPoolManager) : Prop := {
  so_inv : manager_inv s';
  so_next_page_id : next_page_id_ s ≤ next_page_id_ s';
  so_log : ∃ evs, log_ s' = log_ s ++ evs ∧ written_back_first s evs
}.

(** The state [DeletePage p] leaves behind when page [p] sits unpinned in
    frame [f] with contents [pg]. *)
Definition deleted (p f : Z) (pg : Page) (s : BufferPoolManager)
  : BufferPoolManager :=
  mkBufferPoolManager (pool_size_ s)
    (<[Z.to_nat f := mkPage zero_page (page_id_ pg) (pin_count_ pg) false
                       (rwlatch_ pg)]> (pages_ s))
    (delete p (page_table_ s))
    (free_list_ s ++ [f])
    (if bool_decide (f ∈ evictable_ (replacer_ s))
     then set_history f [] (replacer_ s) else replacer_ s)
    (next_page_id_ s)
    (if is_dirty_ pg then <[p := data_ pg]> (disk_ s) else disk_ s)
    (log_ s ++ (if is_dirty_ pg then [EvWritePage p (data_ pg)] else [])
            ++ [EvResetMemory f]).

(** The state a run ends in (the starting state if a call faults). *)
Definition state_after (ops : list operation) (s : BufferPoolManager)
  : BufferPoolManager :=
  match run ops s with
  | Ok (_, s') => s'
  | Fail _ => s
  end.

Definition succeeds {S A} (o : outcome (A * S)) : bool :=
  match o with
  | Ok _ => true
  | Fail _ => false
  end.

(** A pool of two frames in which page 0 was created, unpinned and
    deleted. *)
Definition pool_after_delete : BufferPoolManager :=
  state_after [ONewPage; OUnpinPage 0 false; ODeletePage 0]
              (BufferPoolManager_new 2 ∅ 2).

(** A pool of one frame holding page 0, written to and unpinned dirty. *)
Definition pool_with_dirty_page : BufferPoolManager :=
  state_after [ONewPage; OWriteData 0 [Byte.x2a]; OUnpinPage 0 true]
              (BufferPoolManager_new 1 ∅ 2).

(** A pool of one frame whose only frame is pinned. *)
Definition exhausted_pool : BufferPoolManager :=
  state_after [ONewPage] (BufferPoolManager_new 1 ∅ 2).

(** A pool of two frames holding the unpinned pages 0 and 1. *)
Definition pool_of_two_pages : BufferPoolManager :=
  state_after [ONewPage; ONewPage; OUnpinPage 0 false; OUnpinPage 1 false]
              (BufferPoolManager_new 2 ∅ 2).

(** Two read guards, on pages 0 and 1, and the move assignment of the
    second into the first. *)
Definition read_guard_assignment
  : St BufferPoolManager (ReadPageGuard * ReadPageGuard) :=
  do g0 <- FetchPageRead 0 ;
  do g1 <- FetchPageRead 1 ;
  ReadPageGuard_assign g0 g1.

Definition write_guard_assignment
  : St BufferPoolManager (WritePageGuard * WritePageGuard) :=
  do g0 <- FetchPageWrite 0 ;
  do g1 <- FetchPageWrite 1 ;
  WritePageGuard_assign g0 g1.

(** The same two read guards, the first one dropped. *)
Definition read_guard_drop : St BufferPoolManager ReadPageGuard :=
  do g0 <- FetchPageRead 0 ;
  do g1 <- FetchPageRead 1 ;
  ReadPageGuard_Drop g0.

(** The latch of frame [f]. *)
Definition latch_of (s : BufferPoolManager) (f : Z) : option ReaderWriterLatch :=
  rwlatch_ <$> frame s f.

(** [m] relates the state it starts in to the state it ends in by [R]. *)
Definition preserves {A} (R : relation BufferPoolManager)
    (m : St BufferPoolManager A) : Prop :=
  ∀ s a s', m s = Ok (a, s') -> R s s'.

Definition same_next_page_id : relation BufferPoolManager :=
  λ s s', next_page_id_ s' = next_page_id_ s.

Definition same_latches : relation BufferPoolManager :=
  λ s s', ∀ f, latch_of s' f = latch_of s f.

(** A replacer with k = 1: frame 0 was accessed at times 0 and 2, frame 1
    at time 1, and both are evictable. *)
Definition replacer_lru_example : LRUKReplacer :=
  mkLRUKReplacer (<[1 := [1]]> (<[0 := [2]]> ∅)) {[0; 1]} 3 2 1.

(** The integers [n], [n + 1], ..., one for each element of [l]. *)
Fixpoint consecutive_from (n : Z) (l : list Z) : Prop :=
  match l with
  | [] => True
  | p :: rest => p = n ∧ consecutive_from (n + 1) rest
  end.

Definition same_pool_size : relation BufferPoolManager :=
  λ s s', pool_size_ s' = pool_size_ s.

(** Every frame of the pool is pinned. *)
Definition all_pinned (s : BufferPoolManager) : Prop :=
  ∀ f pg, frame s f = Some pg -> 1 ≤ pin_count_ pg.

(** The frame [UnpinPage] leaves behind. *)
Definition unpinned (is_dirty : bool) (pg : Page) : Page :=
  mkPage (data_ pg) (page_id_ pg) (pin_count_ pg - 1)
         (is_dirty_ pg || is_dirty) (rwlatch_ pg).

(** [returns m s Q]: run from [s], [m] returns, it raises no fault, with
    a result and a final state that satisfy [Q]. *)
Definition returns {S A} (m : St S A) (s : S) (Q : A -> S -> Prop) : Prop :=
  ∃ a s', m s = Ok (a, s') ∧ Q a s'.

(** The sizes fixed by the constructor: the length of [pages_], the
    replacer's [replacer_size_] and its [k_]. *)
Record sized (n k : Z) (s : BufferPoolManager) : Prop := {
  sz_pages : Z.of_nat (length (pages_ s)) = n;
  sz_replacer : replacer_size_ (replacer_ s) = n;
  sz_k : k_ (replacer_ s) = k
}.

(** BasicPageGuard::operator= applied to the guard itself
    ([g = std::move(g)], so [this == &that]): [Drop], then each of the three
    swaps exchanges a field with itself.  The result is the one guard
    afterwards. *)
Definition BasicPageGuard_assign_self (g : BasicPageGuard)
  : St BufferPoolManager BasicPageGuard :=
  do g' <- BasicPageGuard_Drop g ;
  sret (mkBasicPageGuard (g_bpm_ g') (g_page_ g') (g_is_dirty_ g')).

(** ReadPageGuard::operator= applied to the guard itself:
    [guard_ = std::move(that.guard_)] with [that.guard_] being [guard_]. *)
Definition ReadPageGuard_assign_self (g : ReadPageGuard)
  : St BufferPoolManager ReadPageGuard :=
  do g' <- BasicPageGuard_assign_self (r_guard_ g) ;
  sret (mkReadPageGuard g').

(** WritePageGuard::operator= applied to the guard itself. *)
Definition WritePageGuard_assign_self (g : WritePageGuard)
  : St BufferPoolManager WritePageGuard :=
  do g' <- BasicPageGuard_assign_self (w_guard_ g) ;
  sret (mkWritePageGuard g').

(* ===================================================================== *)
(** * The page-id counter at the width of [page_id_t] *)
(* ===================================================================== *)

(** Modelled from the spec: [page_id_t] is declared in common/config.h,
    which is missing; the specification calls a page identifier an integer,
    and the declaration is a 32-bit signed integer.  [next_page_id_] is an
    atomic counter of that type, so [next_page_id_++] wraps from
    [PAGE_ID_MAX] to [PAGE_ID_MIN]. *)
Definition PAGE_ID_MAX : Z := 2 ^ 31 - 1.

Definition PAGE_ID_MIN : Z := - 2 ^ 31.

Definition to_page_id_t (z : Z) : Z := (z + 2 ^ 31) mod 2 ^ 32 - 2 ^ 31.

(** BufferPoolManager::AllocatePage: [return next_page_id_++] on a
    [page_id_t]. *)
Definition AllocatePage32 : St BufferPoolManager Z :=
  do n <- gets next_page_id_ ;
  modify (set_next_page_id (to_page_id_t (n + 1))) ;;
  sret n.

(** BufferPoolManager::NewPage over [AllocatePage32]. *)
Definition NewPage32 : St BufferPoolManager (option (Z * Z)) :=
  do found <- FindAndEvictFrame ;
  match found with
  | None => sret None
  | Some frame_id =>
      with_replacer (SetEvictable frame_id false) ;;
      with_replacer (RecordAccess frame_id) ;;
      do new_page_id <- AllocatePage32 ;
      update_page frame_id (set_page_id new_page_id) ;;
      update_page frame_id (set_pin_count 1) ;;
      modify (fun s => set_page_table (<[new_page_id := frame_id]> (page_table_ s)) s) ;;
      ResetMemory frame_id ;;
      sret (Some (new_page_id, frame_id))
  end.

(** A call of the manager, with [NewPage] allocating at the width of
    [page_id_t]; every other call is as in [perform]. *)
Definition perform32 (o : operation) : St BufferPoolManager result :=
  match o with
  | ONewPage => do r <- NewPage32 ; sret (RNewPage r)
  | _ => perform o
  end.

Fixpoint run32 (ops : list operation) : St BufferPoolManager (list result) :=
  match ops with
  | [] => sret []
  | o :: rest =>
      do r <- perform32 o ;
      do rs <- run32 rest ;
      sret (r :: rs)
  end.

(** The states a manager built over [disk] can be in between two calls,
    whatever the calls and their arguments are. *)
Inductive reachable32 (pool_size : Z) (disk : gmap Z (list Byte.byte)) (k : Z)
  : BufferPoolManager -> Prop :=
| reachable32_new :
    reachable32 pool_size disk k (BufferPoolManager_new pool_size disk k)
| reachable32_step s o r s' :
    reachable32 pool_size disk k s ->
    perform32 o s = Ok (r, s') ->
    reachable32 pool_size disk k s'.

Definition state_after32 (ops : list operation) (s : BufferPoolManager)
  : BufferPoolManager :=
  match run32 ops s with
  | Ok (_, s') => s'
  | Fail _ => s
  end.

(** [m] neither reads nor writes the page-id counter. *)
Definition counter_blind {A} (m : St BufferPoolManager A) : Prop :=
  ∀ x s, m (set_next_page_id x s)
         = match m s with
           | Ok (a, s') => Ok (a, set_next_page_id x s')
           | Fail e => Fail e
           end.

(** A page is created, unpinned and deleted: the counter moves on by one
    and the frame is free again. *)
Definition allocate_and_delete (p : Z) : list operation :=
  [ONewPage; OUnpinPage p false; ODeletePage p].

(** [PAGE_ID_MAX] pages are created and deleted, one after the other, and
    then two more are created. *)
Definition wrapping_run : list operation :=
  flat_map (λ i, allocate_and_delete (Z.of_nat i)) (seq 0 (Z.to_nat PAGE_ID_MAX))
  ++ [ONewPage; ONewPage].

(* ===================================================================== *)
(** * What holds between two calls, whatever the calls are *)
(* ===================================================================== *)

(** The part of the bookkeeping that no argument of a call can break: the
    replacer covers the frame array; the free list has no duplicates and its
    frames are unpinned and clean; a frame off the free list has a
    non-negative pin count and is evictable exactly when that count is 0;
    a page-table entry names a frame off the free list that holds that
    page id. *)
Record pool_inv (s : BufferPoolManager) : Prop := {
  pi_sizes : replacer_size_ (replacer_ s) = Z.of_nat (length (pages_ s));
  pi_free_nodup : NoDup (free_list_ s);
  pi_free : ∀ f pg, in_free_list s f -> frame s f = Some pg ->
      pin_count_ pg = 0 ∧ is_dirty_ pg = false;
  pi_used : ∀ f pg, ¬ in_free_list s f -> frame s f = Some pg ->
      0 ≤ pin_count_ pg ∧ (is_evictable s f <-> pin_count_ pg = 0);
  pi_page_table : ∀ p f, page_table_ s !! p = Some f ->
      ¬ in_free_list s f ∧ ∃ pg, frame s f = Some pg ∧ page_id_ pg = p
}.

(** After the call [o], frame [f] still holds the dirty page it held in
    [pg]: same page id, dirty flag set, and the bytes it had unless the call
    was a store of the client into that very frame; and the call did not
    overwrite the buffer. *)
Definition kept_dirty (o : operation) (f : Z) (pg : Page)
    (s s' : BufferPoolManager) : Prop :=
  ∃ pg' evs,
    frame s' f = Some pg'
    ∧ is_dirty_ pg' = true
    ∧ page_id_ pg' = page_id_ pg
    ∧ (data_ pg' = data_ pg ∨ o = OWriteData f (data_ pg'))
    ∧ log_ s' = log_ s ++ evs
    ∧ ∀ e, e ∈ evs -> ¬ overwrites f e.

(** The call wrote the page held in [pg] to disk, page id and bytes, before
    anything it did to the buffer of frame [f], and the disk holds those
    bytes when the call returns. *)
Definition written_back (f : Z) (pg : Page) (s s' : BufferPoolManager) : Prop :=
  ∃ evs1 evs2,
    log_ s' = log_ s ++ evs1 ++ EvWritePage (page_id_ pg) (data_ pg) :: evs2
    ∧ (∀ e, e ∈ evs1 -> ¬ overwrites f e)
    ∧ disk_ s' !! page_id_ pg = Some (data_ pg).

(** The call [o] from [s] to [s'] lost no dirty page: every frame that
    was dirty in [s] still holds its page dirty, or the page was written to
    disk first. *)
Definition dirty_pages_safe (o : operation) (s s' : BufferPoolManager) : Prop :=
  ∀ f pg, frame s f = Some pg -> is_dirty_ pg = true ->
    kept_dirty o f pg s s' ∨ written_back f pg s s'.

(** A page buffer filled with the byte 0x2a. *)
Definition page_of_2a : list Byte.byte := replicate BUSTUB_PAGE_SIZE Byte.x2a.

(** A pool of one frame holding page 0, overwritten by the client and
    unpinned dirty. *)
Definition pool_with_dirty_buffer : BufferPoolManager :=
  state_after32 [ONewPage; OWriteData 0 page_of_2a; OUnpinPage 0 true]
                (BufferPoolManager_new 1 ∅ 2).

(** That pool after one more [NewPage], which takes the only frame from
    the dirty page. *)
Definition pool_after_eviction : BufferPoolManager :=
  state_after32 [ONewPage] pool_with_dirty_buffer.


(* ===================================================================== *)
(** * Facts about the monad *)
(* ===================================================================== *)

Lemma sbind_Ok {S A B} (m : St S A) (k : A -> St S B) s b s'' :
  sbind m k s = Ok (b, s'') ->
  ∃ a s', m s = Ok (a, s') ∧ k a s' = Ok (b, s'').
Proof.
  unfold sbind. destruct (m s) as [[a s']|e]; [eauto | discriminate].
Qed.

Lemma sbind_eq {S A B} (m : St S A) (k : A -> St S B) s a s' :
  m s = Ok (a, s') -> sbind m k s = k a s'.
Proof. unfold sbind. by intros ->. Qed.

(* ===================================================================== *)
(** * The replacer *)
(* ===================================================================== *)

Lemma history_set_history r f h g :
  history_ (set_history f h r) g = if decide (f = g) then h else history_ r g.
Proof.
  unfold history_, set_history; simpl. rewrite lookup_insert.
  by case_decide.
Qed.

Lemma front_nonempty h : h ≠ [] -> front h = Ok (oldest h).
Proof. by destruct h. Qed.

Lemma last_newest (h : list Z) x : last h = Some x -> newest h = x.
Proof.
  unfold newest. induction h as [|a [|b h] IH]; simpl; intros Hl.
  - discriminate.
  - congruence.
  - apply IH. exact Hl.
Qed.

Lemma back_nonempty h : h ≠ [] -> back h = Ok (newest h).
Proof.
  intros Hne. unfold back. destruct (last h) as [x|] eqn:Hl.
  - by rewrite (last_newest _ _ Hl).
  - apply last_None in Hl. contradiction.
Qed.

Lemma oldest_elem (h : list Z) : h ≠ [] -> oldest h ∈ h.
Proof. destruct h; [done | intros _; simpl; left]. Qed.

Lemma newest_elem (h : list Z) : h ≠ [] -> newest h ∈ h.
Proof.
  intros Hne. destruct (last h) as [x|] eqn:Hl.
  - rewrite (last_newest _ _ Hl). apply last_Some in Hl as [l' ->].
    set_solver.
  - apply last_None in Hl. contradiction.
Qed.

Lemma sorted_oldest_le_newest (h : list Z) :
  StronglySorted Z.lt h -> h ≠ [] -> oldest h ≤ newest h.
Proof.
  intros Hs Hne. destruct h as [|a h]; [done|]. simpl.
  apply StronglySorted_inv in Hs as [_ Hall].
  destruct h as [|b h]; [unfold newest; simpl; lia|].
  assert (Hin : newest (a :: b :: h) ∈ b :: h).
  { change (newest (a :: b :: h)) with (newest (b :: h)).
    by apply newest_elem. }
  rewrite Forall_forall in Hall. specialize (Hall _ Hin). lia.
Qed.

(** Under [replacer_wf] the subtraction in [k_distance] does not wrap, and
    a finite distance stays below [INF]. *)
Lemma finite_distance_bounds r f :
  replacer_wf r -> history_ r f ≠ [] ->
  0 ≤ newest (history_ r f) - oldest (history_ r f) < INF.
Proof.
  intros Hwf Hne.
  pose proof (sorted_oldest_le_newest _ (wf_sorted _ Hwf f) Hne).
  pose proof (wf_issued _ Hwf f _ (oldest_elem _ Hne)).
  pose proof (wf_issued _ Hwf f _ (newest_elem _ Hne)).
  pose proof (wf_counter _ Hwf). unfold INF. lia.
Qed.

Lemma k_distance_wf r f :
  replacer_wf r -> history_ r f ≠ [] ->
  k_distance (k_ r) (history_ r f) = Ok (scan_key r f).1.
Proof.
  intros Hwf Hne. unfold k_distance, scan_key, backward_k_distance. simpl.
  destruct (Z.of_nat (length (history_ r f)) <? k_ r); [done|].
  rewrite (back_nonempty _ Hne), (front_nonempty _ Hne). simpl.
  f_equal. unfold to_size_t. apply Z.mod_small.
  pose proof (finite_distance_bounds r f Hwf Hne). unfold INF in *. lia.
Qed.

Lemma beatsb_beats a b : beatsb a b = true <-> beats a b.
Proof.
  unfold beatsb, beats.
  rewrite orb_true_iff, andb_true_iff, !Z.ltb_lt, Z.eqb_eq. tauto.
Qed.

Lemma evict_step_wf r acc f :
  replacer_wf r -> history_ r f ≠ [] ->
  evict_step r acc f =
    Ok (match acc with
        | None => Some (f, (scan_key r f).1, (scan_key r f).2)
        | Some (v, d, t) =>
            if beatsb (scan_key r f) (d, t)
            then Some (f, (scan_key r f).1, (scan_key r f).2)
            else acc
        end).
Proof.
  intros Hwf Hne. unfold evict_step.
  rewrite (k_distance_wf _ _ Hwf Hne), (front_nonempty _ Hne).
  destruct acc as [[[v d] t]|]; [|done].
  unfold beatsb. simpl.
  destruct (d <? _) eqn:E1; simpl; [done|].
  destruct (_ =? d) eqn:E2; simpl; [|done].
  by destruct (_ <? t).
Qed.

(** The same scan without assumptions on the timestamps: it fails only on
    an empty history, and what it returns was a candidate. *)
Lemma k_distance_total k h : h ≠ [] -> ∃ d, k_distance k h = Ok d.
Proof.
  intros Hne. unfold k_distance. destruct (_ <? k); [eauto|].
  rewrite (back_nonempty _ Hne), (front_nonempty _ Hne). eauto.
Qed.

Lemma evict_step_total r acc f :
  history_ r f ≠ [] ->
  ∃ acc', evict_step r acc f = Ok acc'
          ∧ (acc' = acc ∨ ∃ d t, acc' = Some (f, d, t)).
Proof.
  intros Hne. unfold evict_step.
  destruct (k_distance_total (k_ r) _ Hne) as [d ->].
  rewrite (front_nonempty _ Hne).
  destruct acc as [[[v d'] t']|]; [|eauto 6].
  destruct (d' <? d); [eauto 6|].
  destruct (d =? d'); [|eauto].
  destruct (_ <? t'); eauto 6.
Qed.

Lemma evict_step_shape r acc f acc' :
  evict_step r acc f = Ok acc' ->
  (acc' = acc ∧ acc ≠ None) ∨ ∃ d t, acc' = Some (f, d, t).
Proof.
  unfold evict_step.
  destruct (k_distance _ _) as [d|]; [|discriminate].
  destruct acc as [[[v d'] t']|].
  - destruct (d' <? d).
    + destruct (front _); [|discriminate]. intros [= <-]. eauto.
    + destruct (d =? d'); [|intros [= <-]; by left].
      destruct (front _) as [t|]; [|discriminate].
      destruct (t <? t'); intros [= <-]; eauto.
  - destruct (front _); [|discriminate]. intros [= <-]. eauto.
Qed.

Lemma evict_scan_total r l acc :
  (∀ f, f ∈ l -> history_ r f ≠ []) ->
  ∃ acc', evict_scan r l acc = Ok acc'.
Proof.
  revert acc. induction l as [|f l IH]; intros acc Hne; simpl; [eauto|].
  destruct (evict_step_total r acc f) as (acc1 & -> & _); [apply Hne; left|].
  apply IH. intros g Hg. apply Hne. by right.
Qed.

Lemma evict_scan_shape r l acc acc' :
  evict_scan r l acc = Ok acc' ->
  match acc' with
  | None => acc = None ∧ l = []
  | Some (v, d, t) => v ∈ l ∨ acc = Some (v, d, t)
  end.
Proof.
  revert acc. induction l as [|f l IH]; intros acc; simpl.
  - intros [= <-]. destruct acc as [[[v d] t]|]; auto.
  - destruct (evict_step r acc f) as [acc1|] eqn:Hstep; [|discriminate].
    intros Hscan. specialize (IH _ Hscan).
    apply evict_step_shape in Hstep.
    destruct acc' as [[[v d] t]|].
    + destruct IH as [Hin | ->]; [left; by right|].
      destruct Hstep as [[-> _] | (d1 & t1 & [= -> -> ->])];
        [by right | left; left].
    + destruct IH as [-> _].
      destruct Hstep as [[<- Hne] | (d1 & t1 & ?)]; [done | discriminate].
Qed.

(** What [Evict] does, whatever the timestamps are. *)
Lemma Evict_Some r v r' :
  Evict r = Ok (Some v, r') -> v ∈ evictable_ r ∧ r' = evicted v r.
Proof.
  unfold Evict.
  destruct (evict_scan _ _ _) as [[[[w d] t]|]|] eqn:Hscan; try discriminate.
  intros [= -> <-]. apply evict_scan_shape in Hscan as [Hin|?]; [|done].
  split; [by apply elem_of_elements in Hin | done].
Qed.

Lemma Evict_None r r' :
  Evict r = Ok (None, r') -> evictable_ r = ∅ ∧ r' = r.
Proof.
  unfold Evict.
  destruct (evict_scan _ _ _) as [[[[w d] t]|]|] eqn:Hscan; try discriminate.
  intros [= <-]. apply evict_scan_shape in Hscan as [_ Hnil].
  split; [by apply elements_empty_inv in Hnil; apply leibniz_equiv | done].
Qed.

Lemma Evict_total r :
  (∀ f, f ∈ evictable_ r -> history_ r f ≠ []) ->
  ∃ res, Evict r = Ok res.
Proof.
  intros Hne. unfold Evict.
  destruct (evict_scan_total r (elements (evictable_ r)) None) as [acc ->].
  { intros f Hf. apply Hne. by apply elem_of_elements. }
  destruct acc as [[[v d] t]|]; eauto.
Qed.

Lemma beats_irrefl a : ¬ beats a a.
Proof. unfold beats. lia. Qed.

Lemma not_beats_trans a b c : ¬ beats a b -> ¬ beats b c -> ¬ beats a c.
Proof. unfold beats. lia. Qed.

Lemma beats_not_beats a b : beats a b -> ¬ beats b a.
Proof. unfold beats. lia. Qed.

#[local] Arguments scan_key : simpl never.

(** The scan keeps the best candidate seen so far. *)
Lemma evict_scan_wf r l v0 :
  replacer_wf r ->
  (∀ f, f ∈ v0 :: l -> history_ r f ≠ []) ->
  ∃ v, evict_scan r l (Some (v0, (scan_key r v0).1, (scan_key r v0).2))
       = Ok (Some (v, (scan_key r v).1, (scan_key r v).2))
     ∧ v ∈ v0 :: l
     ∧ ∀ g, g ∈ v0 :: l -> ¬ beats (scan_key r g) (scan_key r v).
Proof.
  intros Hwf. revert v0.
  induction l as [|f l IH]; intros v0 Hne; cbn [evict_scan].
  - exists v0. split; [done|]. split; [left|].
    intros g Hg. apply list_elem_of_singleton in Hg as ->. apply beats_irrefl.
  - rewrite (evict_step_wf r _ f Hwf); [|apply Hne; right; left].
    destruct (beatsb (scan_key r f) _) eqn:Hb.
    + apply beatsb_beats in Hb. rewrite <- surjective_pairing in Hb.
      destruct (IH f) as (v & Hscan & Hin & Hbest).
      { intros g Hg. apply Hne. by right. }
      exists v. split; [done|]. split; [by right|].
      intros g Hg. apply elem_of_cons in Hg as [-> | Hg]; [|by apply Hbest].
      apply (not_beats_trans _ (scan_key r f)).
      * by apply beats_not_beats.
      * apply Hbest. left.
    + assert (Hnb : ¬ beats (scan_key r f) (scan_key r v0)).
      { intros Hb'. rewrite (surjective_pairing (scan_key r v0)) in Hb'.
        apply beatsb_beats in Hb'. congruence. }
      destruct (IH v0) as (v & Hscan & Hin & Hbest).
      { intros g Hg. apply Hne. apply elem_of_cons in Hg as [-> | Hg];
          [left | right; by right]. }
      exists v. split; [done|]. split.
      { apply elem_of_cons in Hin as [-> | Hin]; [left | right; by right]. }
      intros g Hg. apply elem_of_cons in Hg as [-> | Hg]; [apply Hbest; left|].
      apply elem_of_cons in Hg as [-> | Hg]; [|apply Hbest; by right].
      apply (not_beats_trans _ (scan_key r v0)); [done | apply Hbest; left].
Qed.

Lemma backward_k_distance_encode r f :
  replacer_wf r -> history_ r f ≠ [] ->
  match backward_k_distance (k_ r) (history_ r f) with
  | Finite d => 0 ≤ d < INF
  | Infinite => True
  end.
Proof.
  intros Hwf Hne. unfold backward_k_distance.
  destruct (_ <? _); [done|]. by apply finite_distance_bounds.
Qed.

Lemma not_beats_loses_to r g v :
  replacer_wf r -> history_ r g ≠ [] -> history_ r v ≠ [] -> g ≠ v ->
  ¬ beats (scan_key r g) (scan_key r v) ->
  loses_to (k_ r) (history_ r g) (history_ r v).
Proof.
  intros Hwf Hg Hv Hgv Hnb.
  assert (Hts : oldest (history_ r g) ≠ oldest (history_ r v)).
  { intros Heq. apply Hgv.
    apply (wf_distinct _ Hwf g v (oldest (history_ r g)));
      [by apply oldest_elem | rewrite Heq; by apply oldest_elem]. }
  pose proof (backward_k_distance_encode r g Hwf Hg) as Bg.
  pose proof (backward_k_distance_encode r v Hwf Hv) as Bv.
  unfold beats, scan_key in Hnb. simpl in Hnb. unfold loses_to.
  destruct (backward_k_distance (k_ r) (history_ r g)) as [x|],
           (backward_k_distance (k_ r) (history_ r v)) as [y|];
    simpl in *.
  - destruct (decide (x = y)) as [->|]; [right; split; [done | lia] | left; lia].
  - by left.
  - lia.
  - right. split; [done | lia].
Qed.

Lemma history_evicted v r g :
  history_ (evicted v r) g = if decide (v = g) then [] else history_ r g.
Proof. unfold evicted. apply history_set_history. Qed.

(** ** Well-formedness is kept by the replacer's operations *)

Lemma replacer_wf_new num_frames k : replacer_wf (LRUKReplacer_new num_frames k).
Proof.
  split; simpl.
  - unfold size_t_modulus. lia.
  - intros f t Ht. unfold history_ in Ht. simpl in Ht.
    rewrite lookup_empty in Ht. simpl in Ht. by apply elem_of_nil in Ht.
  - intros f. unfold history_. simpl. rewrite lookup_empty. constructor.
  - intros f g t Ht. unfold history_ in Ht. simpl in Ht.
    rewrite lookup_empty in Ht. simpl in Ht. by apply elem_of_nil in Ht.
Qed.

Lemma elem_of_tail {A} (l : list A) x : x ∈ tail l -> x ∈ l.
Proof. destruct l; simpl; [done | by right]. Qed.

Lemma StronglySorted_tail (l : list Z) :
  StronglySorted Z.lt l -> StronglySorted Z.lt (tail l).
Proof. destruct l; simpl; [done | by intros [? _]%StronglySorted_inv]. Qed.

Lemma StronglySorted_push_back (l : list Z) t :
  StronglySorted Z.lt l -> (∀ x, x ∈ l -> x < t) ->
  StronglySorted Z.lt (push_back l t).
Proof.
  unfold push_back. induction l as [|a l IH]; simpl; intros Hs Hlt.
  - repeat constructor.
  - apply StronglySorted_inv in Hs as [Hs Hall]. constructor.
    + apply IH; [done|]. intros x Hx. apply Hlt. by right.
    + apply Forall_app. split; [done|]. constructor; [|constructor].
      apply Hlt. left.
Qed.

Lemma RecordAccess_Ok f r r' :
  RecordAccess f r = Ok (tt, r') ->
  0 ≤ f < replacer_size_ r
  ∧ ∃ h, r' = set_current_timestamp (to_size_t (current_timestamp_ r + 1))
                 (set_history f h r)
       ∧ (∀ t, t ∈ h -> t ∈ history_ r f ∨ t = current_timestamp_ r)
       ∧ (h = push_back (history_ r f) (current_timestamp_ r)
          ∨ h = pop_front (push_back (history_ r f) (current_timestamp_ r)))
       ∧ (1 ≤ k_ r -> h ≠ []).
Proof.
  unfold RecordAccess, frame_id_out_of_range.
  destruct (f <? 0) eqn:E1; [discriminate|].
  destruct (replacer_size_ r <=? f) eqn:E2; [discriminate|]. simpl.
  intros [= <-]. split; [lia|]. eexists. split; [reflexivity|].
  remember (push_back (history_ r f) (current_timestamp_ r)) as h eqn:Hh.
  assert (Hin : ∀ t, t ∈ h -> t ∈ history_ r f ∨ t = current_timestamp_ r).
  { intros t Ht. subst h. unfold push_back in Ht.
    apply elem_of_app in Ht as [Ht|Ht]; [by left | right].
    by apply list_elem_of_singleton in Ht. }
  destruct (k_ r <? Z.of_nat (length h)) eqn:E3.
  - split; [intros t Ht; apply Hin; by apply elem_of_tail|].
    split; [by right|]. intros Hk Hnil. apply Z.ltb_lt in E3.
    unfold pop_front in Hnil.
    destruct h as [|a [|b h']]; simpl in *; try done; lia.
  - split; [done|]. split; [by left|]. intros _.
    subst h. unfold push_back. by destruct (history_ r f).
Qed.

Lemma RecordAccess_wf f r r' :
  replacer_wf r -> current_timestamp_ r + 1 < size_t_modulus ->
  RecordAccess f r = Ok (tt, r') -> replacer_wf r'.
Proof.
  intros Hwf Hlt Hrec.
  apply RecordAccess_Ok in Hrec as (_ & h & -> & Hin & Hh & _).
  pose proof (wf_counter _ Hwf) as Hc.
  assert (Hts : to_size_t (current_timestamp_ r + 1) = current_timestamp_ r + 1).
  { unfold to_size_t. apply Z.mod_small. lia. }
  assert (Hhist : ∀ g, history_ (set_current_timestamp
            (to_size_t (current_timestamp_ r + 1)) (set_history f h r)) g
          = if decide (f = g) then h else history_ r g).
  { intros g. apply (history_set_history r f h g). }
  assert (Hsorted : StronglySorted Z.lt h).
  { assert (StronglySorted Z.lt (push_back (history_ r f) (current_timestamp_ r))).
    { apply StronglySorted_push_back; [apply (wf_sorted _ Hwf)|].
      intros x Hx. apply (wf_issued _ Hwf) in Hx. lia. }
    destruct Hh as [-> | ->]; [done | by apply StronglySorted_tail]. }
  split.
  - simpl. rewrite Hts. lia.
  - intros g t. rewrite Hhist. simpl. rewrite Hts. case_decide.
    + intros [Ht | ->]%Hin; [apply (wf_issued _ Hwf) in Ht|]; lia.
    + intros Ht. apply (wf_issued _ Hwf) in Ht. lia.
  - intros g. rewrite Hhist. case_decide; [done | apply (wf_sorted _ Hwf)].
  - intros g1 g2 t. rewrite !Hhist.
    destruct (decide (f = g1)) as [<-|], (decide (f = g2)) as [<-|]; try done.
    + intros [Ht | ->]%Hin Ht2.
      * by apply (wf_distinct _ Hwf f g2 t).
      * apply (wf_issued _ Hwf) in Ht2. lia.
    + intros Ht1 [Ht | ->]%Hin.
      * by apply (wf_distinct _ Hwf g1 f t).
      * apply (wf_issued _ Hwf) in Ht1. lia.
    + apply (wf_distinct _ Hwf).
Qed.

Lemma set_evictable_wf e r : replacer_wf r -> replacer_wf (set_evictable_ e r).
Proof. intros [? ? ? ?]. by split. Qed.

Lemma set_history_nil_wf f r : replacer_wf r -> replacer_wf (set_history f [] r).
Proof.
  intros Hwf. split.
  - apply (wf_counter _ Hwf).
  - intros g t. rewrite history_set_history. case_decide.
    + by intros ?%elem_of_nil.
    + apply (wf_issued _ Hwf).
  - intros g. rewrite history_set_history.
    case_decide; [constructor | apply (wf_sorted _ Hwf)].
  - intros g1 g2 t. rewrite !history_set_history.
    repeat case_decide; try (by intros ?%elem_of_nil).
    + by intros ? ?%elem_of_nil.
    + apply (wf_distinct _ Hwf).
Qed.

Lemma SetEvictable_Ok f b r r' :
  SetEvictable f b r = Ok (tt, r') ->
  0 ≤ f < replacer_size_ r
  ∧ r' = set_evictable_ (if b then {[f]} ∪ evictable_ r
                         else evictable_ r ∖ {[f]}) r.
Proof.
  unfold SetEvictable, frame_id_out_of_range.
  destruct (f <? 0) eqn:E1; [discriminate|].
  destruct (replacer_size_ r <=? f) eqn:E2; [discriminate|]. simpl.
  intros [= <-]. split; [lia|].
  destruct r as [ns ev ts n k]. unfold set_evictable_. simpl.
  case_bool_decide; destruct b; simpl; f_equal; set_solver.
Qed.

Lemma replacer_perform_wf c r r' :
  replacer_wf r ->
  current_timestamp_ r + 1 < size_t_modulus ->
  replacer_perform c r = Ok (tt, r') ->
  replacer_wf r' ∧ current_timestamp_ r' ≤ current_timestamp_ r + 1.
Proof.
  intros Hwf Hlt. pose proof (wf_counter _ Hwf) as Hc.
  destruct c as [|f|f b|f]; simpl.
  - intros (v & r1 & Hev & [= <-])%sbind_Ok. destruct v as [v|].
    + apply Evict_Some in Hev as [_ ->]. split; [|simpl; lia].
      unfold evicted. by apply set_evictable_wf, set_history_nil_wf.
    + apply Evict_None in Hev as [_ ->]. split; [done | lia].
  - intros Hrec. split; [by eapply RecordAccess_wf|].
    apply RecordAccess_Ok in Hrec as (_ & h & -> & _). simpl.
    unfold to_size_t. rewrite Z.mod_small; lia.
  - intros [_ ->]%SetEvictable_Ok. split; [by apply set_evictable_wf | simpl; lia].
  - unfold Remove. case_bool_decide; intros [= <-].
    + split; [by apply set_history_nil_wf | simpl; lia].
    + split; [done | lia].
Qed.

Lemma replacer_run_wf cs r r' :
  replacer_wf r ->
  current_timestamp_ r + Z.of_nat (length cs) < size_t_modulus ->
  replacer_run cs r = Ok (tt, r') ->
  replacer_wf r'.
Proof.
  revert r. induction cs as [|c cs IH]; intros r Hwf Hlt; simpl.
  - by intros [= <-].
  - intros ([] & r1 & Hc & Hrun)%sbind_Ok.
    apply replacer_perform_wf in Hc as [Hwf1 Hts]; [|done|simpl in Hlt; lia].
    apply (IH r1); [done | simpl in Hlt; lia | done].
Qed.


(** ** Evictable frame ids are in range *)

Lemma replacer_perform_in_range c r r' :
  evictable_in_range r -> replacer_perform c r = Ok (tt, r') ->
  evictable_in_range r' ∧ replacer_size_ r' = replacer_size_ r
  ∧ k_ r' = k_ r.
Proof.
  intros Hin. unfold evictable_in_range in *. destruct c as [|f|f b|f]; simpl.
  - intros (v & r1 & Hev & [= <-])%sbind_Ok. destruct v as [v|].
    + apply Evict_Some in Hev as [_ ->]. simpl. split; [|done].
      intros g Hg. apply Hin. set_solver.
    + by apply Evict_None in Hev as [_ ->].
  - by intros (_ & h & -> & _)%RecordAccess_Ok.
  - intros [Hf ->]%SetEvictable_Ok. simpl. split; [|done].
    intros g Hg. destruct b.
    + apply elem_of_union in Hg as [->%elem_of_singleton | Hg]; auto.
    + apply Hin. set_solver.
  - unfold Remove. case_bool_decide; by intros [= <-].
Qed.

Lemma replacer_reachable_in_range num_frames k r :
  replacer_reachable num_frames k r ->
  evictable_in_range r ∧ replacer_size_ r = num_frames ∧ k_ r = k.
Proof.
  induction 1 as [|r c r' _ (IH & Hn & Hk) Hstep].
  - split; [|done]. intros g Hg. simpl in Hg. set_solver.
  - apply replacer_perform_in_range in Hstep as (? & ? & ?); [|done].
    split; [done|]. split; congruence.
Qed.

Lemma replacer_run_reachable num_frames k cs r r' :
  replacer_reachable num_frames k r ->
  replacer_run cs r = Ok (tt, r') ->
  replacer_reachable num_frames k r'.
Proof.
  revert r. induction cs as [|c cs IH]; intros r Hr; simpl.
  - by intros [= <-].
  - intros ([] & r1 & Hc & Hrun)%sbind_Ok.
    apply (IH r1); [|done]. by eapply replacer_reachable_step.
Qed.

(* ===================================================================== *)
(** * The replacement policy *)
(* ===================================================================== *)

(** The policy of [Evict] where every candidate has a history.  In a
    replacer state whose timestamps were issued by [RecordAccess] and in
    which every evictable frame has a recorded access: with no evictable
    frame [Evict] returns none and changes
    nothing; otherwise it returns an evictable frame [v] against which every
    other evictable frame loses (smaller backward K-distance, or the same
    distance and a larger oldest retained timestamp), clears the history
    of [v], removes [v] from the evictable set and leaves every other
    frame as it was. *)
Theorem Evict_selects_greatest_k_distance r :
  replacer_wf r ->
  (∀ f, f ∈ evictable_ r -> history_ r f ≠ []) ->
  (evictable_ r = ∅ -> Evict r = Ok (None, r))
  ∧ (evictable_ r ≠ ∅ ->
     ∃ v, Evict r = Ok (Some v, evicted v r)
        ∧ v ∈ evictable_ r
        ∧ (∀ g, g ∈ evictable_ r -> g ≠ v ->
             loses_to (k_ r) (history_ r g) (history_ r v))
        ∧ history_ (evicted v r) v = []
        ∧ (v ∉ evictable_ (evicted v r))
        ∧ (∀ g, g ≠ v ->
             history_ (evicted v r) g = history_ r g
             ∧ (g ∈ evictable_ (evicted v r) <-> g ∈ evictable_ r))).
Proof.
  intros Hwf Hne. split.
  - intros Hempty. unfold Evict. rewrite Hempty, elements_empty. done.
  - intros Hnonempty. unfold Evict.
    destruct (elements (evictable_ r)) as [|v0 l] eqn:Hel.
    { apply elements_empty_inv in Hel. apply leibniz_equiv in Hel. done. }
    assert (Hmem : ∀ g, g ∈ v0 :: l <-> g ∈ evictable_ r).
    { intros g. rewrite <- Hel. apply elem_of_elements. }
    cbn [evict_scan].
    rewrite (evict_step_wf r None v0 Hwf); [|apply Hne, Hmem; left].
    destruct (evict_scan_wf r l v0 Hwf) as (v & -> & Hin & Hbest).
    { intros g Hg. by apply Hne, Hmem. }
    exists v. split; [done|]. split; [by apply Hmem|].
    split; [|split; [|split]].
    + intros g Hg Hgv. apply not_beats_loses_to; auto.
      * apply Hne, Hmem, Hin.
      * apply Hbest. by apply Hmem.
    + rewrite history_evicted. by case_decide.
    + unfold evicted. simpl. set_solver.
    + intros g Hgv. split.
      * rewrite history_evicted. case_decide; congruence.
      * unfold evicted. simpl. set_solver.
Qed.

Lemma replacer_example_run :
  replacer_run [CRecordAccess 0; CRecordAccess 1; CRecordAccess 0;
                CSetEvictable 0 true; CSetEvictable 1 true]
    (LRUKReplacer_new 2 2) = Ok (tt, replacer_example).
Proof. vm_compute. reflexivity. Qed.

Lemma Evict_selects_greatest_k_distance_witness :
  Evict replacer_example = Ok (Some 1, evicted 1 replacer_example)
  ∧ loses_to 2 [0; 2] [1].
Proof.
  assert (Hwf : replacer_wf replacer_example).
  { eapply replacer_run_wf;
      [apply (replacer_wf_new 2 2) | | apply replacer_example_run].
    vm_compute. reflexivity. }
  assert (Hne : ∀ f, f ∈ evictable_ replacer_example ->
                     history_ replacer_example f ≠ []).
  { intros f Hf. simpl in Hf.
    apply elem_of_union in Hf as [->%elem_of_singleton | ->%elem_of_singleton];
      vm_compute; discriminate. }
  destruct (Evict_selects_greatest_k_distance replacer_example Hwf Hne)
    as [_ Hsome].
  destruct Hsome as (v & Hev & _ & Hbest & _).
  { vm_compute. discriminate. }
  assert (Hc : ∃ r', Evict replacer_example = Ok (Some 1, r')).
  { eexists. vm_compute. reflexivity. }
  destruct Hc as [r' Hc]. rewrite Hc in Hev. injection Hev as <- Hr'.
  rewrite Hc. rewrite Hr'.
  split; [reflexivity|].
  apply (Hbest 0); [vm_compute; reflexivity | lia].
Defined.


(* ===================================================================== *)
(** * Range checks of the replacer *)
(* ===================================================================== *)

(** C9.  In every state of a replacer, for a frame id outside
    [0, num_frames): [Remove] returns normally and leaves the state as it
    is, [RecordAccess] and [SetEvictable] fail with the invalid-frame
    exception.  [Remove] has no range check: it never fails, and what it
    does is the same whatever [replacer_size_] is. *)
Theorem Remove_out_of_range num_frames k r f :
  replacer_reachable num_frames k r ->
  ¬ (0 ≤ f < num_frames) ->
  Remove f r = Ok (tt, r)
  ∧ RecordAccess f r = Fail InvalidFrame
  ∧ (∀ b, SetEvictable f b r = Fail InvalidFrame)
  ∧ (∀ g r0, ∃ r1, Remove g r0 = Ok (tt, r1)
       ∧ ∀ n, Remove g (set_replacer_size n r0)
              = Ok (tt, set_replacer_size n r1)).
Proof.
  intros Hreach Hout.
  apply replacer_reachable_in_range in Hreach as (Hin & Hn & _).
  assert (Hcheck : frame_id_out_of_range r f = true).
  { unfold frame_id_out_of_range. rewrite Hn.
    destruct (f <? 0) eqn:E1; [done|]. apply Z.ltb_ge in E1. simpl.
    apply Z.leb_le. lia. }
  split; [|split; [|split]].
  - unfold Remove. case_bool_decide as Hev; [|done].
    apply Hin in Hev. lia.
  - unfold RecordAccess. by rewrite Hcheck.
  - intros b. unfold SetEvictable. by rewrite Hcheck.
  - intros g r0. unfold Remove. simpl. case_bool_decide; eauto.
Qed.

Lemma Remove_out_of_range_witness :
  Remove 7 replacer_example = Ok (tt, replacer_example)
  ∧ RecordAccess 7 replacer_example = Fail InvalidFrame
  ∧ RecordAccess (-1) replacer_example = Fail InvalidFrame.
Proof.
  assert (Hreach : replacer_reachable 2 2 replacer_example).
  { eapply replacer_run_reachable;
      [apply replacer_reachable_new | apply replacer_example_run]. }
  destruct (Remove_out_of_range 2 2 replacer_example 7 Hreach) as (H1 & H2 & _);
    [lia|].
  destruct (Remove_out_of_range 2 2 replacer_example (-1) Hreach) as (_ & H3 & _);
    [lia|].
  auto.
Defined.

(* ===================================================================== *)
(** * Stepping through the manager's code *)
(* ===================================================================== *)

Lemma gets_Ok {S A} (f : S -> A) s a s' :
  gets f s = Ok (a, s') -> a = f s ∧ s' = s.
Proof. by intros [= <- <-]. Qed.

Lemma modify_Ok {S} (f : S -> S) s u s' :
  modify f s = Ok (u, s') -> s' = f s.
Proof. by intros [= <-]. Qed.

Lemma sret_Ok {S A} (a : A) (s : S) b s' :
  sret a s = Ok (b, s') -> b = a ∧ s' = s.
Proof. by intros [= <- <-]. Qed.

Lemma when_Ok {S} (b : bool) (m : St S unit) s u s' :
  when b m s = Ok (u, s') ->
  (b = true ∧ m s = Ok (u, s')) ∨ (b = false ∧ s' = s).
Proof. destruct b; simpl; [by left | intros [= <-]; by right]. Qed.

Lemma frame_of_Some_range ps f pg :
  frame_of ps f = Some pg -> 0 ≤ f < Z.of_nat (length ps).
Proof.
  unfold frame_of. destruct (f <? 0) eqn:E; [discriminate|].
  apply Z.ltb_ge in E. intros H%lookup_lt_Some. lia.
Qed.

Lemma frame_of_is_Some ps f :
  0 ≤ f < Z.of_nat (length ps) -> ∃ pg, frame_of ps f = Some pg.
Proof.
  intros Hf. unfold frame_of.
  destruct (f <? 0) eqn:E; [apply Z.ltb_lt in E; lia|].
  apply lookup_lt_is_Some_2. lia.
Qed.

Lemma frame_of_insert ps f pg pg0 g :
  frame_of ps f = Some pg0 ->
  frame_of (<[Z.to_nat f := pg]> ps) g
  = if decide (f = g) then Some pg else frame_of ps g.
Proof.
  intros Hf. pose proof (frame_of_Some_range _ _ _ Hf) as Hr.
  unfold frame_of. case_decide as Hfg.
  - subst g. destruct (f <? 0) eqn:E; [apply Z.ltb_lt in E; lia|].
    apply list_lookup_insert_eq. lia.
  - destruct (g <? 0) eqn:E; [done|]. apply Z.ltb_ge in E.
    apply list_lookup_insert_ne. lia.
Qed.

Lemma frame_of_insert_eq ps f pg pg0 :
  frame_of ps f = Some pg0 -> frame_of (<[Z.to_nat f := pg]> ps) f = Some pg.
Proof. intros Hf. rewrite (frame_of_insert _ _ _ _ _ Hf). by case_decide. Qed.

Lemma page_at_Ok f s pg s' :
  page_at f s = Ok (pg, s') -> frame s f = Some pg ∧ s' = s.
Proof.
  unfold page_at, frame, frame_of. destruct (f <? 0); [discriminate|].
  destruct (pages_ s !! Z.to_nat f); [|discriminate]. by intros [= <- <-].
Qed.

Lemma page_at_frame f s pg : frame s f = Some pg -> page_at f s = Ok (pg, s).
Proof.
  unfold page_at, frame, frame_of. destruct (f <? 0); [discriminate|].
  by intros ->.
Qed.

Lemma update_page_Ok f g s u s' :
  update_page f g s = Ok (u, s') ->
  ∃ pg, frame s f = Some pg ∧ s' = with_frame f (g pg) s.
Proof.
  unfold update_page, frame, frame_of. destruct (f <? 0); [discriminate|].
  destruct (pages_ s !! Z.to_nat f) as [pg|]; [|discriminate].
  intros [= <-]. eauto.
Qed.

Lemma update_page_frame f g s pg :
  frame s f = Some pg -> update_page f g s = Ok (tt, with_frame f (g pg) s).
Proof.
  unfold update_page, frame, frame_of. destruct (f <? 0); [discriminate|].
  by intros ->.
Qed.

Lemma with_replacer_Ok {A} (m : St LRUKReplacer A) s a s' :
  with_replacer m s = Ok (a, s') ->
  ∃ r', m (replacer_ s) = Ok (a, r') ∧ s' = set_replacer r' s.
Proof.
  unfold with_replacer. destruct (m (replacer_ s)) as [[a' r']|]; [|discriminate].
  intros [= <- <-]. eauto.
Qed.

Lemma emit_Ok e s u s' :
  emit e s = Ok (u, s') -> s' = set_log (log_ s ++ [e]) s.
Proof. by intros [= <-]. Qed.

Lemma WritePage_Ok p d s u s' :
  WritePage p d s = Ok (u, s') ->
  s' = set_log (log_ s ++ [EvWritePage p d]) (set_disk (<[p := d]> (disk_ s)) s).
Proof. by intros [= <-]. Qed.

Lemma ResetMemory_Ok f s u s' :
  ResetMemory f s = Ok (u, s') ->
  ∃ pg, frame s f = Some pg
      ∧ s' = set_log (log_ s ++ [EvResetMemory f])
               (with_frame f (set_data zero_page pg) s).
Proof.
  unfold ResetMemory. intros (? & s1 & (pg & Hf & ->)%update_page_Ok & ->%emit_Ok)%sbind_Ok.
  eauto.
Qed.

Lemma ReadPage_Ok p f s u s' :
  ReadPage p f s = Ok (u, s') ->
  ∃ pg, frame s f = Some pg
      ∧ s' = set_log (log_ s ++ [EvReadPage p f])
               (with_frame f (set_data (default zero_page (disk_ s !! p)) pg) s).
Proof.
  unfold ReadPage.
  intros (d & s1 & [-> ->]%gets_Ok & H)%sbind_Ok.
  apply sbind_Ok in H as (? & s2 & (pg & Hf & ->)%update_page_Ok & ->%emit_Ok).
  eauto.
Qed.

Lemma AllocatePage_Ok s n s' :
  AllocatePage s = Ok (n, s') ->
  n = next_page_id_ s ∧ s' = set_next_page_id (next_page_id_ s + 1) s.
Proof. by intros [= <- <-]. Qed.

(** Decompose a hypothesis [H : (do x <- m ; k) s = Ok _] along its first
    action. *)
Ltac mstep H :=
  let a := fresh "a" in
  let s := fresh "s" in
  let H1 := fresh "Hstep" in
  apply sbind_Ok in H as (a & s & H1 & H);
  try (match type of a with unit => destruct a end);
  lazymatch type of H1 with
  | gets _ _ = _ => apply gets_Ok in H1 as [? ?]; try subst a; try subst s
  | modify _ _ = _ => apply modify_Ok in H1; try subst s
  | sret _ _ = _ => apply sret_Ok in H1 as [? ?]; try subst a; try subst s
  | emit _ _ = _ => apply emit_Ok in H1; try subst s
  | WritePage _ _ _ = _ => apply WritePage_Ok in H1; try subst s
  | _ => idtac
  end.

Lemma FindAndEvictFrame_Ok s res s1 :
  FindAndEvictFrame s = Ok (res, s1) ->
  (∃ f rest, free_list_ s = f :: rest ∧ res = Some f
             ∧ s1 = set_free_list rest s)
  ∨ (free_list_ s = [] ∧ evictable_ (replacer_ s) = ∅ ∧ res = None ∧ s1 = s)
  ∨ (∃ v pg, free_list_ s = [] ∧ v ∈ evictable_ (replacer_ s)
       ∧ frame s v = Some pg ∧ res = Some v
       ∧ s1 = mkBufferPoolManager (pool_size_ s)
                (<[Z.to_nat v := mkPage zero_page INVALID_PAGE_ID
                                   (pin_count_ pg) false (rwlatch_ pg)]> (pages_ s))
                (delete (page_id_ pg) (page_table_ s))
                []
                (evicted v (replacer_ s))
                (next_page_id_ s)
                (if is_dirty_ pg then <[page_id_ pg := data_ pg]> (disk_ s)
                 else disk_ s)
                (log_ s ++ (if is_dirty_ pg
                            then [EvWritePage (page_id_ pg) (data_ pg)]
                            else [])
                        ++ [EvResetMemory v])).
Proof.
  destruct s as [n ps pt fl r npid disk log].
  unfold FindAndEvictFrame. intros H. mstep H. simpl in H.
  destruct fl as [|f rest].
  - right. mstep H. apply with_replacer_Ok in Hstep as (r' & Hev & ->).
    simpl in Hev. destruct a as [v|].
    + right. apply Evict_Some in Hev as [Hv ->].
      mstep H. apply page_at_Ok in Hstep as [Hf ->].
      unfold frame in Hf. simpl in Hf.
      mstep H. unfold set_replacer, set_page_table in H. simpl in H.
      mstep H. apply when_Ok in Hstep as [[Hd Hw] | [Hd ->]].
      * mstep Hw. unfold set_log, set_disk in Hw. simpl in Hw.
        apply update_page_Ok in Hw as (pg1 & Hf1 & ->).
        unfold frame in Hf1. simpl in Hf1. simplify_eq.
        unfold with_frame, set_pages in H. simpl in H.
        mstep H. apply update_page_Ok in Hstep as (pg2 & Hf2 & ->).
        unfold frame in Hf2. simpl in Hf2.
        rewrite (frame_of_insert_eq _ _ _ _ Hf) in Hf2. simplify_eq.
        unfold with_frame, set_pages in H. simpl in H.
        rewrite list_insert_insert_eq in H.
        mstep H. apply ResetMemory_Ok in Hstep as (pg3 & Hf3 & ->).
        unfold frame in Hf3. simpl in Hf3.
        rewrite (frame_of_insert_eq _ _ _ _ Hf) in Hf3. simplify_eq.
        unfold with_frame, set_pages, set_log in H. simpl in H.
        rewrite list_insert_insert_eq in H.
        apply sret_Ok in H as [-> ->].
        exists v, a. do 4 (split; [done|]). rewrite Hd. simpl.
        by rewrite <- app_assoc.
      * mstep H. apply update_page_Ok in Hstep as (pg2 & Hf2 & ->).
        unfold frame in Hf2. simpl in Hf2. simplify_eq.
        unfold with_frame, set_pages in H. simpl in H.
        mstep H. apply ResetMemory_Ok in Hstep as (pg3 & Hf3 & ->).
        unfold frame in Hf3. simpl in Hf3.
        rewrite (frame_of_insert_eq _ _ _ _ Hf) in Hf3. simplify_eq.
        unfold with_frame, set_pages, set_log in H. simpl in H.
        rewrite list_insert_insert_eq in H.
        apply sret_Ok in H as [-> ->].
        exists v, a. do 4 (split; [done|]). rewrite Hd. simpl.
        unfold set_data, set_page_id. simpl. by rewrite Hd.
    + left. apply Evict_None in Hev as [He ->].
      apply sret_Ok in H as [-> ->]. done.
  - left. mstep H. apply sret_Ok in H as [-> ->]. simpl. eauto.
Qed.

(* ===================================================================== *)
(** * The invariant of the manager *)
(* ===================================================================== *)

Lemma pin_in_replacer f r r1 r2 :
  SetEvictable f false r = Ok (tt, r1) ->
  RecordAccess f r1 = Ok (tt, r2) ->
  pinned_replacer f r r2.
Proof.
  intros [_ ->]%SetEvictable_Ok (_ & h & -> & _ & _ & Hne)%RecordAccess_Ok.
  split; simpl; try done.
  - intros g Hg.
    change (history_ (set_history f h (set_evictable_ (evictable_ r ∖ {[f]}) r)) g
            = history_ r g).
    rewrite history_set_history. case_decide; [congruence | done].
  - intros Hk.
    change (history_ (set_history f h (set_evictable_ (evictable_ r ∖ {[f]}) r)) f
            ≠ []).
    rewrite history_set_history. case_decide; [by apply Hne | done].
Qed.

Lemma pin_in_replacer_history f r r1 r2 :
  SetEvictable f false r = Ok (tt, r1) ->
  RecordAccess f r1 = Ok (tt, r2) ->
  ∀ g, history_ r2 g ≠ [] ∨ history_ r2 g = history_ r g.
Proof.
  intros H1 H2 g. pose proof (pin_in_replacer _ _ _ _ H1 H2) as Hp.
  destruct (decide (g = f)) as [->|Hg]; [|right; by apply (pr_history _ _ _ Hp)].
  apply SetEvictable_Ok in H1 as [_ ->].
  apply RecordAccess_Ok in H2 as (_ & h & -> & _ & Hh & _).
  change (history_ (set_history f h (set_evictable_ (evictable_ r ∖ {[f]}) r)) f ≠ []
          ∨ history_ (set_history f h (set_evictable_ (evictable_ r ∖ {[f]}) r)) f
            = history_ r f).
  rewrite history_set_history. case_decide; [|done].
  change (history_ (set_evictable_ (evictable_ r ∖ {[f]}) r) f)
    with (history_ r f) in Hh.
  destruct (decide (h = [])) as [->|]; [|by left]. right.
  destruct Hh as [Hh|Hh]; unfold push_back in Hh.
  - by destruct (history_ r f).
  - unfold pop_front in Hh. destruct (history_ r f) as [|a [|b l]]; simpl in Hh;
      try done.
Qed.

(** A frame that a call did not touch keeps its part of the invariant. *)
Lemma frame_inv_ext s s' f pg :
  frame_inv s f pg ->
  (in_free_list s' f <-> in_free_list s f) ->
  (is_evictable s' f <-> is_evictable s f) ->
  history_ (replacer_ s') f = history_ (replacer_ s) f ->
  k_ (replacer_ s') = k_ (replacer_ s) ->
  frame_inv s' f pg.
Proof.
  intros [H1 H2 H3 H4 H5 H6 H7 H8] Hfl Hev Hh Hk.
  split; rewrite ?Hfl, ?Hev, ?Hh, ?Hk; auto.
Qed.

Lemma frame_inv_used s f pg :
  ¬ in_free_list s f ->
  page_id_ pg ≠ INVALID_PAGE_ID ->
  0 ≤ pin_count_ pg ->
  (is_evictable s f <-> pin_count_ pg = 0) ->
  (1 ≤ k_ (replacer_ s) -> history_ (replacer_ s) f ≠ []) ->
  frame_inv s f pg.
Proof. intros. split; auto; intros; contradiction. Qed.

Lemma frame_inv_free s f pg :
  in_free_list s f ->
  pin_count_ pg = 0 ->
  is_dirty_ pg = false ->
  history_ (replacer_ s) f = [] ->
  (is_evictable s f <-> page_id_ pg ≠ INVALID_PAGE_ID) ->
  frame_inv s f pg.
Proof. intros. split; auto; intros; contradiction. Qed.

Lemma manager_inv_detached s f :
  manager_inv s ->
  (∃ pg, frame s f = Some pg) ->
  ¬ in_free_list s f ->
  (∀ p, page_table_ s !! p ≠ Some f) ->
  detached_inv s f.
Proof.
  intros [H1 H2 H3 H4 H5 H6 H7 H8 H9] [pg Hf] Hnf Hpt.
  split; auto.
  - apply frame_of_Some_range in Hf. lia.
  - intros p g Hg. destruct (H9 _ _ Hg) as [? ?]. split; [|done].
    intros ->. by apply (Hpt p).
Qed.

(** Installing a page in a detached frame restores the invariant. *)
Lemma install_inv n ps pt fl r npid disk log f pg' r2 npid' disk' log' :
  detached_inv (mkBufferPoolManager n ps pt fl r npid disk log) f ->
  pinned_replacer f r r2 ->
  page_id_ pg' ≠ INVALID_PAGE_ID ->
  1 ≤ pin_count_ pg' ->
  0 ≤ npid' ->
  manager_inv (mkBufferPoolManager n (<[Z.to_nat f := pg']> ps)
                 (<[page_id_ pg' := f]> pt) fl r2 npid' disk' log').
Proof.
  intros [H1 H2 H3 H4 H5 H6 H7 H8 H9 H10 H11] [E1 E2 E3 E4 E5] Hid Hpin Hn.
  unfold in_free_list, is_evictable in *. simpl in *.
  destruct (frame_of_is_Some ps f) as [pg0 Hf0]; [lia|].
  split; simpl; auto.
  - by rewrite length_insert.
  - congruence.
  - unfold is_evictable. simpl. intros g Hg. apply H6. set_solver.
  - intros g pg. unfold frame. simpl. rewrite (frame_of_insert _ _ _ _ _ Hf0).
    case_decide as Hfg.
    + subst g. intros [= <-]. apply frame_inv_used; simpl; auto; try lia.
      * unfold is_evictable. simpl. rewrite E1. set_solver by lia.
      * rewrite E4. done.
    + intros Hg.
      apply (frame_inv_ext (mkBufferPoolManager n ps pt fl r npid disk log)).
      * apply H10; [congruence | done].
      * done.
      * unfold is_evictable. simpl. rewrite E1. set_solver.
      * simpl. apply E2. congruence.
      * done.
  - intros p g. unfold in_free_list, frame. simpl.
    rewrite lookup_insert. case_decide as Hp.
    + intros [= <-]. split; [done|]. exists pg'.
      by rewrite (frame_of_insert_eq _ _ _ _ Hf0).
    + intros Hg. destruct (H11 _ _ Hg) as (Hgf & Hnf & pg & Hpg & Hpid).
      split; [done|]. exists pg. split; [|done].
      rewrite (frame_of_insert _ _ _ _ _ Hf0). by case_decide.
Qed.

Lemma written_back_first_head s f evs :
  discards_only f evs ->
  (∀ pg, frame s f = Some pg -> is_dirty_ pg = true ->
         ∃ post, evs = EvWritePage (page_id_ pg) (data_ pg) :: post) ->
  written_back_first s evs.
Proof.
  intros Honly Hhead g pg pre e post Hg Hd Hevs Hov.
  assert (g = f) as ->.
  { apply (Honly e); [|done]. rewrite Hevs. set_solver. }
  destruct (Hhead pg Hg Hd) as [post' Hpost].
  destruct pre as [|e0 pre].
  - simpl in Hevs. rewrite Hpost in Hevs. injection Hevs as <- _. contradiction.
  - simpl in Hevs. rewrite Hpost in Hevs. injection Hevs as <- _. left.
Qed.

Lemma written_back_first_no_discard s evs :
  (∀ e g, e ∈ evs -> ¬ overwrites g e) -> written_back_first s evs.
Proof.
  intros Hno g pg pre e post _ _ Hevs Hov. exfalso.
  apply (Hno e g); [|done]. rewrite Hevs. set_solver.
Qed.

Lemma step_ok_refl s : manager_inv s -> step_ok s s.
Proof.
  intros Hinv. split; [done | lia |]. exists []. split; [by rewrite app_nil_r|].
  apply written_back_first_no_discard. intros e g He. by apply elem_of_nil in He.
Qed.

(** [FindAndEvictFrame] hands out a detached frame; if that frame was
    dirty, the events it logged start with the write-back. *)
Lemma FindAndEvictFrame_detached s f s1 :
  manager_inv s ->
  FindAndEvictFrame s = Ok (Some f, s1) ->
  detached_inv s1 f
  ∧ next_page_id_ s1 = next_page_id_ s
  ∧ ∃ evs, log_ s1 = log_ s ++ evs
         ∧ discards_only f evs
         ∧ (∀ pg, frame s f = Some pg -> is_dirty_ pg = true ->
              ∃ post, evs = EvWritePage (page_id_ pg) (data_ pg) :: post).
Proof.
  intros Hinv Hfind. pose proof Hinv as [H1 H2 H3 H4 H5 H6 H7 H8 H9].
  apply FindAndEvictFrame_Ok in Hfind
    as [(f' & rest & Hfl & [= <-] & ->)
       |[(_ & _ & [=] & _)
        |(v & pg & Hfl & Hv & Hpg & [= <-] & ->)]].
  - (* the front of the free list *)
    assert (Hin : in_free_list s f) by (unfold in_free_list; rewrite Hfl; left).
    rewrite Hfl in H4. apply NoDup_cons in H4 as [Hnotin Hnodup].
    assert (Hmem : ∀ g, g ≠ f -> (in_free_list (set_free_list rest s) g
                                   <-> in_free_list s g)).
    { intros g Hg. unfold in_free_list. simpl. rewrite Hfl. set_solver. }
    split; [split|].
    + done.
    + done.
    + done.
    + done.
    + intros g Hg. apply H5. unfold in_free_list in *. simpl in Hg.
      rewrite Hfl. by right.
    + done.
    + done.
    + by apply H5.
    + done.
    + intros g pg Hg Hfr.
      apply (frame_inv_ext s); [by apply H8 | by apply Hmem | done | done | done].
    + intros p g Hpt. destruct (H9 _ _ Hpt) as [Hnf Hex].
      assert (g ≠ f) by congruence.
      split; [done|]. split; [by rewrite Hmem | done].
    + split; [done|]. exists []. split; [simpl; by rewrite app_nil_r|].
      split; [intros e g He; by apply elem_of_nil in He|].
      intros pg Hpg Hd. pose proof (fi_free_clean _ _ _ (H8 _ _ Hpg) Hin).
      congruence.
  - (* a victim of the replacer *)
    assert (Hr : 0 ≤ f < pool_size_ s) by (by apply H6).
    assert (Hnofree : ∀ g, ¬ in_free_list s g).
    { intros g. unfold in_free_list. rewrite Hfl. apply not_elem_of_nil. }
    split; [split|].
    + done.
    + simpl. by rewrite length_insert.
    + done.
    + constructor.
    + unfold in_free_list. simpl. intros g Hg. by apply elem_of_nil in Hg.
    + unfold is_evictable. simpl. intros g Hg. apply H6.
      unfold is_evictable. set_solver.
    + done.
    + done.
    + unfold in_free_list. simpl. apply not_elem_of_nil.
    + intros g pg0 Hg. unfold frame. simpl.
      rewrite (frame_of_insert _ _ _ _ _ Hpg). case_decide; [congruence|].
      intros Hfr. apply (frame_inv_ext s); [by apply H8 | | | | done].
      * unfold in_free_list. simpl. rewrite Hfl. done.
      * unfold is_evictable. simpl. set_solver.
      * simpl. rewrite history_evicted. by case_decide.
    + intros p g. simpl. intros [Hp Hpt]%lookup_delete_Some.
      destruct (H9 _ _ Hpt) as [_ (pg0 & Hpg0 & Hid)].
      assert (g ≠ f).
      { intros ->. rewrite Hpg in Hpg0. congruence. }
      split; [done|]. split.
      { unfold in_free_list. simpl. apply not_elem_of_nil. }
      exists pg0. split; [|done]. unfold frame. simpl.
      rewrite (frame_of_insert _ _ _ _ _ Hpg). by case_decide.
    + split; [done|]. simpl. eexists. split; [reflexivity|]. split.
      * intros e g He Hov. destruct (is_dirty_ pg); simpl in He.
        -- apply elem_of_cons in He as [-> | He]; [done|].
           apply list_elem_of_singleton in He as ->. done.
        -- apply list_elem_of_singleton in He as ->. done.
      * intros pg0 Hpg0 Hd. rewrite Hpg in Hpg0. injection Hpg0 as <-.
        rewrite Hd. simpl. eauto.
Qed.

Lemma NewPage_step s res s' :
  manager_inv s -> NewPage s = Ok (res, s') ->
  step_ok s s'
  ∧ match res with
    | None => True
    | Some (p, _) => p = next_page_id_ s ∧ next_page_id_ s' = p + 1
    end.
Proof.
  intros Hinv H. unfold NewPage in H.
  apply sbind_Ok in H as (found & s1 & Hfind & H).
  destruct found as [f|].
  - destruct (FindAndEvictFrame_detached _ _ _ Hinv Hfind)
      as (Hdet & Hnp & evs & Hlog & Honly & Hhead).
    destruct s1 as [n ps pt fl r npid disk log]. simpl in Hnp, Hlog.
    assert (Hf0 : ∃ pg0, frame_of ps f = Some pg0).
    { apply frame_of_is_Some. pose proof (di_range _ _ Hdet).
      pose proof (di_pages_length _ _ Hdet). simpl in *. lia. }
    destruct Hf0 as [pg0 Hf0].
    mstep H. apply with_replacer_Ok in Hstep as (r1 & Hse & ->). simpl in Hse.
    mstep H. apply with_replacer_Ok in Hstep as (r2 & Hra & ->). simpl in Hra.
    pose proof (pin_in_replacer _ _ _ _ Hse Hra) as Hpin.
    unfold set_replacer in H. simpl in H.
    mstep H. apply AllocatePage_Ok in Hstep as [-> ->]. simpl in H.
    unfold set_next_page_id in H. simpl in H.
    mstep H. apply update_page_Ok in Hstep as (pg1 & Hf1 & ->).
    unfold frame in Hf1. simpl in Hf1. rewrite Hf0 in Hf1. injection Hf1 as <-.
    unfold with_frame, set_pages in H. simpl in H.
    mstep H. apply update_page_Ok in Hstep as (pg2 & Hf2 & ->).
    unfold frame in Hf2. simpl in Hf2.
    rewrite (frame_of_insert_eq _ _ _ _ Hf0) in Hf2. injection Hf2 as <-.
    unfold with_frame, set_pages in H. simpl in H.
    rewrite list_insert_insert_eq in H.
    mstep H. unfold set_page_table in H. simpl in H.
    mstep H. apply ResetMemory_Ok in Hstep as (pg3 & Hf3 & ->).
    unfold frame in Hf3. simpl in Hf3.
    rewrite (frame_of_insert_eq _ _ _ _ Hf0) in Hf3. injection Hf3 as <-.
    unfold with_frame, set_pages, set_log in H. simpl in H.
    rewrite list_insert_insert_eq in H.
    apply sret_Ok in H as [-> ->].
    pose proof (di_next_page_id _ _ Hdet) as Hn. simpl in Hn.
    split; [split|]; simpl.
    + set (pg' := set_data zero_page (set_pin_count 1 (set_page_id npid pg0))).
      change (<[npid:=f]> pt) with (<[page_id_ pg':=f]> pt).
      eapply install_inv; [exact Hdet | exact Hpin | | | ]; simpl;
        unfold INVALID_PAGE_ID; lia.
    + lia.
    + exists (evs ++ [EvResetMemory f]). split; [by rewrite Hlog, app_assoc|].
      apply (written_back_first_head _ f).
      * intros e g [He | ->%list_elem_of_singleton]%elem_of_app;
          [by eapply Honly | done].
      * intros pg Hpg Hd. destruct (Hhead pg Hpg Hd) as [post ->]. simpl. eauto.
    + split; [done | lia].
  - apply sret_Ok in H as [-> ->]. split; [|done].
    apply FindAndEvictFrame_Ok in Hfind
      as [(f' & rest & _ & [=] & _)
         |[(_ & _ & _ & ->)
          |(v & pg & _ & _ & _ & [=] & _)]].
    by apply step_ok_refl.
Qed.

(** Replacing the contents of one frame, under the same page id, keeps
    the invariant if the new contents satisfy the frame's part of it. *)
Lemma update_frame_inv n ps pt fl r npid disk log f pg pg' r' npid' disk' log' :
  manager_inv (mkBufferPoolManager n ps pt fl r npid disk log) ->
  frame_of ps f = Some pg ->
  page_id_ pg' = page_id_ pg ->
  (∀ g, g ≠ f -> (g ∈ evictable_ r' <-> g ∈ evictable_ r)
                 ∧ history_ r' g = history_ r g) ->
  k_ r' = k_ r ->
  replacer_size_ r' = replacer_size_ r ->
  0 ≤ npid' ->
  frame_inv (mkBufferPoolManager n (<[Z.to_nat f := pg']> ps) pt fl r'
               npid' disk' log') f pg' ->
  manager_inv (mkBufferPoolManager n (<[Z.to_nat f := pg']> ps) pt fl r'
                 npid' disk' log').
Proof.
  intros [H1 H2 H3 H4 H5 H6 H7 H8 H9] Hf Hid Hother Hk Hsize Hn Hfi.
  unfold in_free_list, is_evictable in *. simpl in *.
  pose proof (frame_of_Some_range _ _ _ Hf) as Hr.
  split.
  - done.
  - simpl. by rewrite length_insert.
  - simpl. congruence.
  - done.
  - done.
  - unfold is_evictable. simpl. intros g Hg.
    destruct (decide (g = f)) as [->|Hgf]; [lia|].
    apply H6. by apply Hother.
  - done.
  - intros g pg0. unfold frame. simpl. rewrite (frame_of_insert _ _ _ _ _ Hf).
    case_decide as Hfg.
    + subst g. by intros [= <-].
    + intros Hg.
      apply (frame_inv_ext (mkBufferPoolManager n ps pt fl r npid disk log)).
      * by apply H8.
      * done.
      * unfold is_evictable. simpl. apply Hother. congruence.
      * simpl. apply Hother. congruence.
      * done.
  - intros p g Hpt. destruct (H9 _ _ Hpt) as (Hnf & pg0 & Hpg0 & Hp).
    split; [done|]. unfold frame in *. simpl in *.
    rewrite (frame_of_insert _ _ _ _ _ Hf). case_decide as Hfg.
    + subst g. exists pg'. split; [done|]. congruence.
    + eauto.
Qed.

Lemma FetchPage_step p s res s' :
  manager_inv s -> p ≠ INVALID_PAGE_ID ->
  FetchPage p s = Ok (res, s') -> step_ok s s'.
Proof.
  intros Hinv Hp H. unfold FetchPage in H. mstep H.
  apply sbind_Ok in H as (entry & s1 & Hentry & H).
  destruct (page_table_ s !! p) as [f|] eqn:Hpt.
  - (* the page is resident *)
    apply sret_Ok in Hentry as [-> ->].
    destruct (mi_page_table _ Hinv _ _ Hpt) as (Hnf & pg & Hpg & Hid).
    pose proof (mi_frames _ Hinv _ _ Hpg) as Hfi.
    destruct s as [n ps pt fl r npid disk log].
    unfold frame, in_free_list in *. simpl in *.
    mstep H. apply update_page_Ok in Hstep as (pg1 & Hf1 & ->).
    unfold frame in Hf1. simpl in Hf1. rewrite Hpg in Hf1. injection Hf1 as <-.
    unfold with_frame, set_pages in H. simpl in H.
    mstep H. apply with_replacer_Ok in Hstep as (r1 & Hse & ->). simpl in Hse.
    mstep H. apply with_replacer_Ok in Hstep as (r2 & Hra & ->). simpl in Hra.
    pose proof (pin_in_replacer _ _ _ _ Hse Hra) as [E1 E2 E3 E4 E5].
    unfold set_replacer in H. simpl in H.
    apply sret_Ok in H as [-> ->].
    pose proof (fi_used_pin _ _ _ Hfi Hnf) as Hpin.
    split; simpl.
    + eapply update_frame_inv; [exact Hinv | exact Hpg | done | | done | done | | ].
      * intros g Hg. split; [rewrite E1; set_solver | by apply E2].
      * apply (mi_next_page_id _ Hinv).
      * apply frame_inv_used; simpl.
        -- done.
        -- apply (fi_used_id _ _ _ Hfi Hnf).
        -- lia.
        -- unfold is_evictable. simpl. rewrite E1. set_solver by lia.
        -- rewrite E4. done.
    + lia.
    + exists []. split; [by rewrite app_nil_r|].
      apply written_back_first_no_discard. intros e g He. by apply elem_of_nil in He.
  - (* the page has to be brought in *)
    apply sbind_Ok in Hentry as (found & s2 & Hfind & Hentry).
    destruct found as [f|].
    + destruct (FindAndEvictFrame_detached _ _ _ Hinv Hfind)
        as (Hdet & Hnp & evs & Hlog & Honly & Hhead).
      destruct s2 as [n ps pt fl r npid disk log]. simpl in Hnp, Hlog.
      assert (Hf0 : ∃ pg0, frame_of ps f = Some pg0).
      { apply frame_of_is_Some. pose proof (di_range _ _ Hdet).
        pose proof (di_pages_length _ _ Hdet). simpl in *. lia. }
      destruct Hf0 as [pg0 Hf0].
      mstep Hentry. apply ReadPage_Ok in Hstep as (pg1 & Hf1 & ->).
      unfold frame in Hf1. simpl in Hf1. rewrite Hf0 in Hf1. injection Hf1 as <-.
      unfold with_frame, set_pages, set_log in Hentry. simpl in Hentry.
      mstep Hentry. apply update_page_Ok in Hstep as (pg2 & Hf2 & ->).
      unfold frame in Hf2. simpl in Hf2.
      rewrite (frame_of_insert_eq _ _ _ _ Hf0) in Hf2. injection Hf2 as <-.
      unfold with_frame, set_pages in Hentry. simpl in Hentry.
      rewrite list_insert_insert_eq in Hentry.
      mstep Hentry. apply update_page_Ok in Hstep as (pg3 & Hf3 & ->).
      unfold frame in Hf3. simpl in Hf3.
      rewrite (frame_of_insert_eq _ _ _ _ Hf0) in Hf3. injection Hf3 as <-.
      unfold with_frame, set_pages in Hentry. simpl in Hentry.
      rewrite list_insert_insert_eq in Hentry.
      mstep Hentry. unfold set_page_table in Hentry. simpl in Hentry.
      apply sret_Ok in Hentry as [-> ->].
      mstep H. apply update_page_Ok in Hstep as (pg4 & Hf4 & ->).
      unfold frame in Hf4. simpl in Hf4.
      rewrite (frame_of_insert_eq _ _ _ _ Hf0) in Hf4. injection Hf4 as <-.
      unfold with_frame, set_pages in H. simpl in H.
      rewrite list_insert_insert_eq in H.
      mstep H. apply with_replacer_Ok in Hstep as (r1 & Hse & ->). simpl in Hse.
      mstep H. apply with_replacer_Ok in Hstep as (r2 & Hra & ->). simpl in Hra.
      pose proof (pin_in_replacer _ _ _ _ Hse Hra) as Hpin.
      unfold set_replacer in H. simpl in H.
      apply sret_Ok in H as [-> ->].
      pose proof (di_next_page_id _ _ Hdet) as Hn. simpl in Hn.
      split; simpl.
      * match goal with
        | |- manager_inv (mkBufferPoolManager _ (<[_ := ?pg]> _) _ _ _ _ _ _) =>
            set (pg' := pg)
        end.
        change (<[p:=f]> pt) with (<[page_id_ pg':=f]> pt).
        eapply install_inv; [exact Hdet | exact Hpin | | | ]; simpl; lia.
      * lia.
      * exists (evs ++ [EvReadPage p f]). split; [by rewrite Hlog, app_assoc|].
        apply (written_back_first_head _ f).
        -- intros e g [He | ->%list_elem_of_singleton]%elem_of_app;
             [by eapply Honly | done].
        -- intros pg Hpg Hd. destruct (Hhead pg Hpg Hd) as [post ->].
           simpl. eauto.
    + apply sret_Ok in Hentry as [-> ->]. apply sret_Ok in H as [-> ->].
      apply FindAndEvictFrame_Ok in Hfind
        as [(f' & rest & _ & [=] & _)
           |[(_ & _ & _ & ->)
            |(v & pg & _ & _ & _ & [=] & _)]].
      by apply step_ok_refl.
Qed.

Lemma step_ok_no_discard s s' evs :
  manager_inv s' ->
  next_page_id_ s ≤ next_page_id_ s' ->
  log_ s' = log_ s ++ evs ->
  (∀ e g, e ∈ evs -> ¬ overwrites g e) ->
  step_ok s s'.
Proof.
  intros Hinv Hn Hlog Hno. split; [done | done |].
  exists evs. split; [done|]. by apply written_back_first_no_discard.
Qed.

Lemma UnpinPage_step p d s res s' :
  manager_inv s -> UnpinPage p d s = Ok (res, s') -> step_ok s s'.
Proof.
  intros Hinv H. unfold UnpinPage in H. mstep H.
  destruct (page_table_ s !! p) as [f|] eqn:Hpt.
  2:{ apply sret_Ok in H as [-> ->]. by apply step_ok_refl. }
  destruct (mi_page_table _ Hinv _ _ Hpt) as (Hnf & pg & Hpg & Hid).
  pose proof (mi_frames _ Hinv _ _ Hpg) as Hfi.
  pose proof (fi_used_pin _ _ _ Hfi Hnf) as Hpin.
  pose proof (fi_used_evictable _ _ _ Hfi Hnf) as Hev.
  pose proof (fi_used_id _ _ _ Hfi Hnf) as Hpid.
  pose proof (fi_used_history _ _ _ Hfi Hnf) as Hhist.
  pose proof (mi_next_page_id _ Hinv) as Hnext.
  mstep H. apply page_at_Ok in Hstep as [Hpg' ->].
  rewrite Hpg in Hpg'. injection Hpg' as <-.
  destruct (pin_count_ pg =? 0) eqn:Hz.
  { apply sret_Ok in H as [-> ->]. by apply step_ok_refl. }
  apply Z.eqb_neq in Hz.
  destruct s as [n ps pt fl r npid disk log].
  unfold frame, in_free_list, is_evictable in *. simpl in *.
  set (pg1 := if d then set_is_dirty true pg else pg).
  assert (Hs1 : ∃ s1, (s1 = mkBufferPoolManager n ps pt fl r npid disk log
                       ∨ s1 = mkBufferPoolManager n (<[Z.to_nat f := pg1]> ps)
                                pt fl r npid disk log)
                      ∧ frame s1 f = Some pg1
                      ∧ sbind (update_page f (λ p0, set_pin_count (pin_count_ p0 - 1) p0))
                          (λ _, do pg' <- page_at f;
                                when (pin_count_ pg' =? 0)
                                  (with_replacer (SetEvictable f true));; sret true)
                          s1 = Ok (res, s')).
  { mstep H. apply when_Ok in Hstep as [[-> Hup] | [-> ->]].
    - apply update_page_Ok in Hup as (pg2 & Hf2 & ->).
      unfold frame in Hf2. simpl in Hf2. rewrite Hpg in Hf2. injection Hf2 as <-.
      eexists. split; [right; reflexivity|]. split; [|exact H].
      unfold frame, with_frame. simpl. by rewrite (frame_of_insert_eq _ _ _ _ Hpg).
    - eexists. split; [left; reflexivity|]. split; [exact Hpg | exact H]. }
  clear H. destruct Hs1 as (s1 & Hs1 & Hf1 & H).
  mstep H. apply update_page_Ok in Hstep as (pg2 & Hf2 & ->).
  rewrite Hf1 in Hf2. injection Hf2 as <-.
  set (pg2 := set_pin_count (pin_count_ pg1 - 1) pg1) in *.
  assert (Hs2 : with_frame f pg2 s1
                = mkBufferPoolManager n (<[Z.to_nat f := pg2]> ps) pt fl r npid disk log).
  { destruct Hs1 as [-> | ->]; unfold with_frame, set_pages; simpl; [done|].
    by rewrite list_insert_insert_eq. }
  rewrite Hs2 in H. clear Hs2 Hs1 Hf1 s1.
  mstep H. apply page_at_Ok in Hstep as [Hf3 ->].
  unfold frame in Hf3. simpl in Hf3.
  rewrite (frame_of_insert_eq _ _ _ _ Hpg) in Hf3. injection Hf3 as <-.
  assert (Hpin2 : pin_count_ pg2 = pin_count_ pg - 1).
  { unfold pg2, pg1. by destruct d. }
  assert (Hid2 : page_id_ pg2 = page_id_ pg).
  { unfold pg2, pg1. by destruct d. }
  mstep H. apply sret_Ok in H as [-> ->].
  apply when_Ok in Hstep as [[Hz2 Hse] | [Hz2 ->]].
  - apply with_replacer_Ok in Hse as (r1 & [_ ->]%SetEvictable_Ok & ->).
    unfold set_replacer. simpl. apply Z.eqb_eq in Hz2.
    apply (step_ok_no_discard _ _ []); simpl.
    + eapply update_frame_inv; [exact Hinv | exact Hpg | done | | done | done | done | ].
      * intros g Hg. split; [simpl; set_solver | done].
      * apply frame_inv_used.
        -- done.
        -- by rewrite Hid2.
        -- rewrite Hpin2. lia.
        -- unfold is_evictable. cbn [replacer_ evictable_ set_evictable_].
           set_solver.
        -- exact Hhist.
    + lia.
    + by rewrite app_nil_r.
    + intros e g He. by apply elem_of_nil in He.
  - apply Z.eqb_neq in Hz2.
    apply (step_ok_no_discard _ _ []); simpl.
    + eapply update_frame_inv; [exact Hinv | exact Hpg | done | | done | done | done | ].
      * done.
      * apply frame_inv_used.
        -- done.
        -- by rewrite Hid2.
        -- rewrite Hpin2. lia.
        -- unfold is_evictable. cbn [replacer_].
           split; [|done]. intros He. apply Hev in He. lia.
        -- exact Hhist.
    + lia.
    + by rewrite app_nil_r.
    + intros e g He. by apply elem_of_nil in He.
Qed.

(** Clearing the dirty flag, or storing into the buffer, does not disturb
    the frame's part of the invariant. *)
Lemma frame_inv_same_pin s s' f pg pg' :
  frame_inv s f pg ->
  page_id_ pg' = page_id_ pg ->
  pin_count_ pg' = pin_count_ pg ->
  (is_dirty_ pg = false -> is_dirty_ pg' = false) ->
  free_list_ s' = free_list_ s ->
  replacer_ s' = replacer_ s ->
  frame_inv s' f pg'.
Proof.
  intros [H1 H2 H3 H4 H5 H6 H7 H8] Hid Hpin Hd Hfl Hr.
  unfold in_free_list, is_evictable in *.
  split; unfold in_free_list, is_evictable; rewrite ?Hfl, ?Hr, ?Hid, ?Hpin; auto.
Qed.

Lemma flush_entry_Ok p f s s' :
  manager_inv s -> page_table_ s !! p = Some f ->
  flush_entry (p, f) s = Ok (tt, s') ->
  manager_inv s'
  ∧ page_table_ s' = page_table_ s
  ∧ next_page_id_ s' = next_page_id_ s
  ∧ ∃ pg, frame s f = Some pg
        ∧ log_ s' = log_ s ++ [EvWritePage p (data_ pg)]
        ∧ disk_ s' = <[p := data_ pg]> (disk_ s)
        ∧ pages_ s' = <[Z.to_nat f := set_is_dirty false pg]> (pages_ s)
        ∧ free_list_ s' = free_list_ s
        ∧ replacer_ s' = replacer_ s
        ∧ pool_size_ s' = pool_size_ s.
Proof.
  intros Hinv Hpt H. unfold flush_entry in H. simpl in H.
  destruct (mi_page_table _ Hinv _ _ Hpt) as (Hnf & pg & Hpg & Hid).
  pose proof (mi_frames _ Hinv _ _ Hpg) as Hfi.
  mstep H. apply page_at_Ok in Hstep as [Hpg' ->].
  rewrite Hpg in Hpg'. injection Hpg' as <-.
  destruct s as [n ps pt fl r npid disk log].
  unfold frame in *. simpl in *.
  mstep H. unfold set_log, set_disk in H. simpl in H.
  apply update_page_Ok in H as (pg1 & Hf1 & ->).
  unfold frame in Hf1. simpl in Hf1. rewrite Hpg in Hf1. injection Hf1 as <-.
  unfold with_frame, set_pages. simpl.
  split; [|split; [done|split; [done|]]].
  - eapply update_frame_inv; [exact Hinv | exact Hpg | done | done | done | done | | ].
    + apply (mi_next_page_id _ Hinv).
    + eapply frame_inv_same_pin; [exact Hfi | done | done | done | done | done].
  - exists pg. done.
Qed.

Lemma FlushPage_step p s res s' :
  manager_inv s -> FlushPage p s = Ok (res, s') -> step_ok s s'.
Proof.
  intros Hinv H. unfold FlushPage in H. mstep H.
  destruct (page_table_ s !! p) as [f|] eqn:Hpt.
  2:{ apply sret_Ok in H as [-> ->]. by apply step_ok_refl. }
  assert (Hfe : ∃ s1, flush_entry (p, f) s = Ok (tt, s1) ∧ s' = s1).
  { mstep H. apply page_at_Ok in Hstep as [Hpg ->].
    mstep H. mstep H. apply sret_Ok in H as [-> <-].
    eexists. split; [|reflexivity].
    unfold flush_entry. cbn [fst snd]. unfold sbind at 1.
    rewrite (page_at_frame _ _ _ Hpg). exact Hstep. }
  destruct Hfe as (s1 & Hfe & ->).
  destruct (flush_entry_Ok _ _ _ _ Hinv Hpt Hfe)
    as (Hinv' & _ & Hn & pg & _ & Hlog & _).
  eapply step_ok_no_discard; [done | lia | exact Hlog |].
  intros e g ->%list_elem_of_singleton. simpl. tauto.
Qed.

Lemma for_each_flush_entry l s s' :
  manager_inv s ->
  (∀ e, e ∈ l -> page_table_ s !! e.1 = Some e.2) ->
  for_each l flush_entry s = Ok (tt, s') ->
  manager_inv s'
  ∧ next_page_id_ s' = next_page_id_ s
  ∧ ∃ evs, log_ s' = log_ s ++ evs ∧ ∀ e g, e ∈ evs -> ¬ overwrites g e.
Proof.
  revert s. induction l as [|[p f] l IH]; intros s Hinv Hl; simpl.
  - intros [= <-]. split; [done|]. split; [done|]. exists [].
    split; [by rewrite app_nil_r|]. intros e g He. by apply elem_of_nil in He.
  - intros ([] & s1 & Hfe & H)%sbind_Ok.
    destruct (flush_entry_Ok p f s s1 Hinv) as (Hinv1 & Hpt1 & Hn1 & pg & _ & Hlog1 & _);
      [apply (Hl (p, f)); left | done |].
    destruct (IH s1 Hinv1) as (Hinv' & Hn' & evs & Hlog' & Hno); [|done|].
    { intros e He. rewrite Hpt1. apply Hl. by right. }
    split; [done|]. split; [congruence|].
    exists (EvWritePage p (data_ pg) :: evs). split.
    + rewrite Hlog', Hlog1, <- app_assoc. done.
    + intros e g [-> | He]%elem_of_cons; [simpl; tauto | by apply Hno].
Qed.

Lemma FlushAllPages_step s s' :
  manager_inv s -> FlushAllPages s = Ok (tt, s') -> step_ok s s'.
Proof.
  intros Hinv H. unfold FlushAllPages in H. mstep H.
  destruct (for_each_flush_entry (map_to_list (page_table_ s)) s s' Hinv)
    as (Hinv' & Hn & evs & Hlog & Hno); [|exact H|].
  { intros [p f] He. by apply elem_of_map_to_list in He. }
  eapply step_ok_no_discard; [done | lia | exact Hlog | exact Hno].
Qed.

(* ===================================================================== *)
(** * DeletePage *)
(* ===================================================================== *)

Lemma DeletePage_not_resident p s :
  page_table_ s !! p = None -> DeletePage p s = Ok (true, s).
Proof. intros Hpt. unfold DeletePage, sbind, gets. by rewrite Hpt. Qed.

Lemma DeletePage_pinned p f pg s :
  page_table_ s !! p = Some f -> frame s f = Some pg -> 1 ≤ pin_count_ pg ->
  DeletePage p s = Ok (false, s).
Proof.
  intros Hpt Hpg Hpin. unfold DeletePage. unfold sbind at 1, gets. rewrite Hpt.
  unfold sbind at 1. rewrite (page_at_frame _ _ _ Hpg).
  by apply Z.leb_le in Hpin as ->.
Qed.

Lemma DeletePage_unpinned p f pg s :
  page_table_ s !! p = Some f -> frame s f = Some pg -> pin_count_ pg ≤ 0 ->
  DeletePage p s = Ok (true, deleted p f pg s).
Proof.
  intros Hpt Hpg Hpin. unfold DeletePage. unfold sbind at 1, gets. rewrite Hpt.
  unfold sbind at 1. rewrite (page_at_frame _ _ _ Hpg).
  assert ((1 <=? pin_count_ pg) = false) as -> by (apply Z.leb_gt; lia).
  destruct s as [n ps pt fl r npid disk log]. unfold frame in Hpg. simpl in *.
  unfold deleted. simpl.
  destruct (is_dirty_ pg) eqn:Hd.
  - unfold when, WritePage. unfold sbind, modify, emit, DeallocatePage, sret,
      ResetMemory, with_replacer, Remove. simpl.
    rewrite (update_page_frame _ _ _ pg) by done.
    unfold with_frame, set_pages, set_page_table, sbind. simpl.
    erewrite update_page_frame
      by (unfold frame; simpl; by rewrite (frame_of_insert_eq _ _ _ _ Hpg)).
    unfold with_frame, set_pages. simpl. rewrite list_insert_insert_eq.
    case_bool_decide; simpl; by rewrite <- app_assoc.
  - unfold when. unfold sbind, modify, emit, DeallocatePage, sret,
      ResetMemory, with_replacer, Remove. unfold sbind. simpl.
    rewrite (update_page_frame _ _ _ pg) by done.
    unfold with_frame, set_pages. simpl.
    unfold set_data. simpl. rewrite Hd.
    case_bool_decide; simpl; done.
Qed.

Lemma DeletePage_step p s res s' :
  manager_inv s -> DeletePage p s = Ok (res, s') -> step_ok s s'.
Proof.
  intros Hinv H.
  destruct (page_table_ s !! p) as [f|] eqn:Hpt.
  2:{ rewrite (DeletePage_not_resident _ _ Hpt) in H. injection H as <- <-.
      by apply step_ok_refl. }
  destruct (mi_page_table _ Hinv _ _ Hpt) as (Hnf & pg & Hpg & Hid).
  pose proof (mi_frames _ Hinv _ _ Hpg) as Hfi.
  pose proof (fi_used_pin _ _ _ Hfi Hnf) as Hpin.
  pose proof (fi_used_evictable _ _ _ Hfi Hnf) as Hev.
  pose proof (fi_used_id _ _ _ Hfi Hnf) as Hpid.
  destruct (decide (1 ≤ pin_count_ pg)) as [Hge|Hlt].
  { rewrite (DeletePage_pinned _ _ _ _ Hpt Hpg Hge) in H. injection H as <- <-.
    by apply step_ok_refl. }
  rewrite (DeletePage_unpinned _ _ _ _ Hpt Hpg) in H by lia.
  injection H as <- <-.
  assert (Hpin0 : pin_count_ pg = 0) by lia.
  assert (Hevf : f ∈ evictable_ (replacer_ s)) by (by apply Hev).
  destruct Hinv as [H1 H2 H3 H4 H5 H6 H7 H8 H9].
  pose proof (frame_of_Some_range _ _ _ Hpg) as Hrange.
  unfold deleted. rewrite (bool_decide_eq_true_2 _ Hevf).
  unfold in_free_list, is_evictable in *.
  split; [split|simpl; lia|]; simpl.
  - done.
  - by rewrite length_insert.
  - done.
  - apply NoDup_app. split; [done|]. split; [|apply NoDup_singleton].
    intros g Hg ->%list_elem_of_singleton. contradiction.
  - unfold in_free_list. simpl.
    intros g [Hg | ->%list_elem_of_singleton]%elem_of_app; [by apply H5 | lia].
  - done.
  - done.
  - intros g pg0. unfold frame. simpl. rewrite (frame_of_insert _ _ _ _ _ Hpg).
    case_decide as Hfg.
    + subst g. intros [= <-]. apply frame_inv_free; simpl.
      * unfold in_free_list. simpl. set_solver.
      * done.
      * done.
      * rewrite history_set_history. by case_decide.
      * unfold is_evictable. simpl. split; [intros _; exact Hpid | intros _; exact Hevf].
    + intros Hg. apply (frame_inv_ext s).
      * by apply H8.
      * unfold in_free_list. simpl. set_solver.
      * done.
      * simpl. rewrite history_set_history. by case_decide.
      * done.
  - intros q g [Hq Hqg]%lookup_delete_Some.
    destruct (H9 _ _ Hqg) as (Hgnf & pg0 & Hpg0 & Hq0).
    assert (g ≠ f).
    { intros ->. rewrite Hpg in Hpg0. congruence. }
    split.
    + unfold in_free_list. simpl. set_solver.
    + exists pg0. split; [|done]. unfold frame. simpl.
      rewrite (frame_of_insert _ _ _ _ _ Hpg). by case_decide.
  - eexists. split; [reflexivity|].
    apply (written_back_first_head _ f).
    + intros e g He Hov. destruct (is_dirty_ pg); simpl in He.
      * apply elem_of_cons in He as [-> | He]; [done|].
        apply list_elem_of_singleton in He as ->. done.
      * apply list_elem_of_singleton in He as ->. done.
    + intros pg0 Hpg0 Hd. rewrite Hpg in Hpg0. injection Hpg0 as <-.
      rewrite Hd, Hid. simpl. eauto.
Qed.

Lemma OWriteData_step f d s res s' :
  manager_inv s ->
  perform (OWriteData f d) s = Ok (res, s') -> step_ok s s'.
Proof.
  intros Hinv H. simpl in H. mstep H. apply sret_Ok in H as [-> ->].
  apply update_page_Ok in Hstep as (pg & Hpg & ->).
  pose proof (mi_frames _ Hinv _ _ Hpg) as Hfi.
  destruct s as [n ps pt fl r npid disk log]. unfold frame in *. simpl in *.
  unfold with_frame, set_pages. simpl.
  apply (step_ok_no_discard _ _ []); simpl.
  - eapply update_frame_inv; [exact Hinv | exact Hpg | done | done | done | done | | ].
    + apply (mi_next_page_id _ Hinv).
    + eapply frame_inv_same_pin; [exact Hfi | done | done | done | done | done].
  - lia.
  - by rewrite app_nil_r.
  - intros e g He. by apply elem_of_nil in He.
Qed.

(** Every call keeps the invariant, never lowers the page-id counter, and
    writes a dirty frame back before it overwrites it. *)
Lemma perform_step o s res s' :
  manager_inv s -> valid_operation o ->
  perform o s = Ok (res, s') -> step_ok s s'.
Proof.
  intros Hinv Hvalid H. destruct o as [|p|p d|p| |p|f d].
  - simpl in H. mstep H. apply sret_Ok in H as [-> ->].
    by apply NewPage_step in Hstep as [? _].
  - simpl in H. mstep H. apply sret_Ok in H as [-> ->].
    by eapply FetchPage_step.
  - simpl in H. mstep H. apply sret_Ok in H as [-> ->].
    by eapply UnpinPage_step.
  - simpl in H. mstep H. apply sret_Ok in H as [-> ->].
    by eapply FlushPage_step.
  - simpl in H. mstep H. apply sret_Ok in H as [-> ->].
    by eapply FlushAllPages_step.
  - simpl in H. mstep H. apply sret_Ok in H as [-> ->].
    by eapply DeletePage_step.
  - by eapply OWriteData_step.
Qed.

Lemma manager_inv_new pool_size disk k :
  0 ≤ pool_size -> manager_inv (BufferPoolManager_new pool_size disk k).
Proof.
  intros Hn. unfold BufferPoolManager_new.
  assert (Hfl : ∀ f, f ∈ (Z.of_nat <$> seq 0 (Z.to_nat pool_size))
                     <-> 0 ≤ f < pool_size).
  { intros f. rewrite list_elem_of_fmap. split.
    - intros (i & -> & Hi%elem_of_seq). lia.
    - intros Hf. exists (Z.to_nat f). split; [lia|]. apply elem_of_seq. lia. }
  split; simpl.
  - done.
  - rewrite length_replicate. lia.
  - done.
  - apply NoDup_fmap_2; [apply _ | apply NoDup_seq].
  - unfold in_free_list. simpl. intros f. apply Hfl.
  - unfold is_evictable. simpl. intros f Hf. by apply not_elem_of_empty in Hf.
  - lia.
  - intros f pg. unfold frame, frame_of. simpl.
    destruct (f <? 0) eqn:E; [discriminate|]. apply Z.ltb_ge in E.
    intros [-> Hlt]%lookup_replicate.
    apply frame_inv_free; simpl.
    + unfold in_free_list. simpl. apply Hfl. lia.
    + done.
    + done.
    + unfold history_. simpl. by rewrite lookup_empty.
    + unfold is_evictable. simpl. split; [|done].
      intros Hf. by apply not_elem_of_empty in Hf.
  - intros p f. by rewrite lookup_empty.
Qed.

Lemma reachable_inv pool_size disk k s :
  0 ≤ pool_size -> reachable pool_size disk k s -> manager_inv s.
Proof.
  intros Hn. induction 1 as [|s o r s' _ IH Hvalid Hstep].
  - by apply manager_inv_new.
  - by apply (so_inv _ _ (perform_step _ _ _ _ IH Hvalid Hstep)).
Qed.

Lemma run_reachable pool_size disk k ops s rs s' :
  reachable pool_size disk k s ->
  Forall valid_operation ops ->
  run ops s = Ok (rs, s') ->
  reachable pool_size disk k s'.
Proof.
  revert s rs. induction ops as [|o ops IH]; intros s rs Hr Hv; simpl.
  - by intros [= _ <-].
  - apply Forall_cons in Hv as [Ho Hv].
    intros (r & s1 & Hstep & H)%sbind_Ok.
    apply sbind_Ok in H as (rs' & s2 & Hrun & [= _ <-]).
    apply (IH s1 rs'); [|done|done]. by eapply reachable_step.
Qed.

Lemma state_after_reachable pool_size disk k ops :
  Forall valid_operation ops ->
  succeeds (run ops (BufferPoolManager_new pool_size disk k)) = true ->
  reachable pool_size disk k
    (state_after ops (BufferPoolManager_new pool_size disk k)).
Proof.
  intros Hv Hok. unfold state_after.
  destruct (run ops _) as [[rs s']|] eqn:Hrun; [|discriminate].
  eapply run_reachable; [apply reachable_new | done | done].
Qed.

(* ===================================================================== *)
(** * Example states *)
(* ===================================================================== *)

Lemma pool_after_delete_reachable : reachable 2 ∅ 2 pool_after_delete.
Proof.
  apply state_after_reachable.
  - repeat constructor.
  - vm_compute. reflexivity.
Qed.


(* ===================================================================== *)
(** * Frames on the free list *)
(* ===================================================================== *)

(** What does hold of a frame on the free list in every state between two
    calls: it is unpinned and clean and has no recorded access. *)
Lemma free_frame_clean pool_size disk k s f pg :
  0 ≤ pool_size ->
  reachable pool_size disk k s ->
  in_free_list s f -> frame s f = Some pg ->
  pin_count_ pg = 0 ∧ is_dirty_ pg = false ∧ history_ (replacer_ s) f = [].
Proof.
  intros Hn Hreach Hfree Hpg.
  pose proof (reachable_inv _ _ _ _ Hn Hreach) as Hinv.
  destruct (mi_frames _ Hinv _ _ Hpg) as [H1 H2 H3 _ _ _ _ _]. auto.
Qed.

(** [DeletePage] pushes the frame onto the free list with the page id it
    held. *)
Lemma deleted_keeps_page_id p f pg s :
  frame s f = Some pg ->
  in_free_list (deleted p f pg s) f
  ∧ page_id_ <$> frame (deleted p f pg s) f = Some (page_id_ pg).
Proof.
  intros Hpg. split.
  - unfold in_free_list, deleted. simpl. set_solver.
  - unfold frame, deleted in *. simpl.
    by rewrite (frame_of_insert_eq _ _ _ _ Hpg).
Qed.

(** C3, at the failing input.  After [NewPage] (page 0 in frame 0),
    [UnpinPage 0] and [DeletePage 0], all successful, frame 0 is on the
    free list, clean and without recorded access, but its page id is
    still 0 and not [INVALID_PAGE_ID]. *)
Theorem free_frame_keeps_page_id_after_delete :
  run [ONewPage; OUnpinPage 0 false; ODeletePage 0]
      (BufferPoolManager_new 2 ∅ 2)
  = Ok ([RNewPage (Some (0, 0)); RBool true; RBool true], pool_after_delete)
  ∧ free_list_ pool_after_delete = [1; 0]
  ∧ frame pool_after_delete 0
    = Some (mkPage zero_page 0 0 false (mkLatch 0 false))
  ∧ history_ (replacer_ pool_after_delete) 0 = []
  ∧ (0 ≠ INVALID_PAGE_ID).
Proof.
  split; [vm_compute; reflexivity|].
  split; [vm_compute; reflexivity|].
  split; [vm_compute; reflexivity|].
  split; [vm_compute; reflexivity|].
  unfold INVALID_PAGE_ID. lia.
Qed.

Lemma pool_with_dirty_page_reachable : reachable 1 ∅ 2 pool_with_dirty_page.
Proof.
  apply state_after_reachable.
  - repeat constructor.
  - vm_compute. reflexivity.
Qed.


(** C6.  [DeletePage p] returns true and changes nothing when [p] is not
    resident; returns false and changes nothing (frames, page table, free
    list, replacer, disk, log) when [p] is resident and pinned; and when
    [p] is resident in frame [f] with pin count 0 it returns true, having
    written the page back if it was dirty, removed the page-table entry
    and appended [f] to the free list. *)
Theorem DeletePage_cases s p :
  (page_table_ s !! p = None -> DeletePage p s = Ok (true, s))
  ∧ (∀ f pg, page_table_ s !! p = Some f -> frame s f = Some pg ->
       1 ≤ pin_count_ pg -> DeletePage p s = Ok (false, s))
  ∧ (∀ f pg, page_table_ s !! p = Some f -> frame s f = Some pg ->
       pin_count_ pg = 0 ->
       ∃ s', DeletePage p s = Ok (true, s')
           ∧ page_table_ s' = delete p (page_table_ s)
           ∧ free_list_ s' = free_list_ s ++ [f]
           ∧ (if is_dirty_ pg
              then disk_ s' = <[p := data_ pg]> (disk_ s)
                   ∧ log_ s' = log_ s ++ [EvWritePage p (data_ pg);
                                          EvResetMemory f]
              else disk_ s' = disk_ s
                   ∧ log_ s' = log_ s ++ [EvResetMemory f])).
Proof.
  split; [apply DeletePage_not_resident|].
  split; [intros f pg; apply DeletePage_pinned|].
  intros f pg Hpt Hpg Hpin. exists (deleted p f pg s).
  split; [apply DeletePage_unpinned; [done | done | lia]|].
  unfold deleted. simpl. split; [done|]. split; [done|].
  by destruct (is_dirty_ pg).
Qed.

Lemma DeletePage_cases_witness :
  DeletePage 7 exhausted_pool = Ok (true, exhausted_pool)
  ∧ DeletePage 0 exhausted_pool = Ok (false, exhausted_pool)
  ∧ ∃ s', DeletePage 0 pool_with_dirty_page = Ok (true, s')
        ∧ page_table_ s' = delete 0 (page_table_ pool_with_dirty_page)
        ∧ free_list_ s' = free_list_ pool_with_dirty_page ++ [0]
        ∧ disk_ s' = <[0 := [Byte.x2a]]> (disk_ pool_with_dirty_page)
        ∧ log_ s' = log_ pool_with_dirty_page
                    ++ [EvWritePage 0 [Byte.x2a]; EvResetMemory 0].
Proof.
  split; [|split].
  - apply (DeletePage_cases exhausted_pool 7). vm_compute. reflexivity.
  - apply (proj1 (proj2 (DeletePage_cases exhausted_pool 0)) 0
             (mkPage zero_page 0 1 false (mkLatch 0 false)));
      [vm_compute; reflexivity | vm_compute; reflexivity | simpl; lia].
  - apply (proj2 (proj2 (DeletePage_cases pool_with_dirty_page 0)) 0
             (mkPage [Byte.x2a] 0 0 true (mkLatch 0 false)));
      [vm_compute; reflexivity | vm_compute; reflexivity | reflexivity].
Defined.

(* ===================================================================== *)
(** * FlushPage *)
(* ===================================================================== *)

Lemma FlushPage_resident p f pg s :
  page_table_ s !! p = Some f -> frame s f = Some pg ->
  FlushPage p s
  = Ok (true,
        mkBufferPoolManager (pool_size_ s)
          (<[Z.to_nat f := set_is_dirty false pg]> (pages_ s))
          (page_table_ s) (free_list_ s) (replacer_ s) (next_page_id_ s)
          (<[p := data_ pg]> (disk_ s))
          (log_ s ++ [EvWritePage p (data_ pg)])).
Proof.
  intros Hpt Hpg. unfold FlushPage. unfold sbind at 1, gets. rewrite Hpt.
  unfold sbind at 1. rewrite (page_at_frame _ _ _ Hpg).
  unfold WritePage, emit, sbind, modify, sret. cbn beta iota.
  rewrite (update_page_frame _ _ _ pg) by done.
  done.
Qed.

(** C8.  For a resident page, a second [FlushPage] right after the first
    leaves the disk as the first left it; the first call has cleared the
    dirty flag, and the second changes neither it nor anything else of the
    frames, the page table, the free list or the replacer. *)
Theorem FlushPage_twice s p f pg :
  page_table_ s !! p = Some f ->
  frame s f = Some pg ->
  ∃ s1 s2,
    FlushPage p s = Ok (true, s1)
    ∧ FlushPage p s1 = Ok (true, s2)
    ∧ disk_ s2 = disk_ s1
    ∧ is_dirty_ <$> frame s1 f = Some false
    ∧ pages_ s2 = pages_ s1
    ∧ page_table_ s2 = page_table_ s1
    ∧ free_list_ s2 = free_list_ s1
    ∧ replacer_ s2 = replacer_ s1
    ∧ next_page_id_ s2 = next_page_id_ s1.
Proof.
  intros Hpt Hpg. eexists. eexists.
  split; [apply (FlushPage_resident _ _ _ _ Hpt Hpg)|].
  assert (Hpg1 : frame_of (<[Z.to_nat f := set_is_dirty false pg]> (pages_ s)) f
                 = Some (set_is_dirty false pg)).
  { by rewrite (frame_of_insert_eq _ _ _ _ Hpg). }
  split; [apply FlushPage_resident; [exact Hpt | exact Hpg1]|].
  simpl. split; [by rewrite insert_insert_eq|].
  split; [unfold frame; simpl; by rewrite Hpg1|].
  split; [by rewrite list_insert_insert_eq|]. done.
Qed.

Lemma FlushPage_twice_witness :
  ∃ s1 s2,
    FlushPage 0 pool_with_dirty_page = Ok (true, s1)
    ∧ FlushPage 0 s1 = Ok (true, s2)
    ∧ disk_ s2 = disk_ s1
    ∧ is_dirty_ <$> frame s1 0 = Some false
    ∧ pages_ s2 = pages_ s1
    ∧ page_table_ s2 = page_table_ s1
    ∧ free_list_ s2 = free_list_ s1
    ∧ replacer_ s2 = replacer_ s1
    ∧ next_page_id_ s2 = next_page_id_ s1.
Proof.
  apply (FlushPage_twice pool_with_dirty_page 0 0
           (mkPage [Byte.x2a] 0 0 true (mkLatch 0 false)));
    vm_compute; reflexivity.
Defined.

(* ===================================================================== *)
(** * Guards *)
(* ===================================================================== *)

(** When [FetchPage] returns null, [FetchPageBasic] returns an empty guard
    whose [Drop] does nothing, while [FetchPageRead] and [FetchPageWrite]
    call [RLatch] and [WLatch] through the null pointer. *)
Lemma Fetch_guards_on_null p s s' :
  FetchPage p s = Ok (None, s') ->
  FetchPageBasic p s = Ok (BasicPageGuard_new None, s')
  ∧ BasicPageGuard_Drop (BasicPageGuard_new None) s'
    = Ok (BasicPageGuard_new None, s')
  ∧ FetchPageRead p s = Fail NullPointer
  ∧ FetchPageWrite p s = Fail NullPointer.
Proof.
  intros H. unfold FetchPageBasic, FetchPageRead, FetchPageWrite, sbind.
  rewrite H. done.
Qed.

(** C2, at the failing input.  In a pool of one frame whose frame is
    pinned, [FetchPage 1] returns null; [FetchPageBasic 1] returns an empty
    guard, but [FetchPageRead 1] and [FetchPageWrite 1] dereference the
    null page pointer. *)
Theorem guarded_fetch_on_exhausted_pool :
  FetchPage 1 exhausted_pool = Ok (None, exhausted_pool)
  ∧ FetchPageBasic 1 exhausted_pool = Ok (BasicPageGuard_new None, exhausted_pool)
  ∧ FetchPageRead 1 exhausted_pool = Fail NullPointer
  ∧ FetchPageWrite 1 exhausted_pool = Fail NullPointer.
Proof.
  assert (H : FetchPage 1 exhausted_pool = Ok (None, exhausted_pool))
    by (vm_compute; reflexivity).
  destruct (Fetch_guards_on_null _ _ _ H) as (H1 & _ & H2 & H3). auto.
Qed.

(** C7, at the failing input.  Two read guards hold pages 0 and 1 (frames
    0 and 1), each with a pin and a shared latch.  Move-assigning the second
    into the first unpins page 0 and leaves the source empty, but the
    shared latch of frame 0 is still held afterwards; [Drop] on the same
    guard releases it.  The write guards behave alike. *)
Theorem guard_assignment_keeps_latch :
  (∃ s', read_guard_assignment pool_of_two_pages
         = Ok ((mkReadPageGuard (mkBasicPageGuard true (Some 1) false),
                mkReadPageGuard (mkBasicPageGuard true None false)), s')
       ∧ pin_count_ <$> frame s' 0 = Some 0
       ∧ latch_of s' 0 = Some (mkLatch 1 false))
  ∧ (∃ s', read_guard_drop pool_of_two_pages
           = Ok (mkReadPageGuard (mkBasicPageGuard true None false), s')
         ∧ pin_count_ <$> frame s' 0 = Some 0
         ∧ latch_of s' 0 = Some (mkLatch 0 false))
  ∧ (∃ s', write_guard_assignment pool_of_two_pages
           = Ok ((mkWritePageGuard (mkBasicPageGuard true (Some 1) false),
                  mkWritePageGuard (mkBasicPageGuard true None false)), s')
         ∧ pin_count_ <$> frame s' 0 = Some 0
         ∧ latch_of s' 0 = Some (mkLatch 0 true)).
Proof.
  split; [|split]; eexists; (split; [vm_compute; reflexivity|]);
    split; vm_compute; reflexivity.
Qed.

(* ===================================================================== *)
(** * What a computation leaves alone *)
(* ===================================================================== *)

Section Preserves.
Context (R : relation BufferPoolManager) `{!PreOrder R}.

Lemma preserves_sret {A} (a : A) : preserves R (sret a).
Proof. intros s b s' [= _ <-]. reflexivity. Qed.

Lemma preserves_sfail {A} e : preserves R (@sfail _ A e).
Proof. intros s b s' [=]. Qed.

Lemma preserves_gets {A} (f : BufferPoolManager -> A) : preserves R (gets f).
Proof. intros s b s' [= _ <-]. reflexivity. Qed.

Lemma preserves_lift_outcome {A} (o : outcome A) : preserves R (lift_outcome o).
Proof. intros s b s'. unfold lift_outcome. destruct o; intros [= _ <-]. reflexivity. Qed.

Lemma preserves_page_at f : preserves R (page_at f).
Proof. intros s b s' [_ ->]%page_at_Ok. reflexivity. Qed.

Lemma preserves_sbind {A B} (m : St BufferPoolManager A)
    (k : A -> St BufferPoolManager B) :
  preserves R m -> (∀ a, preserves R (k a)) -> preserves R (sbind m k).
Proof.
  intros Hm Hk s b s' (a & s1 & H1 & H2)%sbind_Ok.
  transitivity s1; [by eapply Hm | by eapply Hk].
Qed.

Lemma preserves_when b (m : St BufferPoolManager unit) :
  preserves R m -> preserves R (when b m).
Proof. intros Hm. destruct b; [done | apply preserves_sret]. Qed.

Lemma preserves_for_each {A} (l : list A) (body : A -> St BufferPoolManager unit) :
  (∀ x, preserves R (body x)) -> preserves R (for_each l body).
Proof.
  intros Hbody. induction l as [|x l IH]; simpl.
  - apply preserves_sret.
  - apply preserves_sbind; try apply _; [apply Hbody | intros _; apply IH].
Qed.

Lemma preserves_modify (f : BufferPoolManager -> BufferPoolManager) :
  (∀ s, R s (f s)) -> preserves R (modify f).
Proof. intros Hf s b s' ->%modify_Ok. apply Hf. Qed.

Lemma preserves_with_replacer {A} (m : St LRUKReplacer A) :
  (∀ s r, R s (set_replacer r s)) -> preserves R (with_replacer m).
Proof. intros Hr s b s' (r' & _ & ->)%with_replacer_Ok. apply Hr. Qed.

Lemma preserves_update_page f (g : Page -> Page) :
  (∀ s pg, frame s f = Some pg -> R s (with_frame f (g pg) s)) ->
  preserves R (update_page f g).
Proof. intros Hg s b s' (pg & Hpg & ->)%update_page_Ok. by apply Hg. Qed.
End Preserves.

#[local] Instance same_next_page_id_preorder : PreOrder same_next_page_id.
Proof.
  split; [by intros s | intros s1 s2 s3 H1 H2].
  unfold same_next_page_id in *. congruence.
Qed.

#[local] Instance same_latches_preorder : PreOrder same_latches.
Proof.
  split; [by intros s f | intros s1 s2 s3 H1 H2 f].
  unfold same_latches in *. by rewrite H2, H1.
Qed.

(** Break a goal [preserves R m] down along the structure of [m]; what is
    left are the stores into the state. *)
Ltac preserves_step :=
  lazymatch goal with
  | |- preserves _ (sret _) => apply preserves_sret; apply _
  | |- preserves _ (sfail _) => apply preserves_sfail
  | |- preserves _ (gets _) => apply preserves_gets; apply _
  | |- preserves _ (lift_outcome _) => apply preserves_lift_outcome; apply _
  | |- preserves _ (page_at _) => apply preserves_page_at; apply _
  | |- preserves _ (when _ _) => apply preserves_when; try apply _
  | |- preserves _ (for_each _ _) =>
      apply preserves_for_each; try apply _; intros ?
  | |- preserves _ (sbind _ _) =>
      apply preserves_sbind; try apply _; [|intros ?]
  | |- preserves _ (match ?x with _ => _ end) => destruct x
  end.

Ltac preserves_tac := repeat preserves_step.

(** A relation that no store into the frames, the page table, the free
    list, the replacer, the disk or the log breaks is kept by every
    operation that does not allocate a page id. *)
Section Untouched.
Context (R : relation BufferPoolManager) `{!PreOrder R}.
Hypothesis R_pages : ∀ s ps, R s (set_pages ps s).
Hypothesis R_page_table : ∀ s pt, R s (set_page_table pt s).
Hypothesis R_free_list : ∀ s fl, R s (set_free_list fl s).
Hypothesis R_replacer : ∀ s r, R s (set_replacer r s).
Hypothesis R_disk : ∀ s d, R s (set_disk d s).
Hypothesis R_log : ∀ s l, R s (set_log l s).

Lemma untouched_with_replacer {A} (m : St LRUKReplacer A) :
  preserves R (with_replacer m).
Proof. apply preserves_with_replacer. apply R_replacer. Qed.

Lemma untouched_update_page f g : preserves R (update_page f g).
Proof. apply preserves_update_page. intros s pg _. apply R_pages. Qed.

Lemma untouched_emit e : preserves R (emit e).
Proof. apply preserves_modify. intros s. apply R_log. Qed.

Lemma untouched_WritePage p d : preserves R (WritePage p d).
Proof.
  apply preserves_sbind; try apply _.
  - apply preserves_modify. intros s. apply R_disk.
  - intros _. apply untouched_emit.
Qed.

Lemma untouched_ResetMemory f : preserves R (ResetMemory f).
Proof.
  apply preserves_sbind; try apply _; [apply untouched_update_page|].
  intros _. apply untouched_emit.
Qed.

Lemma untouched_ReadPage p f : preserves R (ReadPage p f).
Proof.
  unfold ReadPage. preserves_tac.
  - apply untouched_update_page.
  - apply untouched_emit.
Qed.

Ltac untouched_tac :=
  preserves_tac;
  first [ apply untouched_with_replacer
        | apply untouched_update_page
        | apply untouched_emit
        | apply untouched_WritePage
        | apply untouched_ResetMemory
        | apply untouched_ReadPage
        | apply preserves_modify; intros ?;
          first [ apply R_page_table | apply R_free_list ] ].

Lemma untouched_FindAndEvictFrame : preserves R FindAndEvictFrame.
Proof. unfold FindAndEvictFrame. untouched_tac. Qed.

Lemma untouched_FetchPage p : preserves R (FetchPage p).
Proof.
  unfold FetchPage.
  apply preserves_sbind; try apply _; [apply preserves_gets; apply _ | intros pt].
  apply preserves_sbind; try apply _; [ | intros entry].
  - destruct (pt !! p); [apply preserves_sret; apply _|].
    apply preserves_sbind; try apply _; [apply untouched_FindAndEvictFrame |].
    intros found. untouched_tac.
  - untouched_tac.
Qed.

Lemma untouched_UnpinPage p d : preserves R (UnpinPage p d).
Proof. unfold UnpinPage. untouched_tac. Qed.

Lemma untouched_FlushPage p : preserves R (FlushPage p).
Proof. unfold FlushPage. untouched_tac. Qed.

Lemma untouched_FlushAllPages : preserves R FlushAllPages.
Proof. unfold FlushAllPages, flush_entry. untouched_tac. Qed.

Lemma untouched_DeletePage p : preserves R (DeletePage p).
Proof. unfold DeletePage, DeallocatePage. untouched_tac. Qed.

(** What follows [AllocatePage] in [NewPage]. *)
Lemma untouched_NewPage_install f n :
  preserves R
    (update_page f (set_page_id n) ;;
     update_page f (set_pin_count 1) ;;
     modify (λ s, set_page_table (<[n := f]> (page_table_ s)) s) ;;
     ResetMemory f ;;
     sret (Some (n, f))).
Proof. untouched_tac. Qed.

Lemma untouched_NewPage :
  (∀ s n, R s (set_next_page_id n s)) -> preserves R NewPage.
Proof.
  intros R_next. unfold NewPage.
  apply preserves_sbind; try apply _; [apply untouched_FindAndEvictFrame|].
  intros [f|]; [|apply preserves_sret; apply _].
  apply preserves_sbind; try apply _; [apply untouched_with_replacer|intros _].
  apply preserves_sbind; try apply _; [apply untouched_with_replacer|intros _].
  apply preserves_sbind; try apply _; [|intros n; apply untouched_NewPage_install].
  unfold AllocatePage. preserves_tac. apply preserves_modify. intros s. apply R_next.
Qed.
End Untouched.

(** [NewPage] returns the counter and advances it by one, or fails to
    find a frame and leaves it alone. *)
Lemma NewPage_next_page_id s res s' :
  NewPage s = Ok (res, s') ->
  match res with
  | Some (p, _) => p = next_page_id_ s ∧ next_page_id_ s' = p + 1
  | None => next_page_id_ s' = next_page_id_ s
  end.
Proof.
  unfold NewPage. intros (found & s1 & Hfind & H)%sbind_Ok.
  apply (untouched_FindAndEvictFrame same_next_page_id) in Hfind; try done.
  unfold same_next_page_id in Hfind.
  destruct found as [f|].
  - apply sbind_Ok in H as (? & s2 & H2 & H).
    apply (untouched_with_replacer same_next_page_id) in H2; [|done].
    apply sbind_Ok in H as (? & s3 & H3 & H).
    apply (untouched_with_replacer same_next_page_id) in H3; [|done].
    apply sbind_Ok in H as (n & s4 & [-> ->]%AllocatePage_Ok & H).
    assert (res = Some (next_page_id_ s3, f)) as ->.
    { repeat (apply sbind_Ok in H as (? & ? & _ & H)).
      by apply sret_Ok in H as [-> _]. }
    apply (untouched_NewPage_install same_next_page_id) in H; try done.
    unfold same_next_page_id in *. simpl in H. split; [congruence | lia].
  - apply sret_Ok in H as [-> ->]. exact Hfind.
Qed.

Lemma perform_next_page_id o s r s' :
  perform o s = Ok (r, s') ->
  match r with
  | RNewPage (Some (p, _)) => p = next_page_id_ s ∧ next_page_id_ s' = p + 1
  | _ => next_page_id_ s' = next_page_id_ s
  end.
Proof.
  destruct o as [|p|p d|p| |p|f d]; simpl;
    intros (a & s1 & H & [-> ->]%sret_Ok)%sbind_Ok.
  - apply NewPage_next_page_id in H. by destruct a as [[? ?]|].
  - by apply (untouched_FetchPage same_next_page_id) in H.
  - by apply (untouched_UnpinPage same_next_page_id) in H.
  - by apply (untouched_FlushPage same_next_page_id) in H.
  - by apply (untouched_FlushAllPages same_next_page_id) in H.
  - by apply (untouched_DeletePage same_next_page_id) in H.
  - by apply (untouched_update_page same_next_page_id) in H.
Qed.

#[local] Instance same_pool_size_preorder : PreOrder same_pool_size.
Proof.
  split; [by intros s | intros s1 s2 s3 H1 H2].
  unfold same_pool_size in *. congruence.
Qed.

Lemma perform_pool_size o s r s' :
  perform o s = Ok (r, s') -> pool_size_ s' = pool_size_ s.
Proof.
  destruct o as [|p|p d|p| |p|f d]; simpl;
    intros (a & s1 & H & [-> ->]%sret_Ok)%sbind_Ok.
  - by apply (untouched_NewPage same_pool_size) in H.
  - by apply (untouched_FetchPage same_pool_size) in H.
  - by apply (untouched_UnpinPage same_pool_size) in H.
  - by apply (untouched_FlushPage same_pool_size) in H.
  - by apply (untouched_FlushAllPages same_pool_size) in H.
  - by apply (untouched_DeletePage same_pool_size) in H.
  - by apply (untouched_update_page same_pool_size) in H.
Qed.

Lemma reachable_pool_size pool_size disk k s :
  reachable pool_size disk k s -> pool_size_ s = pool_size.
Proof.
  induction 1 as [|s o r s' _ IH _ Hstep]; [done|].
  rewrite <- IH. by eapply perform_pool_size.
Qed.

(* ===================================================================== *)
(** * More about the replacer *)
(* ===================================================================== *)

(** X1.  [Evict] returns whenever every evictable frame has a recorded
    access: it then has a result, a victim or none, whatever the
    histories and the counter hold. *)
Theorem Evict_returns_when_accessed r :
  (∀ f, f ∈ evictable_ r -> history_ r f ≠ []) ->
  ∃ res r', Evict r = Ok (res, r').
Proof.
  intros Hne. destruct (Evict_total r Hne) as [[res r'] H]. eauto.
Qed.

Lemma Evict_returns_when_accessed_witness :
  ∃ res r', Evict replacer_example = Ok (res, r').
Proof.
  apply (Evict_returns_when_accessed replacer_example).
  intros f Hf. simpl in Hf.
  apply elem_of_union in Hf as [->%elem_of_singleton | ->%elem_of_singleton];
    vm_compute; discriminate.
Defined.

(** X2.  [Remove] of an evictable frame clears its history but leaves it
    in the evictable set: [Size] is unchanged and no other history is
    touched. *)
Theorem Remove_keeps_frame_evictable r f :
  f ∈ evictable_ r ->
  ∃ r', Remove f r = Ok (tt, r')
      ∧ evictable_ r' = evictable_ r
      ∧ Size r' = Size r
      ∧ history_ r' f = []
      ∧ (∀ g, g ≠ f -> history_ r' g = history_ r g).
Proof.
  intros Hf. exists (set_history f [] r). unfold Remove.
  rewrite (bool_decide_eq_true_2 _ Hf).
  assert (Hnil : history_ (set_history f [] r) f = []).
  { rewrite history_set_history. by case_decide. }
  split; [done|]. split; [done|]. split; [done|]. split; [done|].
  intros g Hg. rewrite history_set_history. case_decide; congruence.
Qed.

Lemma Remove_keeps_frame_evictable_witness :
  ∃ r', Remove 0 replacer_example = Ok (tt, r')
      ∧ evictable_ r' = evictable_ replacer_example
      ∧ Size r' = Size replacer_example
      ∧ history_ r' 0 = []
      ∧ (∀ g, g ≠ 0 -> history_ r' g = history_ replacer_example g).
Proof.
  apply (Remove_keeps_frame_evictable replacer_example 0).
  vm_compute. set_solver.
Defined.

(** X3.  [Evict] only ever returns a frame that was evictable, and then
    [Size] drops by one; it returns none only when [Size] is 0, and then
    the replacer is unchanged. *)
Theorem Evict_Size r res r' :
  Evict r = Ok (res, r') ->
  match res with
  | Some v => v ∈ evictable_ r ∧ r' = evicted v r ∧ Size r' = Size r - 1
  | None => Size r = 0 ∧ r' = r
  end.
Proof.
  intros H. destruct res as [v|].
  - apply Evict_Some in H as [Hv ->]. split; [done|]. split; [done|].
    unfold Size, evicted. simpl.
    rewrite size_difference by set_solver. rewrite size_singleton.
    assert (size (evictable_ r) ≠ 0%nat).
    { intros Hz. apply size_empty_inv in Hz. set_solver. }
    lia.
  - apply Evict_None in H as [He ->]. split; [|done].
    unfold Size. rewrite He. by rewrite size_empty.
Qed.

Lemma Evict_Size_witness :
  1 ∈ evictable_ replacer_example
  ∧ evicted 1 replacer_example = evicted 1 replacer_example
  ∧ Size (evicted 1 replacer_example) = Size replacer_example - 1.
Proof.
  apply (Evict_Size replacer_example (Some 1) (evicted 1 replacer_example)).
  vm_compute. reflexivity.
Defined.

Lemma frame_id_in_range r f :
  0 ≤ f < replacer_size_ r -> frame_id_out_of_range r f = false.
Proof.
  intros Hf. unfold frame_id_out_of_range.
  apply orb_false_intro; [apply Z.ltb_ge | apply Z.leb_gt]; lia.
Qed.

Lemma SetEvictable_in_range r f b :
  0 ≤ f < replacer_size_ r ->
  SetEvictable f b r
  = Ok (tt, set_evictable_ (if b then {[f]} ∪ evictable_ r
                            else evictable_ r ∖ {[f]}) r).
Proof.
  intros Hf. destruct (SetEvictable f b r) as [[[] r']|e] eqn:Hse.
  - by apply SetEvictable_Ok in Hse as [_ ->].
  - unfold SetEvictable in Hse. rewrite frame_id_in_range in Hse by done.
    discriminate.
Qed.

Lemma RecordAccess_in_range r f :
  0 ≤ f < replacer_size_ r -> ∃ r', RecordAccess f r = Ok (tt, r').
Proof.
  intros Hf. unfold RecordAccess. rewrite frame_id_in_range by done. eauto.
Qed.

(** X4.  For a frame id in range, [SetEvictable] succeeds, makes the
    frame evictable or not as asked, touches no other frame and no
    history, moves [Size] by one exactly when the frame's status changes,
    and doing it twice is the same as once. *)
Theorem SetEvictable_Size r f b :
  0 ≤ f < replacer_size_ r ->
  ∃ r', SetEvictable f b r = Ok (tt, r')
      ∧ (f ∈ evictable_ r' <-> b = true)
      ∧ (∀ g, g ≠ f -> (g ∈ evictable_ r' <-> g ∈ evictable_ r))
      ∧ node_store_ r' = node_store_ r
      ∧ Size r' = Size r + (if b then (if decide (f ∈ evictable_ r) then 0 else 1)
                            else (if decide (f ∈ evictable_ r) then -1 else 0))
      ∧ SetEvictable f b r' = Ok (tt, r').
Proof.
  intros Hf.
  assert (Hcheck : ∀ r0, replacer_size_ r0 = replacer_size_ r ->
                         frame_id_out_of_range r0 f = false).
  { intros r0 Hr0. unfold frame_id_out_of_range. rewrite Hr0.
    apply orb_false_intro; [apply Z.ltb_ge | apply Z.leb_gt]; lia. }
  destruct (SetEvictable f b r) as [[[] r']|e] eqn:Hse.
  2:{ unfold SetEvictable in Hse. rewrite Hcheck in Hse by done. discriminate. }
  pose proof Hse as [_ ->]%SetEvictable_Ok.
  eexists. split; [reflexivity|]. simpl.
  split; [destruct b; set_solver|].
  split; [destruct b; set_solver|].
  split; [done|]. split.
  - unfold Size. simpl. destruct b; case_decide as Hin.
    + replace ({[f]} ∪ evictable_ r) with (evictable_ r) by set_solver. lia.
    + rewrite size_union by set_solver. rewrite size_singleton. lia.
    + rewrite size_difference by set_solver. rewrite size_singleton.
      assert (size (evictable_ r) ≠ 0%nat).
      { intros Hz. apply size_empty_inv in Hz. set_solver. }
      lia.
    + replace (evictable_ r ∖ {[f]}) with (evictable_ r) by set_solver. lia.
  - unfold SetEvictable. rewrite Hcheck by done. simpl.
    destruct r as [ns ev ts n k]. unfold set_evictable_. simpl.
    destruct b; case_bool_decide; simpl; try done; try (exfalso; set_solver);
      do 2 f_equal; set_solver.
Qed.

Lemma SetEvictable_Size_witness :
  ∃ r', SetEvictable 0 false replacer_example = Ok (tt, r')
      ∧ (0 ∈ evictable_ r' <-> false = true)
      ∧ (∀ g, g ≠ 0 -> (g ∈ evictable_ r' <-> g ∈ evictable_ replacer_example))
      ∧ node_store_ r' = node_store_ replacer_example
      ∧ Size r' = Size replacer_example
                  + (if decide (0 ∈ evictable_ replacer_example) then -1 else 0)
      ∧ SetEvictable 0 false r' = Ok (tt, r').
Proof.
  apply (SetEvictable_Size replacer_example 0 false). simpl. lia.
Defined.

(** ** Histories hold at most [k] timestamps *)

Lemma replacer_perform_history_bounded c r r' :
  0 ≤ k_ r ->
  (∀ f, Z.of_nat (length (history_ r f)) ≤ k_ r) ->
  replacer_perform c r = Ok (tt, r') ->
  k_ r' = k_ r ∧ ∀ f, Z.of_nat (length (history_ r' f)) ≤ k_ r'.
Proof.
  intros Hk Hb. destruct c as [|f|f b|f]; simpl.
  - intros (v & r1 & Hev & [= <-])%sbind_Ok. destruct v as [v|].
    + apply Evict_Some in Hev as [_ ->]. split; [done|]. intros g.
      rewrite history_evicted. case_decide; [simpl; lia | apply Hb].
    + by apply Evict_None in Hev as [_ ->].
  - unfold RecordAccess. destruct (frame_id_out_of_range r f); [discriminate|].
    intros [= <-]. split; [done|]. intros g. simpl.
    change (Z.of_nat (length (history_ (set_history f
       (if k_ r <? Z.of_nat (length (push_back (history_ r f) (current_timestamp_ r)))
        then pop_front (push_back (history_ r f) (current_timestamp_ r))
        else push_back (history_ r f) (current_timestamp_ r)) r) g)) ≤ k_ r).
    rewrite history_set_history. case_decide; [|apply Hb].
    specialize (Hb f).
    destruct (k_ r <? _) eqn:E.
    + unfold pop_front, push_back. destruct (history_ r f); simpl in *.
      * lia.
      * rewrite length_app. simpl. rewrite length_app in E. simpl in *. lia.
    + apply Z.ltb_ge in E. lia.
  - by intros [_ ->]%SetEvictable_Ok.
  - unfold Remove. case_bool_decide; intros [= <-]; [|done].
    split; [done|]. intros g. rewrite history_set_history.
    case_decide; [simpl; lia | apply Hb].
Qed.

Lemma history_holds_at_most_k_aux num_frames k r f :
  0 ≤ k ->
  replacer_reachable num_frames k r ->
  Z.of_nat (length (history_ r f)) ≤ k.
Proof.
  intros Hk Hreach.
  assert (H : k_ r = k ∧ ∀ g, Z.of_nat (length (history_ r g)) ≤ k_ r).
  { induction Hreach as [|r c r' _ [IHk IH] Hstep].
    - split; [done|]. intros g. unfold history_. simpl.
      rewrite lookup_empty. simpl. lia.
    - apply replacer_perform_history_bounded in Hstep as [Hk' Hb];
        [|lia|done]. split; [congruence | done]. }
  destruct H as [<- H]. apply H.
Qed.

(** X5.  In every state of a replacer built with history depth [k], no
    frame has more than [k] retained timestamps: [RecordAccess] drops the
    oldest one when the list grows beyond [k]. *)
Theorem history_holds_at_most_k num_frames k r f :
  0 ≤ k ->
  replacer_reachable num_frames k r ->
  Z.of_nat (length (history_ r f)) ≤ k.
Proof. apply history_holds_at_most_k_aux. Qed.

Lemma replacer_example_reachable : replacer_reachable 2 2 replacer_example.
Proof.
  eapply replacer_run_reachable;
    [apply replacer_reachable_new | apply replacer_example_run].
Qed.

Lemma history_holds_at_most_k_witness :
  Z.of_nat (length (history_ replacer_example 0)) ≤ 2.
Proof.
  apply (history_holds_at_most_k 2 2 replacer_example 0); [lia|].
  apply replacer_example_reachable.
Defined.

(** X6.  In every state reached from a new replacer by fewer than 2^64
    calls, the timestamps were issued in order: every retained timestamp
    is below the counter, every history is strictly increasing, and no
    timestamp appears in two histories. *)
Theorem timestamps_strictly_increasing num_frames k cs r :
  Z.of_nat (length cs) < size_t_modulus ->
  replacer_run cs (LRUKReplacer_new num_frames k) = Ok (tt, r) ->
  replacer_wf r.
Proof.
  intros Hlen Hrun.
  apply (replacer_run_wf cs (LRUKReplacer_new num_frames k) r);
    [apply replacer_wf_new | simpl; lia | exact Hrun].
Qed.

Lemma timestamps_strictly_increasing_witness : replacer_wf replacer_example.
Proof.
  apply (timestamps_strictly_increasing 2 2
           [CRecordAccess 0; CRecordAccess 1; CRecordAccess 0;
            CSetEvictable 0 true; CSetEvictable 1 true]).
  - vm_compute. reflexivity.
  - apply replacer_example_run.
Defined.

(** The victim of [Evict] in a well-formed state, for the corollaries
    below. *)
Lemma Evict_wf_victim r :
  replacer_wf r ->
  (∀ f, f ∈ evictable_ r -> history_ r f ≠ []) ->
  evictable_ r ≠ ∅ ->
  ∃ v, Evict r = Ok (Some v, evicted v r)
     ∧ v ∈ evictable_ r
     ∧ ∀ g, g ∈ evictable_ r -> g ≠ v ->
         loses_to (k_ r) (history_ r g) (history_ r v).
Proof.
  intros Hwf Hne Hnonempty. unfold Evict.
  destruct (elements (evictable_ r)) as [|v0 l] eqn:Hel.
  { apply elements_empty_inv in Hel. apply leibniz_equiv in Hel. done. }
  assert (Hmem : ∀ g, g ∈ v0 :: l <-> g ∈ evictable_ r).
  { intros g. rewrite <- Hel. apply elem_of_elements. }
  cbn [evict_scan].
  rewrite (evict_step_wf r None v0 Hwf); [|apply Hne, Hmem; left].
  destruct (evict_scan_wf r l v0 Hwf) as (v & -> & Hin & Hbest).
  { intros g Hg. by apply Hne, Hmem. }
  exists v. split; [done|]. split; [by apply Hmem|].
  intros g Hg Hgv. apply not_beats_loses_to; auto.
  - apply Hne, Hmem, Hin.
  - apply Hbest. by apply Hmem.
Qed.

(** X7.  If some evictable frame has fewer than [k] recorded accesses,
    the victim of [Evict] is a frame with fewer than [k] recorded
    accesses: no frame with a full history is evicted before it. *)
Theorem Evict_prefers_frames_with_short_history r g :
  replacer_wf r ->
  (∀ f, f ∈ evictable_ r -> history_ r f ≠ []) ->
  g ∈ evictable_ r ->
  Z.of_nat (length (history_ r g)) < k_ r ->
  ∃ v, Evict r = Ok (Some v, evicted v r)
     ∧ v ∈ evictable_ r
     ∧ Z.of_nat (length (history_ r v)) < k_ r.
Proof.
  intros Hwf Hne Hg Hshort.
  destruct (Evict_wf_victim r Hwf Hne) as (v & Hev & Hv & Hbest); [set_solver|].
  exists v. split; [done|]. split; [done|].
  destruct (decide (g = v)) as [->|Hgv]; [done|].
  specialize (Hbest g Hg Hgv). unfold loses_to, backward_k_distance in Hbest.
  apply Z.ltb_lt in Hshort. rewrite Hshort in Hbest.
  destruct (Z.of_nat (length (history_ r v)) <? k_ r) eqn:E;
    [by apply Z.ltb_lt in E|].
  simpl in Hbest. destruct Hbest as [[] | [? _]]. discriminate.
Qed.

Lemma Evict_prefers_frames_with_short_history_witness :
  ∃ v, Evict replacer_example = Ok (Some v, evicted v replacer_example)
     ∧ v ∈ evictable_ replacer_example
     ∧ Z.of_nat (length (history_ replacer_example v)) < k_ replacer_example.
Proof.
  apply (Evict_prefers_frames_with_short_history replacer_example 1).
  - apply (replacer_run_wf
             [CRecordAccess 0; CRecordAccess 1; CRecordAccess 0;
              CSetEvictable 0 true; CSetEvictable 1 true]
             (LRUKReplacer_new 2 2));
      [apply replacer_wf_new | vm_compute; reflexivity
      | apply replacer_example_run].
  - intros f Hf. simpl in Hf.
    apply elem_of_union in Hf as [->%elem_of_singleton | ->%elem_of_singleton];
      vm_compute; discriminate.
  - simpl. set_solver.
  - vm_compute. reflexivity.
Defined.

(** X8.  With k = 1 the policy is LRU: in a state reached from a new
    replacer, the victim is the evictable frame whose last access is the
    oldest. *)
Theorem Evict_with_k_1_is_LRU num_frames cs r :
  Z.of_nat (length cs) < size_t_modulus ->
  replacer_run cs (LRUKReplacer_new num_frames 1) = Ok (tt, r) ->
  (∀ f, f ∈ evictable_ r -> history_ r f ≠ []) ->
  evictable_ r ≠ ∅ ->
  ∃ v, Evict r = Ok (Some v, evicted v r)
     ∧ v ∈ evictable_ r
     ∧ ∀ g, g ∈ evictable_ r -> g ≠ v ->
         newest (history_ r v) < newest (history_ r g).
Proof.
  intros Hlen Hrun Hne Hnonempty.
  assert (Hwf : replacer_wf r).
  { apply (replacer_run_wf cs (LRUKReplacer_new num_frames 1) r);
      [apply replacer_wf_new | simpl; lia | exact Hrun]. }
  assert (Hreach : replacer_reachable num_frames 1 r).
  { eapply replacer_run_reachable; [apply replacer_reachable_new | exact Hrun]. }
  assert (Hk : k_ r = 1) by (by apply replacer_reachable_in_range in Hreach as (_ & _ & ?)).
  assert (Hone : ∀ f, f ∈ evictable_ r -> ∃ t, history_ r f = [t]).
  { intros f Hf. specialize (Hne f Hf).
    pose proof (history_holds_at_most_k_aux num_frames 1 r f) as Hlen1.
    destruct (history_ r f) as [|t [|t' h]]; [done | eauto |].
    simpl in Hlen1. specialize (Hlen1 ltac:(lia) Hreach). lia. }
  destruct (Evict_wf_victim r Hwf Hne Hnonempty) as (v & Hev & Hv & Hbest).
  exists v. split; [done|]. split; [done|].
  intros g Hg Hgv. specialize (Hbest g Hg Hgv).
  destruct (Hone g Hg) as [tg Hhg]. destruct (Hone v Hv) as [tv Hhv].
  rewrite Hhg, Hhv in *. rewrite Hk in Hbest.
  unfold loses_to, backward_k_distance, newest, oldest in *. simpl in *.
  destruct Hbest as [Hlt | [_ Hlt]]; lia.
Qed.

Lemma replacer_lru_example_run :
  replacer_run [CRecordAccess 0; CRecordAccess 1; CRecordAccess 0;
                CSetEvictable 0 true; CSetEvictable 1 true]
    (LRUKReplacer_new 2 1) = Ok (tt, replacer_lru_example).
Proof. vm_compute. reflexivity. Qed.

Lemma Evict_with_k_1_is_LRU_witness :
  ∃ v, Evict replacer_lru_example = Ok (Some v, evicted v replacer_lru_example)
     ∧ v ∈ evictable_ replacer_lru_example
     ∧ ∀ g, g ∈ evictable_ replacer_lru_example -> g ≠ v ->
         newest (history_ replacer_lru_example v)
         < newest (history_ replacer_lru_example g).
Proof.
  apply (Evict_with_k_1_is_LRU 2
           [CRecordAccess 0; CRecordAccess 1; CRecordAccess 0;
            CSetEvictable 0 true; CSetEvictable 1 true]).
  - vm_compute. reflexivity.
  - apply replacer_lru_example_run.
  - intros f Hf. simpl in Hf.
    apply elem_of_union in Hf as [->%elem_of_singleton | ->%elem_of_singleton];
      vm_compute; discriminate.
  - simpl. set_solver.
Defined.

(* ===================================================================== *)
(** * More about the manager *)
(* ===================================================================== *)

Lemma run_consecutive_ids ops s rs s' :
  run ops s = Ok (rs, s') ->
  consecutive_from (next_page_id_ s) (new_page_ids rs)
  ∧ next_page_id_ s' = next_page_id_ s + Z.of_nat (length (new_page_ids rs)).
Proof.
  revert s rs. induction ops as [|o ops IH]; intros s rs; simpl.
  - intros [= <- <-]. simpl. split; [done | lia].
  - intros (r & s1 & Hstep & H)%sbind_Ok.
    apply sbind_Ok in H as (rs' & s2 & Hrun & [= <- <-]).
    apply perform_next_page_id in Hstep.
    destruct (IH _ _ Hrun) as [Hc Hn].
    destruct r as [[[p f]|]| | |]; simpl.
    + destruct Hstep as [-> Hs1]. rewrite Hs1 in Hc, Hn. split; [done | lia].
    + rewrite Hstep in Hc, Hn. done.
    + rewrite Hstep in Hc, Hn. done.
    + rewrite Hstep in Hc, Hn. done.
    + rewrite Hstep in Hc, Hn. done.
Qed.



(** X10.  In every state between two calls the page table is consistent:
    an entry [p ↦ f] names a frame of the pool that is not on the free
    list, holds page id [p] and has a non-negative pin count, and no other
    page id maps to [f]. *)
Theorem page_table_consistent pool_size disk k s p f :
  0 ≤ pool_size ->
  reachable pool_size disk k s ->
  page_table_ s !! p = Some f ->
  0 ≤ f < pool_size
  ∧ ¬ in_free_list s f
  ∧ (∃ pg, frame s f = Some pg ∧ page_id_ pg = p ∧ 0 ≤ pin_count_ pg)
  ∧ (∀ q, page_table_ s !! q = Some f -> q = p).
Proof.
  intros Hn Hreach Hpt.
  pose proof (reachable_inv _ _ _ _ Hn Hreach) as Hinv.
  destruct (mi_page_table _ Hinv _ _ Hpt) as (Hnf & pg & Hpg & Hid).
  pose proof (frame_of_Some_range _ _ _ Hpg) as Hr.
  rewrite (mi_pages_length _ Hinv) in Hr.
  rewrite (reachable_pool_size _ _ _ _ Hreach) in Hr.
  split; [done|]. split; [done|]. split.
  - exists pg. split; [done|]. split; [done|].
    apply (fi_used_pin _ _ _ (mi_frames _ Hinv _ _ Hpg) Hnf).
  - intros q Hq. destruct (mi_page_table _ Hinv _ _ Hq) as (_ & pg' & Hpg' & Hid').
    rewrite Hpg in Hpg'. congruence.
Qed.

Lemma pool_of_two_pages_reachable : reachable 2 ∅ 2 pool_of_two_pages.
Proof.
  apply state_after_reachable.
  - repeat constructor.
  - vm_compute. reflexivity.
Qed.

Lemma exhausted_pool_reachable : reachable 1 ∅ 2 exhausted_pool.
Proof.
  apply state_after_reachable.
  - repeat constructor.
  - vm_compute. reflexivity.
Qed.

Lemma page_table_consistent_witness :
  0 ≤ 1 < 2
  ∧ ¬ in_free_list pool_of_two_pages 1
  ∧ (∃ pg, frame pool_of_two_pages 1 = Some pg ∧ page_id_ pg = 1
           ∧ 0 ≤ pin_count_ pg)
  ∧ (∀ q, page_table_ pool_of_two_pages !! q = Some 1 -> q = 1).
Proof.
  apply (page_table_consistent 2 ∅ 2 pool_of_two_pages 1 1).
  - lia.
  - apply pool_of_two_pages_reachable.
  - vm_compute. reflexivity.
Defined.

(** ** Pool exhaustion *)

Lemma set_replacer_same s : set_replacer (replacer_ s) s = s.
Proof. by destruct s. Qed.

Lemma FindAndEvictFrame_nothing s :
  free_list_ s = [] -> evictable_ (replacer_ s) = ∅ ->
  FindAndEvictFrame s = Ok (None, s).
Proof.
  intros Hfl Hev. unfold FindAndEvictFrame, sbind, gets. rewrite Hfl.
  unfold with_replacer, Evict. rewrite Hev, elements_empty. simpl.
  by rewrite set_replacer_same.
Qed.

Lemma NewPage_None s s' :
  NewPage s = Ok (None, s') ->
  free_list_ s = [] ∧ evictable_ (replacer_ s) = ∅ ∧ s' = s.
Proof.
  unfold NewPage. intros (found & s1 & Hfind & H)%sbind_Ok.
  destruct found as [f|].
  - repeat (apply sbind_Ok in H as (? & ? & _ & H)).
    by apply sret_Ok in H as [[=] _].
  - apply sret_Ok in H as [_ ->].
    apply FindAndEvictFrame_Ok in Hfind
      as [(f' & rest & _ & [=] & _)
         |[(? & ? & _ & ->)
          |(v & pg & _ & _ & _ & [=] & _)]].
    done.
Qed.

Lemma FetchPage_None p s s' :
  FetchPage p s = Ok (None, s') ->
  page_table_ s !! p = None
  ∧ free_list_ s = [] ∧ evictable_ (replacer_ s) = ∅ ∧ s' = s.
Proof.
  unfold FetchPage. intros H. mstep H.
  apply sbind_Ok in H as (entry & s1 & Hentry & H).
  destruct entry as [f|].
  { repeat (apply sbind_Ok in H as (? & ? & _ & H)).
    by apply sret_Ok in H as [[=] _]. }
  apply sret_Ok in H as [_ ->].
  destruct (page_table_ s !! p) as [f|]; [by apply sret_Ok in Hentry as [[=] _]|].
  split; [done|].
  apply sbind_Ok in Hentry as (found & s2 & Hfind & Hentry).
  destruct found as [f|].
  { repeat (apply sbind_Ok in Hentry as (? & ? & _ & Hentry)).
    by apply sret_Ok in Hentry as [[=] _]. }
  apply sret_Ok in Hentry as [_ ->].
  apply FindAndEvictFrame_Ok in Hfind
    as [(f' & rest & _ & [=] & _)
       |[(? & ? & _ & ->)
        |(v & pg & _ & _ & _ & [=] & _)]].
  done.
Qed.

Lemma all_pinned_iff_nothing_to_take s :
  manager_inv s ->
  all_pinned s <-> free_list_ s = [] ∧ evictable_ (replacer_ s) = ∅.
Proof.
  intros Hinv. split.
  - intros Hall. split.
    + destruct (free_list_ s) as [|f rest] eqn:Hfl; [done|]. exfalso.
      assert (Hin : in_free_list s f) by (unfold in_free_list; rewrite Hfl; left).
      pose proof (mi_free_range _ Hinv _ Hin) as Hr.
      rewrite <- (mi_pages_length _ Hinv) in Hr.
      destruct (frame_of_is_Some _ _ Hr) as [pg Hpg].
      pose proof (fi_free_pin _ _ _ (mi_frames _ Hinv _ _ Hpg) Hin).
      specialize (Hall _ _ Hpg). lia.
    + apply set_eq. intros g. split; [|set_solver]. intros Hg. exfalso.
      pose proof (mi_evictable_range _ Hinv _ Hg) as Hr.
      rewrite <- (mi_pages_length _ Hinv) in Hr.
      destruct (frame_of_is_Some _ _ Hr) as [pg Hpg].
      pose proof (mi_frames _ Hinv _ _ Hpg) as Hfi.
      specialize (Hall _ _ Hpg).
      destruct (decide (g ∈ free_list_ s)) as [Hin|Hnin].
      * pose proof (fi_free_pin _ _ _ Hfi Hin). lia.
      * pose proof (proj1 (fi_used_evictable _ _ _ Hfi Hnin) Hg). lia.
  - intros [Hfl Hev] f pg Hpg.
    pose proof (mi_frames _ Hinv _ _ Hpg) as Hfi.
    assert (Hnin : ¬ in_free_list s f).
    { unfold in_free_list. rewrite Hfl. apply not_elem_of_nil. }
    pose proof (fi_used_pin _ _ _ Hfi Hnin).
    pose proof (fi_used_evictable _ _ _ Hfi Hnin) as Hiff.
    unfold is_evictable in Hiff. rewrite Hev in Hiff.
    assert (pin_count_ pg ≠ 0) by (intros Hz; apply Hiff in Hz; set_solver).
    lia.
Qed.

(** X11.  In every state between two calls, [NewPage] returns null
    exactly when every frame of the pool is pinned, and so does
    [FetchPage] of a page that is not resident; the state is then left as
    it was. *)
Theorem pool_exhausted_iff_all_pinned pool_size disk k s :
  0 ≤ pool_size ->
  reachable pool_size disk k s ->
  ((∃ s', NewPage s = Ok (None, s')) <-> all_pinned s)
  ∧ (∀ s', NewPage s = Ok (None, s') -> s' = s)
  ∧ (∀ p, page_table_ s !! p = None ->
       ((∃ s', FetchPage p s = Ok (None, s')) <-> all_pinned s))
  ∧ (∀ p s', FetchPage p s = Ok (None, s') -> s' = s).
Proof.
  intros Hn Hreach.
  pose proof (reachable_inv _ _ _ _ Hn Hreach) as Hinv.
  pose proof (all_pinned_iff_nothing_to_take s Hinv) as Hiff.
  split; [|split; [|split]].
  - rewrite Hiff. split.
    + intros [s' (? & ? & _)%NewPage_None]. done.
    + intros [Hfl Hev]. exists s. unfold NewPage, sbind.
      by rewrite (FindAndEvictFrame_nothing _ Hfl Hev).
  - by intros s' (_ & _ & ->)%NewPage_None.
  - intros p Hpt. rewrite Hiff. split.
    + intros [s' (_ & ? & ? & _)%FetchPage_None]. done.
    + intros [Hfl Hev]. exists s. unfold FetchPage, sbind, gets. rewrite Hpt.
      by rewrite (FindAndEvictFrame_nothing _ Hfl Hev).
  - by intros p s' (_ & _ & _ & ->)%FetchPage_None.
Qed.

Lemma pool_exhausted_iff_all_pinned_witness :
  ((∃ s', NewPage exhausted_pool = Ok (None, s')) <-> all_pinned exhausted_pool)
  ∧ (∀ s', NewPage exhausted_pool = Ok (None, s') -> s' = exhausted_pool)
  ∧ (∀ p, page_table_ exhausted_pool !! p = None ->
       ((∃ s', FetchPage p exhausted_pool = Ok (None, s'))
        <-> all_pinned exhausted_pool))
  ∧ (∀ p s', FetchPage p exhausted_pool = Ok (None, s') -> s' = exhausted_pool).
Proof.
  apply (pool_exhausted_iff_all_pinned 1 ∅ 2 exhausted_pool).
  - lia.
  - apply exhausted_pool_reachable.
Defined.

(** ** UnpinPage *)

Lemma UnpinPage_not_resident p d s :
  page_table_ s !! p = None -> UnpinPage p d s = Ok (false, s).
Proof. intros Hpt. unfold UnpinPage, sbind, gets. by rewrite Hpt. Qed.

Lemma UnpinPage_not_pinned p d f pg s :
  page_table_ s !! p = Some f -> frame s f = Some pg -> pin_count_ pg = 0 ->
  UnpinPage p d s = Ok (false, s).
Proof.
  intros Hpt Hpg Hpin. unfold UnpinPage. unfold sbind at 1, gets. rewrite Hpt.
  unfold sbind at 1. rewrite (page_at_frame _ _ _ Hpg). by rewrite Hpin.
Qed.

Lemma UnpinPage_pinned p d f pg s :
  page_table_ s !! p = Some f -> frame s f = Some pg -> pin_count_ pg ≠ 0 ->
  0 ≤ f < replacer_size_ (replacer_ s) ->
  UnpinPage p d s
  = Ok (true,
        mkBufferPoolManager (pool_size_ s)
          (<[Z.to_nat f := unpinned d pg]> (pages_ s))
          (page_table_ s) (free_list_ s)
          (if pin_count_ pg - 1 =? 0
           then set_evictable_ ({[f]} ∪ evictable_ (replacer_ s)) (replacer_ s)
           else replacer_ s)
          (next_page_id_ s) (disk_ s) (log_ s)).
Proof.
  intros Hpt Hpg Hpin Hf. unfold UnpinPage. unfold sbind at 1, gets. rewrite Hpt.
  unfold sbind at 1. rewrite (page_at_frame _ _ _ Hpg).
  apply Z.eqb_neq in Hpin. rewrite Hpin.
  destruct s as [n ps pt fl r npid disk log]. unfold frame in Hpg. simpl in *.
  assert (Hpg1 : ∀ pg1, frame_of (<[Z.to_nat f := pg1]> ps) f = Some pg1).
  { intros pg1. by rewrite (frame_of_insert_eq _ _ _ _ Hpg). }
  destruct d.
  - unfold when at 1. unfold sbind at 1.
    rewrite (update_page_frame _ _ _ pg) by done.
    unfold with_frame, set_pages. simpl. unfold sbind at 1.
    erewrite update_page_frame by (unfold frame; simpl; apply Hpg1).
    unfold with_frame, set_pages. simpl. rewrite list_insert_insert_eq.
    unfold sbind at 1.
    erewrite page_at_frame by (unfold frame; simpl; apply Hpg1).
    simpl. destruct (pin_count_ pg - 1 =? 0); simpl.
    + unfold sbind, with_replacer. simpl.
      rewrite SetEvictable_in_range by done. simpl.
      unfold unpinned. by rewrite orb_true_r.
    + unfold unpinned. by rewrite orb_true_r.
  - unfold when at 1. unfold sbind at 1, sret at 1. unfold sbind at 1.
    rewrite (update_page_frame _ _ _ pg) by done.
    unfold with_frame, set_pages. simpl. unfold sbind at 1.
    erewrite page_at_frame by (unfold frame; simpl; apply Hpg1).
    simpl. destruct (pin_count_ pg - 1 =? 0); simpl.
    + unfold sbind, with_replacer. simpl.
      rewrite SetEvictable_in_range by done. simpl.
      unfold unpinned. by rewrite orb_false_r.
    + unfold unpinned. by rewrite orb_false_r.
Qed.

(** X12.  [UnpinPage] returns false and changes nothing when the page is
    not resident or its pin count is 0.  Otherwise it returns true: the pin
    count drops by one, the dirty flag becomes the old flag or-ed with the
    argument (never cleared), the frame joins the evictable set exactly if
    the count reached 0, and the page table, the free list, the disk and
    the buffers are untouched. *)
Theorem UnpinPage_cases s p d :
  (page_table_ s !! p = None -> UnpinPage p d s = Ok (false, s))
  ∧ (∀ f pg, page_table_ s !! p = Some f -> frame s f = Some pg ->
       pin_count_ pg = 0 -> UnpinPage p d s = Ok (false, s))
  ∧ (∀ f pg, page_table_ s !! p = Some f -> frame s f = Some pg ->
       pin_count_ pg ≠ 0 -> 0 ≤ f < replacer_size_ (replacer_ s) ->
       ∃ s', UnpinPage p d s = Ok (true, s')
           ∧ frame s' f = Some (unpinned d pg)
           ∧ (∀ g, g ≠ f -> frame s' g = frame s g)
           ∧ evictable_ (replacer_ s')
             = (if pin_count_ pg - 1 =? 0
                then {[f]} ∪ evictable_ (replacer_ s)
                else evictable_ (replacer_ s))
           ∧ node_store_ (replacer_ s') = node_store_ (replacer_ s)
           ∧ page_table_ s' = page_table_ s
           ∧ free_list_ s' = free_list_ s
           ∧ disk_ s' = disk_ s
           ∧ log_ s' = log_ s).
Proof.
  split; [apply UnpinPage_not_resident|].
  split; [intros f pg; apply UnpinPage_not_pinned|].
  intros f pg Hpt Hpg Hpin Hf. eexists.
  split; [by apply (UnpinPage_pinned _ _ _ _ _ Hpt Hpg)|].
  unfold frame in *. simpl.
  split; [by rewrite (frame_of_insert_eq _ _ _ _ Hpg)|].
  split.
  { intros g Hg. rewrite (frame_of_insert _ _ _ _ _ Hpg). by case_decide. }
  by destruct (pin_count_ pg - 1 =? 0).
Qed.

(** ** Bringing a page into a frame *)

(** The frame [FindAndEvictFrame] hands out is clean, and what it logged
    went through [WritePage] or [ResetMemory]. *)
Lemma FindAndEvictFrame_clean s f s1 pg0 :
  manager_inv s ->
  FindAndEvictFrame s = Ok (Some f, s1) ->
  frame s1 f = Some pg0 ->
  is_dirty_ pg0 = false.
Proof.
  intros Hinv Hfind Hpg0.
  apply FindAndEvictFrame_Ok in Hfind
    as [(f' & rest & Hfl & [= <-] & ->)
       |[(_ & _ & [=] & _)
        |(v & pg & Hfl & Hv & Hpg & [= <-] & ->)]].
  - assert (Hin : in_free_list s f) by (unfold in_free_list; rewrite Hfl; left).
    apply (fi_free_clean _ _ _ (mi_frames _ Hinv f pg0 Hpg0) Hin).
  - unfold frame in *. simpl in Hpg0.
    rewrite (frame_of_insert_eq _ _ _ _ Hpg) in Hpg0. by injection Hpg0 as <-.
Qed.

Lemma FindAndEvictFrame_log s f s1 :
  FindAndEvictFrame s = Ok (Some f, s1) ->
  ∃ evs, log_ s1 = log_ s ++ evs
       ∧ ∀ e, e ∈ evs -> ∀ q g, e ≠ EvReadPage q g.
Proof.
  intros Hfind.
  apply FindAndEvictFrame_Ok in Hfind
    as [(f' & rest & Hfl & [= <-] & ->)
       |[(_ & _ & [=] & _)
        |(v & pg & Hfl & Hv & Hpg & [= <-] & ->)]].
  - exists []. split; [simpl; by rewrite app_nil_r|].
    intros e He. by apply elem_of_nil in He.
  - simpl. eexists. split; [reflexivity|]. intros e He q g ->.
    destruct (is_dirty_ pg); simpl in He; set_solver.
Qed.

Lemma FetchPage_miss_inv p s f s' :
  page_table_ s !! p = None ->
  FetchPage p s = Ok (Some f, s') ->
  ∃ s1 pg0 r2,
    FindAndEvictFrame s = Ok (Some f, s1)
    ∧ frame s1 f = Some pg0
    ∧ pinned_replacer f (replacer_ s1) r2
    ∧ s' = mkBufferPoolManager (pool_size_ s1)
             (<[Z.to_nat f := mkPage (default zero_page (disk_ s1 !! p)) p 1
                                (is_dirty_ pg0) (rwlatch_ pg0)]> (pages_ s1))
             (<[p := f]> (page_table_ s1)) (free_list_ s1) r2
             (next_page_id_ s1) (disk_ s1) (log_ s1 ++ [EvReadPage p f]).
Proof.
  intros Hpt H. unfold FetchPage in H. mstep H.
  apply sbind_Ok in H as (entry & s1 & Hentry & H). rewrite Hpt in Hentry.
  apply sbind_Ok in Hentry as (found & s2 & Hfind & Hentry).
  destruct found as [f'|].
  2:{ apply sret_Ok in Hentry as [-> ->]. by apply sret_Ok in H as [[=] _]. }
  exists s2.
  destruct s2 as [n ps pt fl r npid disk log].
  mstep Hentry. apply ReadPage_Ok in Hstep as (pg0 & Hf0 & ->).
  unfold frame in Hf0. simpl in Hf0.
  unfold with_frame, set_pages, set_log in Hentry. simpl in Hentry.
  mstep Hentry. apply update_page_Ok in Hstep as (pg2 & Hf2 & ->).
  unfold frame in Hf2. simpl in Hf2.
  rewrite (frame_of_insert_eq _ _ _ _ Hf0) in Hf2. injection Hf2 as <-.
  unfold with_frame, set_pages in Hentry. simpl in Hentry.
  rewrite list_insert_insert_eq in Hentry.
  mstep Hentry. apply update_page_Ok in Hstep as (pg3 & Hf3 & ->).
  unfold frame in Hf3. simpl in Hf3.
  rewrite (frame_of_insert_eq _ _ _ _ Hf0) in Hf3. injection Hf3 as <-.
  unfold with_frame, set_pages in Hentry. simpl in Hentry.
  rewrite list_insert_insert_eq in Hentry.
  mstep Hentry. unfold set_page_table in Hentry. simpl in Hentry.
  apply sret_Ok in Hentry as [-> ->].
  mstep H. apply update_page_Ok in Hstep as (pg4 & Hf4 & ->).
  unfold frame in Hf4. simpl in Hf4.
  rewrite (frame_of_insert_eq _ _ _ _ Hf0) in Hf4. injection Hf4 as <-.
  unfold with_frame, set_pages in H. simpl in H.
  rewrite list_insert_insert_eq in H.
  mstep H. apply with_replacer_Ok in Hstep as (r1 & Hse & ->). simpl in Hse.
  mstep H. apply with_replacer_Ok in Hstep as (r2 & Hra & ->). simpl in Hra.
  pose proof (pin_in_replacer _ _ _ _ Hse Hra) as Hpin.
  unfold set_replacer in H. simpl in H.
  apply sret_Ok in H as [Hf Hs]. injection Hf as ->. subst s'.
  exists pg0, r2. split; [done|]. split; [done|]. split; [done|]. done.
Qed.

(** X13.  In every state between two calls, a successful [FetchPage] of a
    page that is not resident leaves it in the returned frame with the
    bytes the disk holds for it (zeroes if it was never written), pin
    count 1 and a clear dirty flag; the page table maps it to that frame,
    the frame is not evictable, and the single [ReadPage] is the last disk
    call made. *)
Theorem FetchPage_loads_page_from_disk pool_size disk k s p f s' :
  0 ≤ pool_size ->
  reachable pool_size disk k s ->
  page_table_ s !! p = None ->
  FetchPage p s = Ok (Some f, s') ->
  (∃ l, frame s' f
        = Some (mkPage (default zero_page (disk_ s' !! p)) p 1 false l))
  ∧ page_table_ s' !! p = Some f
  ∧ ¬ is_evictable s' f
  ∧ ∃ evs, log_ s' = log_ s ++ evs ++ [EvReadPage p f]
         ∧ ∀ e, e ∈ evs -> ∀ q g, e ≠ EvReadPage q g.
Proof.
  intros Hn Hreach Hpt H.
  pose proof (reachable_inv _ _ _ _ Hn Hreach) as Hinv.
  apply FetchPage_miss_inv in H as (s1 & pg0 & r2 & Hfind & Hpg0 & Hpin & ->);
    [|done].
  rewrite (FindAndEvictFrame_clean _ _ _ _ Hinv Hfind Hpg0).
  destruct (FindAndEvictFrame_log _ _ _ Hfind) as (evs & Hlog & Hevs).
  unfold frame, is_evictable in *. simpl.
  split; [|split; [|split]].
  - exists (rwlatch_ pg0). by rewrite (frame_of_insert_eq _ _ _ _ Hpg0).
  - by rewrite lookup_insert_eq.
  - rewrite (pr_evictable _ _ _ Hpin). set_solver.
  - exists evs. split; [by rewrite Hlog, app_assoc | done].
Qed.

Lemma FetchPage_loads_page_from_disk_witness :
  (∃ l, frame (state_after [OFetchPage 0] pool_after_delete) 1
        = Some (mkPage
                  (default zero_page
                     (disk_ (state_after [OFetchPage 0] pool_after_delete) !! 0))
                  0 1 false l))
  ∧ page_table_ (state_after [OFetchPage 0] pool_after_delete) !! 0 = Some 1
  ∧ ¬ is_evictable (state_after [OFetchPage 0] pool_after_delete) 1
  ∧ ∃ evs, log_ (state_after [OFetchPage 0] pool_after_delete)
           = log_ pool_after_delete ++ evs ++ [EvReadPage 0 1]
         ∧ ∀ e, e ∈ evs -> ∀ q g, e ≠ EvReadPage q g.
Proof.
  apply (FetchPage_loads_page_from_disk 2 ∅ 2 pool_after_delete 0 1).
  - lia.
  - apply pool_after_delete_reachable.
  - vm_compute. reflexivity.
  - vm_compute. reflexivity.
Defined.

Lemma NewPage_Some_inv s p f s' :
  NewPage s = Ok (Some (p, f), s') ->
  ∃ s1 pg0 r2,
    FindAndEvictFrame s = Ok (Some f, s1)
    ∧ frame s1 f = Some pg0
    ∧ pinned_replacer f (replacer_ s1) r2
    ∧ p = next_page_id_ s1
    ∧ s' = mkBufferPoolManager (pool_size_ s1)
             (<[Z.to_nat f := mkPage zero_page p 1 (is_dirty_ pg0)
                                (rwlatch_ pg0)]> (pages_ s1))
             (<[p := f]> (page_table_ s1)) (free_list_ s1) r2
             (p + 1) (disk_ s1) (log_ s1 ++ [EvResetMemory f]).
Proof.
  intros H. unfold NewPage in H.
  apply sbind_Ok in H as (found & s1 & Hfind & H).
  destruct found as [f'|]; [|by apply sret_Ok in H as [[=] _]].
  exists s1. destruct s1 as [n ps pt fl r npid disk log].
  mstep H. apply with_replacer_Ok in Hstep as (r1 & Hse & ->). simpl in Hse.
  mstep H. apply with_replacer_Ok in Hstep as (r2 & Hra & ->). simpl in Hra.
  pose proof (pin_in_replacer _ _ _ _ Hse Hra) as Hpin.
  unfold set_replacer in H. simpl in H.
  mstep H. apply AllocatePage_Ok in Hstep as [-> ->]. simpl in H.
  unfold set_next_page_id in H. simpl in H.
  mstep H. apply update_page_Ok in Hstep as (pg0 & Hf0 & ->).
  unfold frame in Hf0. simpl in Hf0.
  unfold with_frame, set_pages in H. simpl in H.
  mstep H. apply update_page_Ok in Hstep as (pg2 & Hf2 & ->).
  unfold frame in Hf2. simpl in Hf2.
  rewrite (frame_of_insert_eq _ _ _ _ Hf0) in Hf2. injection Hf2 as <-.
  unfold with_frame, set_pages in H. simpl in H.
  rewrite list_insert_insert_eq in H.
  mstep H. unfold set_page_table in H. simpl in H.
  mstep H. apply ResetMemory_Ok in Hstep as (pg3 & Hf3 & ->).
  unfold frame in Hf3. simpl in Hf3.
  rewrite (frame_of_insert_eq _ _ _ _ Hf0) in Hf3. injection Hf3 as <-.
  unfold with_frame, set_pages, set_log in H. simpl in H.
  rewrite list_insert_insert_eq in H.
  apply sret_Ok in H as [Hf Hs]. injection Hf as -> ->. subst s'.
  exists pg0, r2. done.
Qed.

(** X14.  In every state between two calls, a successful [NewPage] hands
    out the frame holding the new page id with a zeroed buffer, pin count 1
    and a clear dirty flag; the page table maps the new id to that frame
    and the frame is not evictable.  [NewPage] itself never stores into
    the dirty flag: the frames it takes are clean. *)
Theorem NewPage_hands_out_zeroed_pinned_page pool_size disk k s p f s' :
  0 ≤ pool_size ->
  reachable pool_size disk k s ->
  NewPage s = Ok (Some (p, f), s') ->
  (∃ l, frame s' f = Some (mkPage zero_page p 1 false l))
  ∧ p = next_page_id_ s
  ∧ page_table_ s' !! p = Some f
  ∧ ¬ is_evictable s' f
  ∧ ¬ in_free_list s' f.
Proof.
  intros Hn Hreach H.
  pose proof (reachable_inv _ _ _ _ Hn Hreach) as Hinv.
  pose proof (so_inv _ _ (proj1 (NewPage_step _ _ _ Hinv H))) as Hinv'.
  apply NewPage_Some_inv in H as (s1 & pg0 & r2 & Hfind & Hpg0 & Hpin & Hp & ->).
  rewrite (FindAndEvictFrame_clean _ _ _ _ Hinv Hfind Hpg0).
  assert (Hnext : next_page_id_ s1 = next_page_id_ s).
  { by apply (untouched_FindAndEvictFrame same_next_page_id) in Hfind. }
  assert (Hpt : page_table_
                  (mkBufferPoolManager (pool_size_ s1)
                     (<[Z.to_nat f := mkPage zero_page p 1 false (rwlatch_ pg0)]>
                        (pages_ s1))
                     (<[p := f]> (page_table_ s1)) (free_list_ s1) r2
                     (p + 1) (disk_ s1) (log_ s1 ++ [EvResetMemory f])) !! p
                = Some f) by (simpl; by rewrite lookup_insert_eq).
  rewrite (FindAndEvictFrame_clean _ _ _ _ Hinv Hfind Hpg0) in Hinv'.
  split; [|split; [|split; [|split]]].
  - exists (rwlatch_ pg0). unfold frame in *. simpl.
    by rewrite (frame_of_insert_eq _ _ _ _ Hpg0).
  - congruence.
  - exact Hpt.
  - unfold is_evictable. simpl. rewrite (pr_evictable _ _ _ Hpin). set_solver.
  - apply (mi_page_table _ Hinv' _ _ Hpt).
Qed.

Lemma NewPage_hands_out_zeroed_pinned_page_witness :
  (∃ l, frame (state_after [ONewPage] pool_with_dirty_page) 0
        = Some (mkPage zero_page 1 1 false l))
  ∧ 1 = next_page_id_ pool_with_dirty_page
  ∧ page_table_ (state_after [ONewPage] pool_with_dirty_page) !! 1 = Some 0
  ∧ ¬ is_evictable (state_after [ONewPage] pool_with_dirty_page) 0
  ∧ ¬ in_free_list (state_after [ONewPage] pool_with_dirty_page) 0.
Proof.
  apply (NewPage_hands_out_zeroed_pinned_page 1 ∅ 2 pool_with_dirty_page 1 0).
  - lia.
  - apply pool_with_dirty_page_reachable.
  - vm_compute. reflexivity.
Defined.

Lemma FetchPage_hit p f pg s :
  page_table_ s !! p = Some f -> frame s f = Some pg ->
  0 ≤ f < replacer_size_ (replacer_ s) ->
  ∃ r2, FetchPage p s
        = Ok (Some f,
              mkBufferPoolManager (pool_size_ s)
                (<[Z.to_nat f := set_pin_count (pin_count_ pg + 1) pg]> (pages_ s))
                (page_table_ s) (free_list_ s) r2 (next_page_id_ s)
                (disk_ s) (log_ s))
      ∧ pinned_replacer f (replacer_ s) r2.
Proof.
  intros Hpt Hpg Hf. unfold FetchPage. unfold sbind at 1, gets. rewrite Hpt.
  unfold sbind at 1, sret at 1. unfold sbind at 1.
  rewrite (update_page_frame _ _ _ pg) by done.
  destruct s as [n ps pt fl r npid disk log]. unfold frame in Hpg. simpl in *.
  unfold with_frame, set_pages. simpl.
  unfold sbind at 1, with_replacer at 1. simpl.
  rewrite SetEvictable_in_range by done.
  destruct (RecordAccess_in_range (set_evictable_ (evictable_ r ∖ {[f]}) r) f)
    as [r2 Hra]; [done|].
  unfold set_replacer. simpl. unfold sbind, with_replacer. simpl. rewrite Hra.
  simpl. exists r2. split; [done|].
  eapply pin_in_replacer; [by apply SetEvictable_in_range | exact Hra].
Qed.

(** X15.  [FetchPage] of a resident page returns its frame with the pin
    count raised by one and takes it out of the evictable set; the
    buffer, the dirty flag, the page table, the free list, the disk and the
    log are as before, so no disk call is made. *)
Theorem FetchPage_resident_pins s p f pg :
  page_table_ s !! p = Some f ->
  frame s f = Some pg ->
  0 ≤ f < replacer_size_ (replacer_ s) ->
  ∃ s', FetchPage p s = Ok (Some f, s')
      ∧ frame s' f = Some (set_pin_count (pin_count_ pg + 1) pg)
      ∧ (∀ g, g ≠ f -> frame s' g = frame s g)
      ∧ evictable_ (replacer_ s') = evictable_ (replacer_ s) ∖ {[f]}
      ∧ page_table_ s' = page_table_ s
      ∧ free_list_ s' = free_list_ s
      ∧ disk_ s' = disk_ s
      ∧ log_ s' = log_ s.
Proof.
  intros Hpt Hpg Hf.
  destruct (FetchPage_hit _ _ _ _ Hpt Hpg Hf) as (r2 & -> & Hpin).
  eexists. split; [reflexivity|]. unfold frame in *. simpl.
  split; [by rewrite (frame_of_insert_eq _ _ _ _ Hpg)|].
  split.
  { intros g Hg. rewrite (frame_of_insert _ _ _ _ _ Hpg). by case_decide. }
  split; [apply (pr_evictable _ _ _ Hpin) | done].
Qed.

Lemma FetchPage_resident_pins_witness :
  ∃ s', FetchPage 0 pool_of_two_pages = Ok (Some 0, s')
      ∧ frame s' 0
        = Some (set_pin_count (0 + 1) (mkPage zero_page 0 0 false (mkLatch 0 false)))
      ∧ (∀ g, g ≠ 0 -> frame s' g = frame pool_of_two_pages g)
      ∧ evictable_ (replacer_ s') = evictable_ (replacer_ pool_of_two_pages) ∖ {[0]}
      ∧ page_table_ s' = page_table_ pool_of_two_pages
      ∧ free_list_ s' = free_list_ pool_of_two_pages
      ∧ disk_ s' = disk_ pool_of_two_pages
      ∧ log_ s' = log_ pool_of_two_pages.
Proof.
  apply (FetchPage_resident_pins pool_of_two_pages 0 0
           (mkPage zero_page 0 0 false (mkLatch 0 false)));
    [vm_compute; reflexivity | vm_compute; reflexivity | vm_compute; done].
Defined.

(* ===================================================================== *)
(** * No call of the manager faults *)
(* ===================================================================== *)

Section Returns.
Context {S : Type}.

Lemma returns_sret {A} (a : A) (s : S) (Q : A -> S -> Prop) :
  Q a s -> returns (sret a) s Q.
Proof. intros HQ. by exists a, s. Qed.

Lemma returns_gets {A} (f : S -> A) (s : S) (Q : A -> S -> Prop) :
  Q (f s) s -> returns (gets f) s Q.
Proof. intros HQ. by exists (f s), s. Qed.

Lemma returns_modify (f : S -> S) (s : S) (Q : unit -> S -> Prop) :
  Q tt (f s) -> returns (modify f) s Q.
Proof. intros HQ. by exists tt, (f s). Qed.

Lemma returns_bind {A B} (m : St S A) (c : A -> St S B) s
    (Q : A -> S -> Prop) (R : B -> S -> Prop) :
  returns m s Q ->
  (∀ a s', Q a s' -> returns (c a) s' R) ->
  returns (sbind m c) s R.
Proof.
  intros (a & s' & Hm & HQ) Hc.
  destruct (Hc a s' HQ) as (b & s'' & Hk & HR).
  exists b, s''. split; [|done]. by rewrite (sbind_eq _ _ _ _ _ Hm).
Qed.

Lemma returns_when (b : bool) (m : St S unit) s (Q : unit -> S -> Prop) :
  returns m s Q -> Q tt s -> returns (when b m) s Q.
Proof. intros Hm HQ. destruct b; [done | by apply returns_sret]. Qed.

Lemma returns_for_each {A} (l : list A) (body : A -> St S unit)
    (I : S -> Prop) s :
  (∀ x s, x ∈ l -> I s -> returns (body x) s (λ _, I)) ->
  I s -> returns (for_each l body) s (λ _, I).
Proof.
  revert s. induction l as [|x l IH]; intros s Hbody HI; simpl.
  - by apply returns_sret.
  - eapply returns_bind; [apply Hbody; [left | done]|].
    intros ? s' HI'. apply IH; [|done].
    intros y s0 Hy. apply Hbody. by right.
Qed.

Lemma returns_Ok {A} (m : St S A) s (Q : A -> S -> Prop) a s' :
  returns m s Q -> m s = Ok (a, s') -> Q a s'.
Proof. intros (a0 & s0 & Hm & HQ) H. rewrite Hm in H. by injection H as <- <-. Qed.

Lemma returns_weaken {A} (m : St S A) s (Q R : A -> S -> Prop) :
  returns m s Q -> (∀ a s', Q a s' -> R a s') -> returns m s R.
Proof. intros (a & s' & Hm & HQ) HQR. exists a, s'. auto. Qed.
End Returns.

Lemma sbind_gets {S A B} (f : S -> A) (c : A -> St S B) s :
  sbind (gets f) c s = c (f s) s.
Proof. reflexivity. Qed.

Section Sized.
Variables n k : Z.

Lemma sized_frame s f : sized n k s -> 0 ≤ f < n -> ∃ pg, frame s f = Some pg.
Proof.
  intros Hs Hf. apply frame_of_is_Some. rewrite (sz_pages _ _ _ Hs). done.
Qed.

Lemma sized_page_at s f : sized n k s -> 0 ≤ f < n -> returns (page_at f) s (λ _, sized n k).
Proof.
  intros Hs Hf. destruct (sized_frame s f Hs Hf) as [pg Hpg].
  exists pg, s. split; [by apply page_at_frame | done].
Qed.

Lemma sized_update_page s f g :
  sized n k s -> 0 ≤ f < n -> returns (update_page f g) s (λ _, sized n k).
Proof.
  intros Hs Hf. destruct (sized_frame s f Hs Hf) as [pg Hpg].
  eexists tt, _. split; [by apply update_page_frame|].
  destruct Hs as [Hp Hr Hk]. split; simpl; [|done|done].
  by rewrite length_insert.
Qed.

Lemma sized_SetEvictable s f b :
  sized n k s -> 0 ≤ f < n -> returns (with_replacer (SetEvictable f b)) s (λ _, sized n k).
Proof.
  intros Hs Hf. unfold returns, with_replacer.
  rewrite SetEvictable_in_range by (by rewrite (sz_replacer _ _ _ Hs)).
  eexists tt, _. split; [reflexivity|]. by destruct Hs.
Qed.

Lemma sized_RecordAccess s f :
  sized n k s -> 0 ≤ f < n -> returns (with_replacer (RecordAccess f)) s (λ _, sized n k).
Proof.
  intros Hs Hf. unfold returns, with_replacer, RecordAccess.
  rewrite frame_id_in_range by (by rewrite (sz_replacer _ _ _ Hs)).
  eexists tt, _. split; [reflexivity|]. by destruct Hs.
Qed.

Lemma sized_Remove s f : sized n k s -> returns (with_replacer (Remove f)) s (λ _, sized n k).
Proof.
  intros Hs. unfold returns, with_replacer, Remove.
  case_bool_decide; eexists tt, _; (split; [reflexivity|]); by destruct Hs.
Qed.

Lemma sized_modify s (g : BufferPoolManager -> BufferPoolManager) :
  sized n k (g s) -> returns (modify g) s (λ _, sized n k).
Proof. intros Hs. by exists tt, (g s). Qed.

Lemma sized_emit s e : sized n k s -> returns (emit e) s (λ _, sized n k).
Proof. intros Hs. apply sized_modify. by destruct Hs. Qed.

Lemma sized_WritePage s p d : sized n k s -> returns (WritePage p d) s (λ _, sized n k).
Proof.
  intros Hs. unfold WritePage.
  eapply returns_bind; [apply sized_modify; by destruct Hs|].
  intros ? s'. apply sized_emit.
Qed.

Lemma sized_ReadPage s p f :
  sized n k s -> 0 ≤ f < n -> returns (ReadPage p f) s (λ _, sized n k).
Proof.
  intros Hs Hf. unfold ReadPage.
  change (returns (update_page f (set_data (default zero_page (disk_ s !! p))) ;;
                  emit (EvReadPage p f)) s (λ _, sized n k)).
  eapply returns_bind; [by apply sized_update_page|].
  intros ? s''. apply sized_emit.
Qed.

Lemma sized_ResetMemory s f :
  sized n k s -> 0 ≤ f < n -> returns (ResetMemory f) s (λ _, sized n k).
Proof.
  intros Hs Hf. unfold ResetMemory.
  eapply returns_bind; [by apply sized_update_page|].
  intros ? s''. apply sized_emit.
Qed.

Lemma sized_AllocatePage s : sized n k s -> returns AllocatePage s (λ _, sized n k).
Proof.
  intros Hs. unfold AllocatePage.
  change (returns (modify (set_next_page_id (next_page_id_ s + 1)) ;;
                  sret (next_page_id_ s)) s (λ _, sized n k)).
  eapply returns_bind; [apply sized_modify; by destruct Hs|].
  intros ? s'' Hs''. by apply returns_sret.
Qed.

Lemma sized_DeallocatePage s p : sized n k s -> returns (DeallocatePage p) s (λ _, sized n k).
Proof. intros Hs. by exists tt, s. Qed.

Lemma sized_bind {A B} (m : St BufferPoolManager A)
    (c : A -> St BufferPoolManager B) s (R : B -> BufferPoolManager -> Prop) :
  returns m s (λ _, sized n k) ->
  (∀ a s', sized n k s' -> returns (c a) s' R) ->
  returns (sbind m c) s R.
Proof. apply returns_bind. Qed.

Lemma sized_when (b : bool) (m : St BufferPoolManager unit) s :
  sized n k s -> returns m s (λ _, sized n k) -> returns (when b m) s (λ _, sized n k).
Proof. intros Hs Hm. by apply returns_when. Qed.

Lemma sized_set_page_table s pt : sized n k s -> sized n k (set_page_table pt s).
Proof. by intros []. Qed.

Lemma sized_set_free_list s fl : sized n k s -> sized n k (set_free_list fl s).
Proof. by intros []. Qed.
End Sized.

(** Runs a chain of calls on frames known to be in range. *)
Ltac steady :=
  lazymatch goal with
  | |- returns (sbind _ _) _ _ =>
      eapply sized_bind; [steady | intros ? ? ?; steady]
  | |- returns (when _ _) _ _ => apply sized_when; [eassumption | steady]
  | |- returns (if ?b then _ else _) _ _ => destruct b; steady
  | |- returns (page_at _) _ _ => apply sized_page_at; [eassumption | lia]
  | |- returns (update_page _ _) _ _ => apply sized_update_page; [eassumption | lia]
  | |- returns (with_replacer (SetEvictable _ _)) _ _ =>
      apply sized_SetEvictable; [eassumption | lia]
  | |- returns (with_replacer (RecordAccess _)) _ _ =>
      apply sized_RecordAccess; [eassumption | lia]
  | |- returns (with_replacer (Remove _)) _ _ => apply sized_Remove; eassumption
  | |- returns (WritePage _ _) _ _ => apply sized_WritePage; eassumption
  | |- returns (ReadPage _ _) _ _ => apply sized_ReadPage; [eassumption | lia]
  | |- returns (ResetMemory _) _ _ => apply sized_ResetMemory; [eassumption | lia]
  | |- returns AllocatePage _ _ => apply sized_AllocatePage; eassumption
  | |- returns (DeallocatePage _) _ _ => apply sized_DeallocatePage; eassumption
  | |- returns (modify (λ s, set_page_table _ s)) _ _ =>
      apply sized_modify, sized_set_page_table; eassumption
  | |- returns (modify (λ s, set_free_list _ s)) _ _ =>
      apply sized_modify, sized_set_free_list; eassumption
  | |- returns (sret _) _ _ =>
      apply returns_sret;
      first [ eassumption
            | split; [eassumption | intros ? [= <-]; lia]
            | split; [eassumption | intros ? [=]] ]
  end.

Lemma manager_inv_sized s :
  manager_inv s -> sized (pool_size_ s) (k_ (replacer_ s)) s.
Proof. intros Hinv. split; [apply Hinv | apply Hinv | done]. Qed.

Lemma page_table_range n k s p f :
  manager_inv s -> sized n k s -> page_table_ s !! p = Some f -> 0 ≤ f < n.
Proof.
  intros Hinv Hs Hpt.
  destruct (mi_page_table _ Hinv _ _ Hpt) as (_ & pg & Hpg & _).
  apply frame_of_Some_range in Hpg. by rewrite (sz_pages _ _ _ Hs) in Hpg.
Qed.

Lemma returns_gets_bind {S A B} (f : S -> A) (c : A -> St S B) s
    (R : B -> S -> Prop) :
  returns (c (f s)) s R -> returns (sbind (gets f) c) s R.
Proof. intros H. exact H. Qed.

Lemma Evict_returns n k s :
  1 ≤ k -> manager_inv s -> sized n k s -> free_list_ s = [] ->
  returns (with_replacer Evict) s
    (λ a s', sized n k s' ∧ ∀ f, a = Some f -> 0 ≤ f < n).
Proof.
  intros Hk Hinv Hs Hfl.
  assert (Hn : pool_size_ s = n).
  { by rewrite <- (mi_pages_length _ Hinv), (sz_pages _ _ _ Hs). }
  assert (Hne : ∀ f, f ∈ evictable_ (replacer_ s) ->
                     history_ (replacer_ s) f ≠ []).
  { intros f Hf.
    pose proof (mi_evictable_range _ Hinv f Hf) as Hr. rewrite Hn in Hr.
    destruct (sized_frame _ _ _ _ Hs Hr) as [pg Hpg].
    apply (fi_used_history _ _ _ (mi_frames _ Hinv _ _ Hpg)).
    - unfold in_free_list. rewrite Hfl. apply not_elem_of_nil.
    - by rewrite (sz_k _ _ _ Hs). }
  destruct (Evict_total _ Hne) as [[[v|] r'] Hev].
  - destruct (Evict_Some _ _ _ Hev) as [Hv ->].
    exists (Some v), (set_replacer (evicted v (replacer_ s)) s).
    split; [unfold with_replacer; by rewrite Hev|].
    split; [by destruct Hs|]. intros ? [= <-].
    rewrite <- Hn. by apply (mi_evictable_range _ Hinv).
  - destruct (Evict_None _ _ Hev) as [_ ->].
    exists None, (set_replacer (replacer_ s) s).
    split; [unfold with_replacer; by rewrite Hev|].
    split; [by destruct Hs | intros ? [=]].
Qed.

Lemma FindAndEvictFrame_returns n k s :
  (free_list_ s = [] -> 1 ≤ k) -> manager_inv s -> sized n k s ->
  returns FindAndEvictFrame s
    (λ a s', sized n k s' ∧ ∀ f, a = Some f -> 0 ≤ f < n).
Proof.
  intros Hk Hinv Hs.
  assert (Hn : pool_size_ s = n).
  { by rewrite <- (mi_pages_length _ Hinv), (sz_pages _ _ _ Hs). }
  unfold FindAndEvictFrame. apply returns_gets_bind.
  destruct (free_list_ s) as [|f rest] eqn:Hfl.
  - eapply returns_bind; [apply (Evict_returns n k); auto|].
    intros [v|] s1 [Hs1 Hr]; [specialize (Hr v eq_refl)|]; steady.
  - assert (Hf : 0 ≤ f < n).
    { rewrite <- Hn. apply (mi_free_range _ Hinv).
      unfold in_free_list. rewrite Hfl. left. }
    eapply (sized_bind n k).
    + apply sized_modify. by apply sized_set_free_list.
    + intros ? s' Hs'. steady.
Qed.

Lemma NewPage_returns n k s :
  (free_list_ s = [] -> 1 ≤ k) -> manager_inv s -> sized n k s ->
  returns NewPage s (λ _, sized n k).
Proof.
  intros Hk Hinv Hs. unfold NewPage.
  eapply returns_bind; [by apply FindAndEvictFrame_returns|].
  intros [f|] s1 [Hs1 Hr]; [specialize (Hr f eq_refl)|]; steady.
Qed.

Lemma FetchPage_returns n k p s :
  (free_list_ s = [] -> 1 ≤ k) -> manager_inv s -> sized n k s ->
  returns (FetchPage p) s (λ _, sized n k).
Proof.
  intros Hk Hinv Hs. unfold FetchPage. apply returns_gets_bind.
  eapply (returns_bind _ _ _
            (λ a s', sized n k s' ∧ ∀ f, a = Some f -> 0 ≤ f < n)).
  2:{ intros [f|] s1 [Hs1 Hr]; [specialize (Hr f eq_refl)|]; steady. }
  destruct (page_table_ s !! p) as [f|] eqn:Hpt.
  - apply returns_sret. split; [done|]. intros ? [= <-].
    by eapply page_table_range.
  - eapply returns_bind; [by apply FindAndEvictFrame_returns|].
    intros [f|] s1 [Hs1 Hr]; [specialize (Hr f eq_refl)|]; steady.
Qed.

Lemma UnpinPage_returns n k p d s :
  manager_inv s -> sized n k s ->
  returns (UnpinPage p d) s (λ _, sized n k).
Proof.
  intros Hinv Hs. unfold UnpinPage. apply returns_gets_bind.
  destruct (page_table_ s !! p) as [f|] eqn:Hpt; [|steady].
  pose proof (page_table_range _ _ _ _ _ Hinv Hs Hpt) as Hf. steady.
Qed.

Lemma FlushPage_returns n k p s :
  manager_inv s -> sized n k s ->
  returns (FlushPage p) s (λ _, sized n k).
Proof.
  intros Hinv Hs. unfold FlushPage. apply returns_gets_bind.
  destruct (page_table_ s !! p) as [f|] eqn:Hpt; [|steady].
  pose proof (page_table_range _ _ _ _ _ Hinv Hs Hpt) as Hf. steady.
Qed.

Lemma FlushAllPages_returns n k s :
  manager_inv s -> sized n k s ->
  returns FlushAllPages s (λ _, sized n k).
Proof.
  intros Hinv Hs. unfold FlushAllPages. apply returns_gets_bind.
  apply returns_for_each; [|done].
  intros [p f] s0 Hin Hs0. apply elem_of_map_to_list in Hin.
  pose proof (page_table_range _ _ _ _ _ Hinv Hs Hin) as Hf.
  unfold flush_entry. simpl. steady.
Qed.

Lemma DeletePage_returns n k p s :
  manager_inv s -> sized n k s ->
  returns (DeletePage p) s (λ _, sized n k).
Proof.
  intros Hinv Hs. unfold DeletePage. apply returns_gets_bind.
  destruct (page_table_ s !! p) as [f|] eqn:Hpt; [|steady].
  pose proof (page_table_range _ _ _ _ _ Hinv Hs Hpt) as Hf. steady.
Qed.

Lemma perform_returns n k o s :
  1 ≤ k -> manager_inv s -> sized n k s ->
  (∀ f d, o = OWriteData f d -> 0 ≤ f < n) ->
  returns (perform o) s (λ _, sized n k).
Proof.
  intros Hk Hinv Hs Ho. destruct o as [|p|p d|p| |p|f d]; simpl.
  - eapply sized_bind; [apply (NewPage_returns n k); auto | intros; steady].
  - eapply sized_bind; [apply (FetchPage_returns n k); auto | intros; steady].
  - eapply sized_bind; [by apply UnpinPage_returns | intros; steady].
  - eapply sized_bind; [by apply FlushPage_returns | intros; steady].
  - eapply sized_bind; [by apply FlushAllPages_returns | intros; steady].
  - eapply sized_bind; [by apply DeletePage_returns | intros; steady].
  - specialize (Ho f d eq_refl). steady.
Qed.

Lemma perform_sized n k o s r s' :
  1 ≤ k -> manager_inv s -> sized n k s ->
  perform o s = Ok (r, s') -> sized n k s'.
Proof.
  intros Hk Hinv Hs H.
  assert (Ho : ∀ f d, o = OWriteData f d -> 0 ≤ f < n).
  { intros f d ->. simpl in H.
    apply sbind_Ok in H as (u & s1 & (pg & Hpg & _)%update_page_Ok & _).
    apply frame_of_Some_range in Hpg. by rewrite (sz_pages _ _ _ Hs) in Hpg. }
  exact (returns_Ok _ _ _ _ _ (perform_returns n k o s Hk Hinv Hs Ho) H).
Qed.

Lemma reachable_sized pool_size disk k s :
  0 ≤ pool_size -> 1 ≤ k ->
  reachable pool_size disk k s -> sized pool_size k s.
Proof.
  intros Hn Hk Hreach. induction Hreach as [|s o r s' Hreach IH Hvalid Hstep].
  - split; simpl; [|done|done]. rewrite length_replicate. lia.
  - eapply perform_sized; [done | | done | done].
    by eapply reachable_inv.
Qed.

(** X16.  With [k] at least 1, no call of the manager faults in a state
    between two calls: [NewPage], [FetchPage], [UnpinPage], [FlushPage],
    [FlushAllPages] and [DeletePage] return for every argument, and so
    does a store through the buffer of a frame of the pool.  No frame id
    the manager passes to the replacer is out of range, and [Evict] never
    meets an evictable frame without history. *)
Theorem manager_calls_return pool_size disk k s o :
  0 ≤ pool_size -> 1 ≤ k ->
  reachable pool_size disk k s ->
  (∀ f d, o = OWriteData f d -> 0 ≤ f < pool_size) ->
  ∃ r s', perform o s = Ok (r, s').
Proof.
  intros Hn Hk Hreach Ho.
  destruct (perform_returns pool_size k o s Hk) as (r & s' & H & _);
    [by eapply reachable_inv | by apply reachable_sized with disk | done | eauto].
Qed.

Lemma manager_calls_return_witness :
  ∃ r s', perform ONewPage exhausted_pool = Ok (r, s').
Proof.
  apply (manager_calls_return 1 ∅ 2 exhausted_pool ONewPage);
    [lia | lia | apply exhausted_pool_reachable | discriminate].
Defined.

(* ===================================================================== *)
(** * Page guards *)
(* ===================================================================== *)

Lemma BasicPageGuard_Drop_Ok g s g' s' :
  BasicPageGuard_Drop g s = Ok (g', s') ->
  g_page_ g' = None
  ∧ g_bpm_ g' = g_bpm_ g
  ∧ g_is_dirty_ g' = g_is_dirty_ g
  ∧ (g_page_ g = None -> s' = s).
Proof.
  unfold BasicPageGuard_Drop. destruct (g_page_ g) as [f|] eqn:Hg.
  - destruct (g_bpm_ g); [|discriminate]. intros H.
    mstep H. mstep H. by apply sret_Ok in H as [-> _].
  - by intros [-> ->]%sret_Ok.
Qed.

Lemma BasicPageGuard_Drop_empty g s :
  g_page_ g = None -> BasicPageGuard_Drop g s = Ok (g, s).
Proof. intros Hg. unfold BasicPageGuard_Drop. by rewrite Hg. Qed.

(** X17.  A guard is released once.  When [Drop] of a basic, read or
    write guard returns, the guard holds no page, and [Drop] of a guard
    that holds no page returns at once and leaves the pool as it is: the
    destructor after an explicit [Drop], or a second [Drop], unpins
    nothing and releases no latch. *)
Theorem Drop_leaves_guard_empty s :
  (∀ g g' s', BasicPageGuard_Drop g s = Ok (g', s') ->
     g_page_ g' = None ∧ BasicPageGuard_Drop g' s' = Ok (g', s'))
  ∧ (∀ g g' s', ReadPageGuard_Drop g s = Ok (g', s') ->
       g_page_ (r_guard_ g') = None ∧ ReadPageGuard_Drop g' s' = Ok (g', s'))
  ∧ (∀ g g' s', WritePageGuard_Drop g s = Ok (g', s') ->
       g_page_ (w_guard_ g') = None ∧ WritePageGuard_Drop g' s' = Ok (g', s')).
Proof.
  split; [|split].
  - intros g g' s' H. apply BasicPageGuard_Drop_Ok in H as (Hg & _).
    split; [done | by apply BasicPageGuard_Drop_empty].
  - intros [g] [g'] s' H. unfold ReadPageGuard_Drop in *. simpl in *.
    assert (Hg : g_page_ g' = None).
    { destruct (g_page_ g) as [f|] eqn:Hg.
      - mstep H. apply sbind_Ok in H as (g1 & s1 & Hd & H).
        apply sret_Ok in H as [[= ->] _].
        by apply BasicPageGuard_Drop_Ok in Hd as (Hd & _).
      - by apply sret_Ok in H as [[= ->] _]. }
    by rewrite Hg.
  - intros [g] [g'] s' H. unfold WritePageGuard_Drop in *. simpl in *.
    assert (Hg : g_page_ g' = None).
    { destruct (g_page_ g) as [f|] eqn:Hg.
      - mstep H. apply sbind_Ok in H as (g1 & s1 & Hd & H).
        apply sret_Ok in H as [[= ->] _].
        by apply BasicPageGuard_Drop_Ok in Hd as (Hd & _).
      - by apply sret_Ok in H as [[= ->] _]. }
    by rewrite Hg.
Qed.

Lemma same_latches_with_frame s f pg pg' :
  frame s f = Some pg -> rwlatch_ pg' = rwlatch_ pg ->
  same_latches s (with_frame f pg' s).
Proof.
  intros Hpg Hl g. unfold latch_of, frame, with_frame in *. simpl.
  rewrite (frame_of_insert _ _ _ _ _ Hpg). case_decide as Hfg; [|done].
  subst g. rewrite Hpg. simpl. by rewrite Hl.
Qed.

Lemma same_latches_set_replacer s r : same_latches s (set_replacer r s).
Proof. by intros g. Qed.

Lemma UnpinPage_same_latches p d : preserves same_latches (UnpinPage p d).
Proof.
  unfold UnpinPage. preserves_tac;
    try (apply preserves_update_page; intros s pg Hpg;
         by apply (same_latches_with_frame _ _ pg));
    try (apply preserves_with_replacer; apply same_latches_set_replacer).
Qed.

Lemma BasicPageGuard_Drop_same_latches g :
  preserves same_latches (BasicPageGuard_Drop g).
Proof.
  unfold BasicPageGuard_Drop. preserves_tac.
  apply UnpinPage_same_latches.
Qed.

Lemma BasicPageGuard_assign_Ok this that s res s' :
  BasicPageGuard_assign this that s = Ok (res, s') ->
  res.1 = that ∧ g_page_ res.2 = None ∧ same_latches s s'.
Proof.
  unfold BasicPageGuard_assign. intros (this' & s1 & Hd & H)%sbind_Ok.
  apply sret_Ok in H as [-> ->]. simpl.
  split; [by destruct that|].
  split; [by apply BasicPageGuard_Drop_Ok in Hd as (Hd & _)|].
  by apply BasicPageGuard_Drop_same_latches in Hd.
Qed.

Lemma BasicPageGuard_assign_self_Ok g s g' s' :
  BasicPageGuard_assign_self g s = Ok (g', s') ->
  g_page_ g' = None ∧ same_latches s s'.
Proof.
  unfold BasicPageGuard_assign_self. intros (g1 & s1 & Hd & H)%sbind_Ok.
  apply sret_Ok in H as [-> ->]. simpl.
  split; [by apply BasicPageGuard_Drop_Ok in Hd as (Hd & _)|].
  by apply BasicPageGuard_Drop_same_latches in Hd.
Qed.

(** X18.  The move assignments of the read and of the write guard release
    no latch.  Between two distinct guards: when the assignment returns,
    the target holds what the source held, the source holds no page, and
    the latch of every frame is as it was before, so the latch the target
    held on its old page is not released.  Of a guard to itself: the guard
    ends up holding no page, and again every latch is as it was. *)
Theorem guard_assignment_releases_no_latch s :
  (∀ this that res s',
     ReadPageGuard_assign this that s = Ok (res, s') ->
     res.1 = that ∧ g_page_ (r_guard_ res.2) = None
     ∧ ∀ f, latch_of s' f = latch_of s f)
  ∧ (∀ this that res s',
       WritePageGuard_assign this that s = Ok (res, s') ->
       res.1 = that ∧ g_page_ (w_guard_ res.2) = None
       ∧ ∀ f, latch_of s' f = latch_of s f)
  ∧ (∀ g g' s',
       ReadPageGuard_assign_self g s = Ok (g', s') ->
       g_page_ (r_guard_ g') = None ∧ ∀ f, latch_of s' f = latch_of s f)
  ∧ (∀ g g' s',
       WritePageGuard_assign_self g s = Ok (g', s') ->
       g_page_ (w_guard_ g') = None ∧ ∀ f, latch_of s' f = latch_of s f).
Proof.
  split; [|split; [|split]].
  - intros [this] [that] res s'. unfold ReadPageGuard_assign. simpl.
    intros (gs & s1 & Ha & H)%sbind_Ok. apply sret_Ok in H as [-> ->].
    apply BasicPageGuard_assign_Ok in Ha as (-> & Hnone & Hl). done.
  - intros [this] [that] res s'. unfold WritePageGuard_assign. simpl.
    intros (gs & s1 & Ha & H)%sbind_Ok. apply sret_Ok in H as [-> ->].
    apply BasicPageGuard_assign_Ok in Ha as (-> & Hnone & Hl). done.
  - intros [g] g' s'. unfold ReadPageGuard_assign_self. simpl.
    intros (g1 & s1 & Ha & H)%sbind_Ok. apply sret_Ok in H as [-> ->].
    by apply BasicPageGuard_assign_self_Ok in Ha.
  - intros [g] g' s'. unfold WritePageGuard_assign_self. simpl.
    intros (g1 & s1 & Ha & H)%sbind_Ok. apply sret_Ok in H as [-> ->].
    by apply BasicPageGuard_assign_self_Ok in Ha.
Qed.

Lemma unpinned_after_pin pg :
  unpinned false (set_pin_count (pin_count_ pg + 1) pg) = pg.
Proof.
  destruct pg as [d i n b l]. unfold unpinned, set_pin_count. simpl.
  f_equal; [lia | by destruct b].
Qed.

Lemma frame_of_insert_id ps f pg :
  frame_of ps f = Some pg -> <[Z.to_nat f := pg]> ps = ps.
Proof.
  unfold frame_of. destruct (f <? 0); [discriminate|]. apply list_insert_id.
Qed.

(** Fetching a resident page through a basic guard and dropping the
    guard, from explicit facts about the frame. *)
Lemma FetchPageBasic_Drop p f pg s :
  page_table_ s !! p = Some f ->
  frame s f = Some pg ->
  page_id_ pg = p ->
  0 ≤ pin_count_ pg ->
  0 ≤ f < replacer_size_ (replacer_ s) ->
  (f ∈ evictable_ (replacer_ s) <-> pin_count_ pg = 0) ->
  ∃ s1 r2 s2,
    FetchPageBasic p s = Ok (mkBasicPageGuard true (Some f) false, s1)
    ∧ frame s1 f = Some (set_pin_count (pin_count_ pg + 1) pg)
    ∧ BasicPageGuard_Drop (mkBasicPageGuard true (Some f) false) s1
      = Ok (mkBasicPageGuard true None false, s2)
    ∧ pinned_replacer f (replacer_ s) r2
    ∧ s2 = mkBufferPoolManager (pool_size_ s) (pages_ s) (page_table_ s)
             (free_list_ s) (set_evictable_ (evictable_ (replacer_ s)) r2)
             (next_page_id_ s) (disk_ s) (log_ s).
Proof.
  intros Hpt Hpg Hid Hpin Hf Hev.
  destruct (FetchPage_hit _ _ _ _ Hpt Hpg Hf) as (r2 & Hfetch & Hr2).
  eexists _, r2, _.
  split; [unfold FetchPageBasic; by rewrite (sbind_eq _ _ _ _ _ Hfetch)|].
  assert (Hpg1 : frame
            (mkBufferPoolManager (pool_size_ s)
               (<[Z.to_nat f := set_pin_count (pin_count_ pg + 1) pg]> (pages_ s))
               (page_table_ s) (free_list_ s) r2 (next_page_id_ s)
               (disk_ s) (log_ s)) f
          = Some (set_pin_count (pin_count_ pg + 1) pg)).
  { unfold frame in *. simpl. by rewrite (frame_of_insert_eq _ _ _ _ Hpg). }
  split; [exact Hpg1|].
  split; [|split; [exact Hr2 | reflexivity]].
  unfold BasicPageGuard_Drop. simpl.
  rewrite (sbind_eq _ _ _ _ _ (page_at_frame _ _ _ Hpg1)). simpl. rewrite Hid.
  erewrite sbind_eq.
  2:{ apply (UnpinPage_pinned p false f
               (set_pin_count (pin_count_ pg + 1) pg)); simpl;
        [done | exact Hpg1 | lia | by rewrite (pr_size _ _ _ Hr2)]. }
  unfold sret. simpl. do 2 f_equal.
  rewrite list_insert_insert_eq, unpinned_after_pin.
  unfold frame in Hpg. rewrite (frame_of_insert_id _ _ _ Hpg).
  f_equal. pose proof (pr_evictable _ _ _ Hr2) as Hev2.
  replace (pin_count_ pg + 1 - 1) with (pin_count_ pg) by lia.
  destruct r2 as [ns ev t n k]. unfold set_evictable_. simpl in *. subst ev.
  destruct (pin_count_ pg =? 0) eqn:E.
  - apply Z.eqb_eq in E. apply Hev in E. f_equal.
    apply set_eq. intros g. destruct (decide (g = f)); set_solver.
  - apply Z.eqb_neq in E.
    assert (f ∉ evictable_ (replacer_ s)) by (intros ?; by apply E, Hev).
    f_equal. set_solver.
Qed.

(** X19.  Fetching a resident page through [FetchPageBasic] and dropping
    the guard gives back the pool as it was: the frames (pin counts and
    dirty flags included), the page table, the free list, the evictable
    set, the disk and the log are unchanged, and no disk call is made.
    What remains is the access the replacer recorded for the frame. *)
Theorem FetchPageBasic_then_Drop_restores_pool pool_size disk k s p f :
  0 ≤ pool_size ->
  reachable pool_size disk k s ->
  page_table_ s !! p = Some f ->
  ∃ g s1 g' s2,
    FetchPageBasic p s = Ok (g, s1)
    ∧ g_page_ g = Some f
    ∧ (∃ pg, frame s f = Some pg
           ∧ frame s1 f = Some (set_pin_count (pin_count_ pg + 1) pg))
    ∧ BasicPageGuard_Drop g s1 = Ok (g', s2)
    ∧ g_page_ g' = None
    ∧ pages_ s2 = pages_ s
    ∧ page_table_ s2 = page_table_ s
    ∧ free_list_ s2 = free_list_ s
    ∧ evictable_ (replacer_ s2) = evictable_ (replacer_ s)
    ∧ (∀ h, h ≠ f -> history_ (replacer_ s2) h = history_ (replacer_ s) h)
    ∧ next_page_id_ s2 = next_page_id_ s
    ∧ disk_ s2 = disk_ s
    ∧ log_ s2 = log_ s.
Proof.
  intros Hn Hreach Hpt.
  pose proof (reachable_inv _ _ _ _ Hn Hreach) as Hinv.
  destruct (mi_page_table _ Hinv _ _ Hpt) as (Hnf & pg & Hpg & Hid).
  pose proof (mi_frames _ Hinv _ _ Hpg) as Hfi.
  pose proof (frame_of_Some_range _ _ _ Hpg) as Hr.
  rewrite (mi_pages_length _ Hinv), <- (mi_replacer_size _ Hinv) in Hr.
  destruct (FetchPageBasic_Drop p f pg s Hpt Hpg Hid)
    as (s1 & r2 & s2 & Hfetch & Hpg1 & Hdrop & Hr2 & ->);
    [by apply (fi_used_pin _ _ _ Hfi) | done
    | by apply (fi_used_evictable _ _ _ Hfi) |].
  eexists _, s1, _, _. split; [exact Hfetch|]. split; [done|].
  split; [by exists pg|]. split; [exact Hdrop|]. simpl.
  repeat (split; [done|]). split; [|done].
  intros h Hh. by apply (pr_history _ _ _ Hr2).
Qed.

Lemma FetchPageBasic_then_Drop_restores_pool_witness :
  ∃ g s1 g' s2,
    FetchPageBasic 0 pool_of_two_pages = Ok (g, s1)
    ∧ g_page_ g = Some 0
    ∧ (∃ pg, frame pool_of_two_pages 0 = Some pg
           ∧ frame s1 0 = Some (set_pin_count (pin_count_ pg + 1) pg))
    ∧ BasicPageGuard_Drop g s1 = Ok (g', s2)
    ∧ g_page_ g' = None
    ∧ pages_ s2 = pages_ pool_of_two_pages
    ∧ page_table_ s2 = page_table_ pool_of_two_pages
    ∧ free_list_ s2 = free_list_ pool_of_two_pages
    ∧ evictable_ (replacer_ s2) = evictable_ (replacer_ pool_of_two_pages)
    ∧ (∀ h, h ≠ 0 -> history_ (replacer_ s2) h
                     = history_ (replacer_ pool_of_two_pages) h)
    ∧ next_page_id_ s2 = next_page_id_ pool_of_two_pages
    ∧ disk_ s2 = disk_ pool_of_two_pages
    ∧ log_ s2 = log_ pool_of_two_pages.
Proof.
  apply (FetchPageBasic_then_Drop_restores_pool 2 ∅ 2 pool_of_two_pages 0 0).
  - lia.
  - apply pool_of_two_pages_reachable.
  - vm_compute. reflexivity.
Defined.

(* ===================================================================== *)
(** * FlushAllPages *)
(* ===================================================================== *)

Lemma flush_entry_inv p f s s' :
  flush_entry (p, f) s = Ok (tt, s') ->
  ∃ pg, frame s f = Some pg
      ∧ s' = mkBufferPoolManager (pool_size_ s)
               (<[Z.to_nat f := set_is_dirty false pg]> (pages_ s))
               (page_table_ s) (free_list_ s) (replacer_ s) (next_page_id_ s)
               (<[p := data_ pg]> (disk_ s))
               (log_ s ++ [EvWritePage p (data_ pg)]).
Proof.
  unfold flush_entry. cbn [fst snd]. intros H.
  mstep H. apply page_at_Ok in Hstep as [Hpg ->].
  mstep H. apply update_page_Ok in H as (pg' & Hpg' & ->).
  unfold frame in *. simpl in Hpg'. rewrite Hpg in Hpg'. injection Hpg' as <-.
  by exists a.
Qed.

Lemma set_is_dirty_idemp b pg :
  set_is_dirty b (set_is_dirty b pg) = set_is_dirty b pg.
Proof. done. Qed.

Lemma for_each_flush_entry_flushes l s s' :
  (∀ p f f', (p, f) ∈ l -> (p, f') ∈ l -> f = f') ->
  for_each l flush_entry s = Ok (tt, s') ->
  page_table_ s' = page_table_ s
  ∧ free_list_ s' = free_list_ s
  ∧ replacer_ s' = replacer_ s
  ∧ next_page_id_ s' = next_page_id_ s
  ∧ (∀ g, frame s' g
          = (λ pg, if bool_decide (g ∈ l.*2) then set_is_dirty false pg else pg)
              <$> frame s g)
  ∧ (∀ p f, (p, f) ∈ l ->
       ∃ pg, frame s f = Some pg ∧ disk_ s' !! p = Some (data_ pg))
  ∧ (∀ q, q ∉ l.*1 -> disk_ s' !! q = disk_ s !! q)
  ∧ ∃ evs, log_ s' = log_ s ++ evs
         ∧ length evs = length l
         ∧ ∀ e, e ∈ evs -> ∃ p d, e = EvWritePage p d.
Proof.
  revert s. induction l as [|[p0 f0] l IH]; intros s Hfun H; simpl in H.
  - apply sret_Ok in H as [_ ->].
    repeat (split; [done|]). split.
    { intros g. simpl. by destruct (frame s g). }
    split; [intros p f Hin; by apply elem_of_nil in Hin|].
    split; [done|]. exists []. rewrite app_nil_r.
    split; [done|]. split; [done|]. intros e He. by apply elem_of_nil in He.
  - apply sbind_Ok in H as ([] & s1 & Hfe & H).
    apply flush_entry_inv in Hfe as (pg0 & Hpg0 & ->).
    apply IH in H as (Hpt & Hfl & Hr & Hnp & Hfr & Hdisk & Hother & evs & Hlog & Hlen & Hevs).
    2:{ intros p f f' Hf Hf'. apply (Hfun p); by right. }
    unfold frame in *. simpl in *.
    assert (Hfr1 : ∀ g, frame_of (<[Z.to_nat f0 := set_is_dirty false pg0]> (pages_ s)) g
                        = if decide (f0 = g) then Some (set_is_dirty false pg0)
                          else frame_of (pages_ s) g).
    { intros g. apply (frame_of_insert _ _ _ _ _ Hpg0). }
    repeat (split; [done|]). split; [|split; [|split]].
    + intros g. rewrite Hfr, Hfr1. case_decide as Hg.
      * subst g. rewrite Hpg0. simpl.
        rewrite (bool_decide_eq_true_2 (f0 ∈ f0 :: _)) by left.
        by case_bool_decide.
      * destruct (frame_of (pages_ s) g) as [pg|]; [|done]. simpl. f_equal.
        case_bool_decide as H1; case_bool_decide as H2; try done.
        -- exfalso. apply H2. by right.
        -- exfalso. apply elem_of_cons in H2 as [->|H2]; done.
    + intros p f Hin.
      assert (Hrest : (p, f) ∈ l ->
                ∃ pg, frame_of (pages_ s) f = Some pg
                    ∧ disk_ s' !! p = Some (data_ pg)).
      { intros Hin'. destruct (Hdisk _ _ Hin') as (pg1 & Hpg1 & Hd).
        rewrite Hfr1 in Hpg1. case_decide as Hg.
        - subst f. injection Hpg1 as <-. by exists pg0.
        - by exists pg1. }
      apply elem_of_cons in Hin as [[= -> ->]|Hin]; [|by apply Hrest].
      destruct (decide (p0 ∈ l.*1)) as [Hp0|Hp0].
      * apply list_elem_of_fmap in Hp0 as ([q f'] & -> & Hin'). simpl in *.
        assert (f' = f0) as -> by (apply (Hfun q); [by right | left]).
        by apply Hrest.
      * exists pg0. split; [done|].
        rewrite (Hother _ Hp0). by rewrite lookup_insert_eq.
    + intros q Hq. rewrite Hother.
      * apply lookup_insert_ne. intros ->. apply Hq. left.
      * intros Hq'. apply Hq. by right.
    + exists (EvWritePage p0 (data_ pg0) :: evs).
      split; [by rewrite Hlog, <- app_assoc|].
      split; [simpl; by rewrite Hlen|].
      intros e [->|He]%elem_of_cons; [eauto | by apply Hevs].
Qed.

(** X20.  When [FlushAllPages] returns, every page of the page table
    has been written to disk with the bytes of its frame and its dirty
    flag is clear, with one [WritePage] for each entry, dirty or not;
    nothing else of a frame changes, frames that hold no page of the table
    are untouched, and so are the page table, the free list, the replacer
    and the disk contents of pages that are not resident. *)
Theorem FlushAllPages_writes_every_resident_page s s' :
  FlushAllPages s = Ok (tt, s') ->
  (∀ p f, page_table_ s !! p = Some f ->
     ∃ pg, frame s f = Some pg
         ∧ frame s' f = Some (set_is_dirty false pg)
         ∧ disk_ s' !! p = Some (data_ pg))
  ∧ (∀ g, (∀ p, page_table_ s !! p ≠ Some g) -> frame s' g = frame s g)
  ∧ (∀ q, page_table_ s !! q = None -> disk_ s' !! q = disk_ s !! q)
  ∧ page_table_ s' = page_table_ s
  ∧ free_list_ s' = free_list_ s
  ∧ replacer_ s' = replacer_ s
  ∧ ∃ evs, log_ s' = log_ s ++ evs
         ∧ length evs = size (page_table_ s)
         ∧ ∀ e, e ∈ evs -> ∃ p d, e = EvWritePage p d.
Proof.
  unfold FlushAllPages. intros H. mstep H.
  apply for_each_flush_entry_flushes in H
    as (Hpt & Hfl & Hr & _ & Hfr & Hdisk & Hother & evs & Hlog & Hlen & Hevs).
  2:{ intros p f f' Hf%elem_of_map_to_list Hf'%elem_of_map_to_list. congruence. }
  split; [|split; [|split; [|split; [|split; [|split]]]]]; try done.
  - intros p f Hp.
    destruct (Hdisk p f) as (pg & Hpg & Hd); [by apply elem_of_map_to_list|].
    exists pg. split; [done|]. split; [|done].
    rewrite Hfr, Hpg. simpl. rewrite bool_decide_eq_true_2; [done|].
    apply list_elem_of_fmap. exists (p, f). split; [done|].
    by apply elem_of_map_to_list.
  - intros g Hg. rewrite Hfr. destruct (frame s g) as [pg|]; [|done]. simpl.
    rewrite bool_decide_eq_false_2; [done|].
    intros ([p f] & -> & Hin%elem_of_map_to_list)%list_elem_of_fmap.
    by apply (Hg p).
  - intros q Hq. apply Hother.
    intros ([p f] & -> & Hin%elem_of_map_to_list)%list_elem_of_fmap.
    simpl in Hq. congruence.
  - exists evs. split; [done|]. split; [|done].
    by rewrite Hlen, length_map_to_list.
Qed.

Lemma FlushAllPages_writes_every_resident_page_witness :
  (∀ p f, page_table_ pool_with_dirty_page !! p = Some f ->
     ∃ pg, frame pool_with_dirty_page f = Some pg
         ∧ frame (state_after [OFlushAllPages] pool_with_dirty_page) f
           = Some (set_is_dirty false pg)
         ∧ disk_ (state_after [OFlushAllPages] pool_with_dirty_page) !! p
           = Some (data_ pg))
  ∧ (∀ g, (∀ p, page_table_ pool_with_dirty_page !! p ≠ Some g) ->
         frame (state_after [OFlushAllPages] pool_with_dirty_page) g
         = frame pool_with_dirty_page g)
  ∧ (∀ q, page_table_ pool_with_dirty_page !! q = None ->
         disk_ (state_after [OFlushAllPages] pool_with_dirty_page) !! q
         = disk_ pool_with_dirty_page !! q)
  ∧ page_table_ (state_after [OFlushAllPages] pool_with_dirty_page)
    = page_table_ pool_with_dirty_page
  ∧ free_list_ (state_after [OFlushAllPages] pool_with_dirty_page)
    = free_list_ pool_with_dirty_page
  ∧ replacer_ (state_after [OFlushAllPages] pool_with_dirty_page)
    = replacer_ pool_with_dirty_page
  ∧ ∃ evs, log_ (state_after [OFlushAllPages] pool_with_dirty_page)
           = log_ pool_with_dirty_page ++ evs
         ∧ length evs = size (page_table_ pool_with_dirty_page)
         ∧ ∀ e, e ∈ evs -> ∃ p d, e = EvWritePage p d.
Proof.
  apply (FlushAllPages_writes_every_resident_page pool_with_dirty_page).
  vm_compute. reflexivity.
Defined.

(* ===================================================================== *)
(** * Deleting a page and fetching it again *)
(* ===================================================================== *)

(** X21.  A dirty, unpinned page that is deleted and then fetched comes
    back with the bytes it had: [DeletePage] writes them to disk before it
    zeroes the frame, and the following [FetchPage], which takes the frame
    at the head of the free list without evicting anything, reads them
    into it.  The page comes back pinned once and clean. *)
Theorem deleted_dirty_page_is_read_back pool_size disk k s p f pg :
  0 ≤ pool_size ->
  reachable pool_size disk k s ->
  page_table_ s !! p = Some f ->
  frame s f = Some pg ->
  pin_count_ pg = 0 ->
  is_dirty_ pg = true ->
  ∃ s1 g s2 l,
    DeletePage p s = Ok (true, s1)
    ∧ page_table_ s1 !! p = None
    ∧ head (free_list_ s1) = Some g
    ∧ FetchPage p s1 = Ok (Some g, s2)
    ∧ frame s2 g = Some (mkPage (data_ pg) p 1 false l)
    ∧ page_table_ s2 !! p = Some g.
Proof.
  intros Hn Hreach Hpt Hpg Hpin Hdirty.
  pose proof (reachable_inv _ _ _ _ Hn Hreach) as Hinv.
  assert (Hdel : DeletePage p s = Ok (true, deleted p f pg s))
    by (apply DeletePage_unpinned; [done | done | lia]).
  pose proof (so_inv _ _ (DeletePage_step _ _ _ _ Hinv Hdel)) as Hinv1.
  set (s1 := deleted p f pg s) in *.
  assert (Hpt1 : page_table_ s1 !! p = None) by (simpl; apply lookup_delete_eq).
  assert (Hfl1 : free_list_ s1 ≠ []).
  { simpl. intros Hnil. by apply app_nil in Hnil as [_ [=]]. }
  destruct (FetchPage_returns _ _ p s1 (λ H, False_ind _ (Hfl1 H)) Hinv1
              (manager_inv_sized _ Hinv1)) as (res & s2 & Hfetch & _).
  destruct res as [g|].
  2:{ by apply FetchPage_None in Hfetch as (_ & Hnil & _). }
  destruct (FetchPage_miss_inv _ _ _ _ Hpt1 Hfetch)
    as (s1' & pg0 & r2 & Hfind & Hpg0 & _ & Hs2).
  pose proof (FindAndEvictFrame_clean _ _ _ _ Hinv1 Hfind Hpg0) as Hclean.
  apply FindAndEvictFrame_Ok in Hfind
    as [(g' & rest & Hfl & [= <-] & ->)
       |[(Hnil & _) | (v & pgv & Hnil & _)]]; [|done|done].
  exists s1, g, s2, (rwlatch_ pg0).
  split; [done|]. split; [done|]. split; [by rewrite Hfl|]. split; [done|].
  subst s2. unfold frame in *. simpl in *.
  rewrite (frame_of_insert_eq _ _ _ _ Hpg0), lookup_insert_eq, Hclean, Hdirty.
  by rewrite lookup_insert_eq.
Qed.

Lemma deleted_dirty_page_is_read_back_witness :
  ∃ s1 g s2 l,
    DeletePage 0 pool_with_dirty_page = Ok (true, s1)
    ∧ page_table_ s1 !! 0 = None
    ∧ head (free_list_ s1) = Some g
    ∧ FetchPage 0 s1 = Ok (Some g, s2)
    ∧ frame s2 g = Some (mkPage (data_ (mkPage [Byte.x2a] 0 0 true (mkLatch 0 false)))
                           0 1 false l)
    ∧ page_table_ s2 !! 0 = Some g.
Proof.
  apply (deleted_dirty_page_is_read_back 1 ∅ 2 pool_with_dirty_page 0 0
           (mkPage [Byte.x2a] 0 0 true (mkLatch 0 false))).
  - lia.
  - apply pool_with_dirty_page_reachable.
  - vm_compute. reflexivity.
  - vm_compute. reflexivity.
  - reflexivity.
  - reflexivity.
Defined.

(* ===================================================================== *)
(** * The size of the replacer *)
(* ===================================================================== *)

Lemma size_in_range (X : gset Z) (n : Z) :
  (∀ f, f ∈ X -> 0 ≤ f < n) -> Z.of_nat (size X) ≤ Z.max 0 n.
Proof.
  intros HX.
  assert (Hsub : X ⊆ list_to_set (Z.of_nat <$> seq 0 (Z.to_nat n))).
  { intros f Hf. apply HX in Hf. apply elem_of_list_to_set, list_elem_of_fmap.
    exists (Z.to_nat f). split; [lia|]. apply elem_of_seq. lia. }
  apply subseteq_size in Hsub.
  rewrite size_list_to_set in Hsub.
  - rewrite length_fmap, length_seq in Hsub. lia.
  - apply NoDup_fmap; [apply _ | apply NoDup_seq].
Qed.

(** X22.  In every state of a replacer built for [num_frames] frames,
    every evictable frame id lies in [0, num_frames), so [Size] never
    exceeds the number of frames. *)
Theorem Size_at_most_num_frames num_frames k r :
  replacer_reachable num_frames k r ->
  (∀ f, f ∈ evictable_ r -> 0 ≤ f < num_frames)
  ∧ 0 ≤ Size r ≤ Z.max 0 num_frames.
Proof.
  intros (Hin & Hn & _)%replacer_reachable_in_range.
  unfold evictable_in_range in Hin. rewrite Hn in Hin.
  split; [done|]. unfold Size. split; [lia | by apply size_in_range].
Qed.

Lemma Size_at_most_num_frames_witness :
  (∀ f, f ∈ evictable_ replacer_example -> 0 ≤ f < 2)
  ∧ 0 ≤ Size replacer_example ≤ Z.max 0 2.
Proof.
  apply (Size_at_most_num_frames 2 2 replacer_example).
  apply replacer_example_reachable.
Defined.

(* ===================================================================== *)
(** * NewPageGuarded *)
(* ===================================================================== *)

(** X23.  [NewPageGuarded] on a pool in which nothing can be taken
    returns a guard that holds no page, and dropping it does nothing.
    Otherwise the guard holds the frame of the new page, and dropping it
    takes the only pin away: the page stays resident in its frame, zeroed
    and clean, with pin count 0, and the frame is evictable. *)
Theorem NewPageGuarded_then_Drop pool_size disk k s pid g s1 :
  0 ≤ pool_size ->
  reachable pool_size disk k s ->
  NewPageGuarded s = Ok ((pid, g), s1) ->
  (pid = None ∧ g_page_ g = None ∧ s1 = s
   ∧ BasicPageGuard_Drop g s1 = Ok (g, s1))
  ∨ (∃ p f g' s2 l,
       pid = Some p ∧ p = next_page_id_ s ∧ g_page_ g = Some f
       ∧ BasicPageGuard_Drop g s1 = Ok (g', s2)
       ∧ g_page_ g' = None
       ∧ frame s2 f = Some (mkPage zero_page p 0 false l)
       ∧ is_evictable s2 f
       ∧ page_table_ s2 !! p = Some f).
Proof.
  intros Hn Hreach H.
  pose proof (reachable_inv _ _ _ _ Hn Hreach) as Hinv.
  unfold NewPageGuarded in H. apply sbind_Ok in H as (res & s1' & Hnew & H).
  apply sret_Ok in H as [[= -> ->] ->].
  destruct res as [[p f]|]; simpl.
  2:{ left. apply NewPage_None in Hnew as (_ & _ & ->). done. }
  right.
  pose proof (so_inv _ _ (proj1 (NewPage_step _ _ _ Hinv Hnew))) as Hinv1.
  destruct (NewPage_Some_inv _ _ _ _ Hnew)
    as (s0 & pg0 & r2 & Hfind & Hpg0 & Hr2 & Hp & Hs1).
  pose proof (FindAndEvictFrame_clean _ _ _ _ Hinv Hfind Hpg0) as Hclean.
  assert (Hnext : next_page_id_ s0 = next_page_id_ s).
  { by apply (untouched_FindAndEvictFrame same_next_page_id) in Hfind. }
  assert (Hpg1 : frame s1' f = Some (mkPage zero_page p 1 false (rwlatch_ pg0))).
  { subst s1'. unfold frame in *. simpl.
    by rewrite (frame_of_insert_eq _ _ _ _ Hpg0), Hclean. }
  assert (Hpt1 : page_table_ s1' !! p = Some f).
  { subst s1'. simpl. by rewrite lookup_insert_eq. }
  assert (Hf : 0 ≤ f < replacer_size_ (replacer_ s1')).
  { rewrite (mi_replacer_size _ Hinv1), <- (mi_pages_length _ Hinv1).
    by apply frame_of_Some_range in Hpg1. }
  pose proof (UnpinPage_pinned p false f _ s1' Hpt1 Hpg1) as Hunpin.
  simpl in Hunpin. specialize (Hunpin ltac:(lia) Hf).
  eexists p, f, _, _, (rwlatch_ pg0).
  split; [done|]. split; [congruence|]. split; [done|].
  split.
  { unfold BasicPageGuard_Drop, BasicPageGuard_new. simpl.
    rewrite (sbind_eq _ _ _ _ _ (page_at_frame _ _ _ Hpg1)). simpl.
    rewrite (sbind_eq _ _ _ _ _ Hunpin). reflexivity. }
  split; [done|]. unfold frame, is_evictable in *. simpl.
  split; [by rewrite (frame_of_insert_eq _ _ _ _ Hpg1)|].
  split; [set_solver | done].
Qed.

Lemma NewPageGuarded_then_Drop_witness :
  (Some 1 = None
   ∧ g_page_ (mkBasicPageGuard true (Some 0) false) = None
   ∧ state_after [ONewPage] pool_with_dirty_page = pool_with_dirty_page
   ∧ BasicPageGuard_Drop (mkBasicPageGuard true (Some 0) false)
       (state_after [ONewPage] pool_with_dirty_page)
     = Ok (mkBasicPageGuard true (Some 0) false,
           state_after [ONewPage] pool_with_dirty_page))
  ∨ (∃ p f g' s2 l,
       Some 1 = Some p ∧ p = next_page_id_ pool_with_dirty_page
       ∧ g_page_ (mkBasicPageGuard true (Some 0) false) = Some f
       ∧ BasicPageGuard_Drop (mkBasicPageGuard true (Some 0) false)
           (state_after [ONewPage] pool_with_dirty_page)
         = Ok (g', s2)
       ∧ g_page_ g' = None
       ∧ frame s2 f = Some (mkPage zero_page p 0 false l)
       ∧ is_evictable s2 f
       ∧ page_table_ s2 !! p = Some f).
Proof.
  apply (NewPageGuarded_then_Drop 1 ∅ 2 pool_with_dirty_page (Some 1)
           (mkBasicPageGuard true (Some 0) false)
           (state_after [ONewPage] pool_with_dirty_page)).
  - lia.
  - apply pool_with_dirty_page_reachable.
  - vm_compute. reflexivity.
Defined.

(* ===================================================================== *)
(** * A fresh pool *)
(* ===================================================================== *)

Lemma NewPage_from_free_list s g rest :
  manager_inv s ->
  free_list_ s = g :: rest ->
  ∃ s', NewPage s = Ok (Some (next_page_id_ s, g), s')
      ∧ free_list_ s' = rest
      ∧ next_page_id_ s' = next_page_id_ s + 1
      ∧ evictable_ (replacer_ s') = evictable_ (replacer_ s) ∖ {[g]}
      ∧ page_table_ s' = <[next_page_id_ s := g]> (page_table_ s)
      ∧ disk_ s' = disk_ s
      ∧ log_ s' = log_ s ++ [EvResetMemory g].
Proof.
  intros Hinv Hfl.
  assert (Hne : free_list_ s = [] -> 1 ≤ k_ (replacer_ s))
    by (rewrite Hfl; discriminate).
  destruct (NewPage_returns _ _ s Hne Hinv (manager_inv_sized _ Hinv))
    as (res & s' & Hnew & _).
  destruct res as [[p f]|].
  2:{ apply NewPage_None in Hnew as (Hnil & _). congruence. }
  destruct (NewPage_Some_inv _ _ _ _ Hnew)
    as (s0 & pg0 & r2 & Hfind & Hpg0 & Hr2 & Hp & Hs').
  apply FindAndEvictFrame_Ok in Hfind
    as [(g' & rest' & Hfl' & [= <-] & ->)
       |[(Hnil & _) | (v & pgv & Hnil & _)]]; [|congruence|congruence].
  rewrite Hfl in Hfl'. injection Hfl' as <- <-. simpl in *. subst p.
  exists s'. split; [done|]. subst s'. simpl.
  split; [done|]. split; [done|]. split; [apply (pr_evictable _ _ _ Hr2)|].
  done.
Qed.

Lemma NewPage_nothing_to_take s :
  free_list_ s = [] -> evictable_ (replacer_ s) = ∅ ->
  NewPage s = Ok (None, s).
Proof.
  intros Hfl Hev. unfold NewPage.
  by rewrite (sbind_eq _ _ _ _ _ (FindAndEvictFrame_nothing _ Hfl Hev)).
Qed.

Lemma run_NewPage_from_free_list pool_size disk k m : ∀ i s,
  0 ≤ pool_size ->
  reachable pool_size disk k s ->
  free_list_ s = Z.of_nat <$> seq i m ->
  next_page_id_ s = Z.of_nat i ->
  evictable_ (replacer_ s) = ∅ ->
  ∃ s', run (replicate m ONewPage) s
        = Ok ((λ j, RNewPage (Some (Z.of_nat j, Z.of_nat j))) <$> seq i m, s')
      ∧ reachable pool_size disk k s'
      ∧ free_list_ s' = []
      ∧ evictable_ (replacer_ s') = ∅
      ∧ next_page_id_ s' = Z.of_nat (i + m)
      ∧ disk_ s' = disk_ s
      ∧ log_ s' = log_ s ++ ((λ j, EvResetMemory (Z.of_nat j)) <$> seq i m).
Proof.
  induction m as [|m IH]; intros i s Hn Hreach Hfl Hnext Hev; simpl.
  - exists s. rewrite Nat.add_0_r, app_nil_r. done.
  - pose proof (reachable_inv _ _ _ _ Hn Hreach) as Hinv. simpl in Hfl.
    destruct (NewPage_from_free_list _ _ _ Hinv Hfl)
      as (s1 & Hnew & Hfl1 & Hnext1 & Hev1 & _ & Hdisk1 & Hlog1).
    assert (Hperform : perform ONewPage s
                       = Ok (RNewPage (Some (Z.of_nat i, Z.of_nat i)), s1)).
    { simpl. rewrite (sbind_eq _ _ _ _ _ Hnew). by rewrite Hnext. }
    destruct (IH (S i) s1) as (s' & Hrun & Hreach' & Hfl' & Hev' & Hnext' & Hdisk' & Hlog');
      [done | exact (reachable_step _ _ _ s ONewPage _ s1 Hreach I Hperform)
      | done | lia | set_solver |].
    exists s'. split.
    { rewrite (sbind_eq _ _ _ _ _ Hperform), (sbind_eq _ _ _ _ _ Hrun). done. }
    split; [done|]. split; [done|]. split; [done|].
    split; [rewrite Hnext'; f_equal; lia|]. split; [congruence|].
    by rewrite Hlog', Hlog1, <- app_assoc.
Qed.

(** X24.  The constructor leaves every frame free, in index order, and
    the page-id counter at 0: on a fresh pool of [pool_size] frames the
    first [pool_size] calls of [NewPage] all succeed, the i-th returning
    page id i in frame i, with no disk call; after them every
    frame is pinned and one more [NewPage] returns [nullptr]. *)
Theorem fresh_pool_hands_out_every_frame pool_size disk k :
  0 ≤ pool_size ->
  ∃ s', run (replicate (Z.to_nat pool_size) ONewPage)
            (BufferPoolManager_new pool_size disk k)
        = Ok ((λ j, RNewPage (Some (Z.of_nat j, Z.of_nat j)))
                <$> seq 0 (Z.to_nat pool_size), s')
      ∧ disk_ s' = disk
      ∧ log_ s' = (λ j, EvResetMemory (Z.of_nat j)) <$> seq 0 (Z.to_nat pool_size)
      ∧ NewPage s' = Ok (None, s').
Proof.
  intros Hn.
  destruct (run_NewPage_from_free_list pool_size disk k (Z.to_nat pool_size) 0%nat
              (BufferPoolManager_new pool_size disk k))
    as (s' & Hrun & _ & Hfl & Hev & _ & Hdisk & Hlog);
    [done | apply reachable_new | done | done | done |].
  exists s'. split; [done|]. split; [done|]. split; [done|].
  by apply NewPage_nothing_to_take.
Qed.

Lemma fresh_pool_hands_out_every_frame_witness :
  ∃ s', run (replicate (Z.to_nat 2) ONewPage) (BufferPoolManager_new 2 ∅ 2)
        = Ok ((λ j, RNewPage (Some (Z.of_nat j, Z.of_nat j)))
                <$> seq 0 (Z.to_nat 2), s')
      ∧ disk_ s' = ∅
      ∧ log_ s' = (λ j, EvResetMemory (Z.of_nat j)) <$> seq 0 (Z.to_nat 2)
      ∧ NewPage s' = Ok (None, s').
Proof. apply (fresh_pool_hands_out_every_frame 2 ∅ 2). lia. Defined.

(* ===================================================================== *)
(** * Page ids at the width of [page_id_t] *)
(* ===================================================================== *)

Lemma to_page_id_t_range z : PAGE_ID_MIN ≤ to_page_id_t z ≤ PAGE_ID_MAX.
Proof.
  unfold to_page_id_t, PAGE_ID_MIN, PAGE_ID_MAX.
  pose proof (Z.mod_pos_bound (z + 2 ^ 31) (2 ^ 32)). lia.
Qed.

Lemma to_page_id_t_id z :
  PAGE_ID_MIN ≤ z ≤ PAGE_ID_MAX -> to_page_id_t z = z.
Proof.
  unfold to_page_id_t, PAGE_ID_MIN, PAGE_ID_MAX. intros Hz.
  rewrite Z.mod_small by lia. lia.
Qed.

Lemma to_page_id_t_wrap : to_page_id_t (PAGE_ID_MAX + 1) = PAGE_ID_MIN.
Proof. reflexivity. Qed.

Section CounterBlind.
Lemma counter_blind_sret {A} (a : A) : counter_blind (sret a).
Proof. by intros x s. Qed.

Lemma counter_blind_sbind {A B} (m : St BufferPoolManager A)
    (c : A -> St BufferPoolManager B) :
  counter_blind m -> (∀ a, counter_blind (c a)) -> counter_blind (sbind m c).
Proof.
  intros Hm Hc x s. unfold sbind. rewrite Hm.
  destruct (m s) as [[a s']|e]; [apply Hc | done].
Qed.

Lemma counter_blind_update_page f g : counter_blind (update_page f g).
Proof.
  intros x s. unfold update_page. simpl.
  destruct (f <? 0); [done|]. by destruct (pages_ s !! Z.to_nat f).
Qed.

Lemma counter_blind_with_replacer {A} (m : St LRUKReplacer A) :
  counter_blind (with_replacer m).
Proof.
  intros x s. unfold with_replacer. simpl.
  by destruct (m (replacer_ s)) as [[a r]|e].
Qed.

Lemma counter_blind_emit e : counter_blind (emit e).
Proof. by intros x s. Qed.

Lemma counter_blind_ResetMemory f : counter_blind (ResetMemory f).
Proof.
  unfold ResetMemory. apply counter_blind_sbind;
    [apply counter_blind_update_page | intros _; apply counter_blind_emit].
Qed.

Lemma counter_blind_FindAndEvictFrame_free s g rest x :
  free_list_ s = g :: rest ->
  FindAndEvictFrame (set_next_page_id x s)
  = Ok (Some g, set_next_page_id x (set_free_list rest s)).
Proof.
  intros Hfl. unfold FindAndEvictFrame, sbind, gets. simpl. by rewrite Hfl.
Qed.
End CounterBlind.

(** What follows [AllocatePage] in [NewPage] does not look at the
    counter, and returns the id and the frame it was given. *)
Lemma NewPage_install_counter_blind f n :
  counter_blind
    (update_page f (set_page_id n) ;;
     update_page f (set_pin_count 1) ;;
     modify (λ s, set_page_table (<[n := f]> (page_table_ s)) s) ;;
     ResetMemory f ;;
     sret (Some (n, f))).
Proof.
  apply counter_blind_sbind; [apply counter_blind_update_page | intros _].
  apply counter_blind_sbind; [apply counter_blind_update_page | intros _].
  apply counter_blind_sbind; [by intros x s | intros _].
  apply counter_blind_sbind; [apply counter_blind_ResetMemory | intros _].
  apply counter_blind_sret.
Qed.

Lemma NewPage_install_Some f n s r s' :
  (update_page f (set_page_id n) ;;
   update_page f (set_pin_count 1) ;;
   modify (λ s, set_page_table (<[n := f]> (page_table_ s)) s) ;;
   ResetMemory f ;;
   sret (Some (n, f))) s = Ok (r, s') ->
  r = Some (n, f).
Proof.
  intros H. repeat (apply sbind_Ok in H as (? & ? & _ & H)).
  by apply sret_Ok in H as [-> _].
Qed.

Lemma sbind_Fail {S A B} (m : St S A) (c : A -> St S B) s e :
  m s = Fail e -> sbind m c s = Fail e.
Proof. unfold sbind. by intros ->. Qed.

(** [NewPage32] is [NewPage] with the counter wrapped where it is stored. *)
Lemma NewPage32_NewPage s :
  NewPage32 s
  = match NewPage s with
    | Ok (Some r, s') =>
        Ok (Some r, set_next_page_id (to_page_id_t (next_page_id_ s + 1)) s')
    | other => other
    end.
Proof.
  unfold NewPage32, NewPage.
  destruct (FindAndEvictFrame s) as [[[f|] s1]|e] eqn:Hfind.
  2:{ by rewrite !(sbind_eq _ _ _ _ _ Hfind). }
  2:{ by rewrite !(sbind_Fail _ _ _ _ Hfind). }
  rewrite !(sbind_eq _ _ _ _ _ Hfind).
  apply (untouched_FindAndEvictFrame same_next_page_id) in Hfind; try done.
  destruct (with_replacer (SetEvictable f false) s1) as [[[] s2]|e] eqn:H2.
  2:{ by rewrite !(sbind_Fail _ _ _ _ H2). }
  rewrite !(sbind_eq _ _ _ _ _ H2).
  apply (untouched_with_replacer same_next_page_id) in H2; [|done].
  destruct (with_replacer (RecordAccess f) s2) as [[[] s3]|e] eqn:H3.
  2:{ by rewrite !(sbind_Fail _ _ _ _ H3). }
  rewrite !(sbind_eq _ _ _ _ _ H3).
  apply (untouched_with_replacer same_next_page_id) in H3; [|done].
  unfold same_next_page_id in *.
  assert (Hn : next_page_id_ s3 = next_page_id_ s) by congruence.
  rewrite (sbind_eq AllocatePage32 _ s3 (next_page_id_ s3)
             (set_next_page_id (to_page_id_t (next_page_id_ s3 + 1)) s3))
    by reflexivity.
  rewrite (sbind_eq AllocatePage _ s3 (next_page_id_ s3)
             (set_next_page_id (next_page_id_ s3 + 1) s3))
    by reflexivity.
  rewrite (NewPage_install_counter_blind f (next_page_id_ s3)
             (to_page_id_t (next_page_id_ s3 + 1)) s3).
  rewrite (NewPage_install_counter_blind f (next_page_id_ s3)
             (next_page_id_ s3 + 1) s3).
  destruct ((update_page f (set_page_id (next_page_id_ s3)) ;;
             update_page f (set_pin_count 1) ;;
             modify (λ s, set_page_table (<[next_page_id_ s3 := f]> (page_table_ s)) s) ;;
             ResetMemory f ;;
             sret (Some (next_page_id_ s3, f))) s3) as [[r s4]|e] eqn:Hi; [|done].
  apply NewPage_install_Some in Hi as ->. by rewrite Hn.
Qed.

Lemma NewPage32_Ok s res t :
  NewPage32 s = Ok (res, t) ->
  ∃ s', NewPage s = Ok (res, s')
      ∧ t = match res with
            | Some _ => set_next_page_id (to_page_id_t (next_page_id_ s + 1)) s'
            | None => s'
            end.
Proof.
  rewrite NewPage32_NewPage.
  destruct (NewPage s) as [[[r|] s']|e]; [| |discriminate].
  - intros [= <- <-]. eauto.
  - intros [= <- <-]. eauto.
Qed.

Lemma perform32_Ok o s r t :
  perform32 o s = Ok (r, t) ->
  ∃ s', perform o s = Ok (r, s')
      ∧ t = match r with
            | RNewPage (Some _) =>
                set_next_page_id (to_page_id_t (next_page_id_ s + 1)) s'
            | _ => s'
            end.
Proof.
  destruct o as [|p|p d|p| |p|f d]; simpl.
  1:{ intros (res & t1 & H32 & Hret)%sbind_Ok.
      apply sret_Ok in Hret as [-> ->].
      apply NewPage32_Ok in H32 as (s' & Hnew & ->).
      exists s'. rewrite (sbind_eq _ _ _ _ _ Hnew). by destruct res. }
  all: intros H; exists t; split; [exact H|];
    apply sbind_Ok in H as (a & s1 & _ & [-> ->]%sret_Ok); done.
Qed.

Lemma set_next_page_id_same s : set_next_page_id (next_page_id_ s) s = s.
Proof. by destruct s. Qed.

Lemma perform_perform32 o s r s' :
  perform o s = Ok (r, s') ->
  perform32 o s
  = Ok (r, match r with
           | RNewPage (Some _) =>
               set_next_page_id (to_page_id_t (next_page_id_ s + 1)) s'
           | _ => s'
           end).
Proof.
  destruct o as [|p|p d|p| |p|f d]; simpl.
  1:{ intros (res & s1 & Hnew & Hret)%sbind_Ok.
      apply sret_Ok in Hret as [Hr Hs]. subst r s1.
      assert (H32 : NewPage32 s
                    = Ok (res, match res with
                               | Some _ => set_next_page_id
                                             (to_page_id_t (next_page_id_ s + 1)) s'
                               | None => s'
                               end)).
      { rewrite NewPage32_NewPage, Hnew. by destruct res. }
      rewrite (sbind_eq _ _ _ _ _ H32). by destruct res. }
  all: intros H; rewrite H;
    apply sbind_Ok in H as (a & s1 & _ & [-> ->]%sret_Ok); done.
Qed.

(** [NewPage] at the width of [page_id_t] returns the counter and stores
    its successor, wrapped. *)
Lemma perform32_next_page_id o s r t :
  perform32 o s = Ok (r, t) ->
  match r with
  | RNewPage (Some (p, _)) =>
      p = next_page_id_ s ∧ next_page_id_ t = to_page_id_t (p + 1)
  | _ => next_page_id_ t = next_page_id_ s
  end.
Proof.
  intros (s' & H & ->)%perform32_Ok. apply perform_next_page_id in H.
  destruct r as [[[p f]|]| | |]; try done.
  destruct H as [-> _]. done.
Qed.

Lemma consecutive_from_sorted n l :
  consecutive_from n l -> Forall (λ p, n ≤ p) l ∧ StronglySorted Z.lt l.
Proof.
  revert n. induction l as [|p l IH]; intros n; simpl.
  - intros _. split; constructor.
  - intros [-> Hl]. destruct (IH _ Hl) as [Hall Hs]. split.
    + constructor; [lia|]. eapply Forall_impl; [exact Hall|]. simpl. lia.
    + constructor; [done|]. eapply Forall_impl; [exact Hall|]. simpl. lia.
Qed.

Lemma run32_consecutive_ids ops : ∀ s rs s',
  run32 ops s = Ok (rs, s') ->
  PAGE_ID_MIN ≤ next_page_id_ s ≤ PAGE_ID_MAX ->
  next_page_id_ s + Z.of_nat (length (new_page_ids rs)) ≤ PAGE_ID_MAX + 1 ->
  consecutive_from (next_page_id_ s) (new_page_ids rs)
  ∧ next_page_id_ s'
    = to_page_id_t (next_page_id_ s + Z.of_nat (length (new_page_ids rs))).
Proof.
  induction ops as [|o ops IH]; intros s rs s'; simpl.
  - intros [= <- <-] Hs _. simpl. split; [done|].
    rewrite Z.add_0_r. by rewrite to_page_id_t_id.
  - intros (r & s1 & Hstep & H)%sbind_Ok Hs Hlen.
    apply sbind_Ok in H as (rs' & s2 & Hrun & [= <- <-]).
    apply perform32_next_page_id in Hstep.
    destruct r as [[[p f]|]| | |]; simpl in *;
      try (rewrite <- Hstep; apply (IH _ _ _ Hrun); rewrite Hstep; done).
    destruct Hstep as [-> Hs1].
    pose proof (to_page_id_t_range (next_page_id_ s + 1)) as Hr.
    destruct (new_page_ids rs') as [|q ids] eqn:Hids.
    + destruct (IH _ _ _ Hrun) as [_ Hfin];
        [by rewrite Hs1 | rewrite Hids; simpl; lia |].
      rewrite Hids in Hfin. simpl in *. split; [done|].
      rewrite Hfin, Z.add_0_r, Hs1. by rewrite to_page_id_t_id.
    + simpl in Hlen.
      assert (Hid : to_page_id_t (next_page_id_ s + 1) = next_page_id_ s + 1)
        by (apply to_page_id_t_id; unfold PAGE_ID_MIN, PAGE_ID_MAX in *; lia).
      rewrite Hid in Hs1.
      destruct (IH _ _ _ Hrun) as [Hc Hfin];
        [rewrite Hs1; unfold PAGE_ID_MIN, PAGE_ID_MAX in *; lia
        | rewrite Hs1, Hids; simpl; lia |].
      rewrite Hids, Hs1 in Hc, Hfin. split; [done|].
      rewrite Hfin. f_equal. simpl. lia.
Qed.

Lemma run_cons o ops s r s1 rs s' :
  perform o s = Ok (r, s1) -> run ops s1 = Ok (rs, s') ->
  run (o :: ops) s = Ok (r :: rs, s').
Proof.
  intros Ho Hops. simpl.
  by rewrite (sbind_eq _ _ _ _ _ Ho), (sbind_eq _ _ _ _ _ Hops).
Qed.

Lemma run32_cons o ops s r s1 rs s' :
  perform32 o s = Ok (r, s1) -> run32 ops s1 = Ok (rs, s') ->
  run32 (o :: ops) s = Ok (r :: rs, s').
Proof.
  intros Ho Hops. simpl.
  by rewrite (sbind_eq _ _ _ _ _ Ho), (sbind_eq _ _ _ _ _ Hops).
Qed.

Lemma run_app ops1 : ∀ ops2 s rs1 s1 rs2 s2,
  run ops1 s = Ok (rs1, s1) -> run ops2 s1 = Ok (rs2, s2) ->
  run (ops1 ++ ops2) s = Ok (rs1 ++ rs2, s2).
Proof.
  induction ops1 as [|o ops1 IH]; intros ops2 s rs1 s1 rs2 s2; simpl.
  - by intros [= <- <-].
  - intros (r & t & Ho & H)%sbind_Ok Hops2.
    apply sbind_Ok in H as (rs & t' & Hrun & [= <- <-]).
    rewrite (sbind_eq _ _ _ _ _ Ho).
    by rewrite (sbind_eq _ _ _ _ _ (IH _ _ _ _ _ _ Hrun Hops2)).
Qed.

Lemma run32_app ops1 : ∀ ops2 s rs1 s1 rs2 s2,
  run32 ops1 s = Ok (rs1, s1) -> run32 ops2 s1 = Ok (rs2, s2) ->
  run32 (ops1 ++ ops2) s = Ok (rs1 ++ rs2, s2).
Proof.
  induction ops1 as [|o ops1 IH]; intros ops2 s rs1 s1 rs2 s2; simpl.
  - by intros [= <- <-].
  - intros (r & t & Ho & H)%sbind_Ok Hops2.
    apply sbind_Ok in H as (rs & t' & Hrun & [= <- <-]).
    rewrite (sbind_eq _ _ _ _ _ Ho).
    by rewrite (sbind_eq _ _ _ _ _ (IH _ _ _ _ _ _ Hrun Hops2)).
Qed.

Lemma new_page_ids_app rs1 rs2 :
  new_page_ids (rs1 ++ rs2) = new_page_ids rs1 ++ new_page_ids rs2.
Proof.
  induction rs1 as [|r rs1 IH]; [done|].
  destruct r as [[[p f]|]| | |]; simpl; by rewrite ?IH.
Qed.

(** While the counter stays below [PAGE_ID_MAX] the run at the width of
    [page_id_t] is the run with the unbounded counter. *)
Lemma run_run32 ops : ∀ s rs s',
  run ops s = Ok (rs, s') ->
  PAGE_ID_MIN ≤ next_page_id_ s ->
  next_page_id_ s' ≤ PAGE_ID_MAX ->
  run32 ops s = Ok (rs, s').
Proof.
  induction ops as [|o ops IH]; intros s rs s'; simpl; [done|].
  intros (r & s1 & Hstep & H)%sbind_Ok Hlo Hhi.
  apply sbind_Ok in H as (rs' & s2 & Hrun & [= <- <-]).
  pose proof (perform_next_page_id _ _ _ _ Hstep) as Hnext.
  pose proof (proj2 (run_consecutive_ids _ _ _ _ Hrun)) as Hfin.
  assert (H32 : perform32 o s = Ok (r, s1)).
  { rewrite (perform_perform32 _ _ _ _ Hstep).
    destruct r as [[[p f]|]| | |]; try done.
    destruct Hnext as [-> Hs1]. do 2 f_equal.
    rewrite to_page_id_t_id by (unfold PAGE_ID_MIN, PAGE_ID_MAX in *; lia).
    rewrite <- Hs1. apply set_next_page_id_same. }
  eapply run32_cons; [exact H32|]. apply IH; [done | | done].
  destruct r as [[[p f]|]| | |]; lia.
Qed.

(** X9.  At the width of [page_id_t], from any state whose counter is a
    [page_id_t]: as long as the counter does not pass [PAGE_ID_MAX], the
    page ids the successful [NewPage] calls of a run return are the
    consecutive integers from [next_page_id_] on, whatever the other calls
    are, and the counter ends that many higher (wrapped to [PAGE_ID_MIN]
    when the last id returned was [PAGE_ID_MAX]). *)
Theorem new_page_ids_consecutive ops s rs s' :
  PAGE_ID_MIN ≤ next_page_id_ s ≤ PAGE_ID_MAX ->
  run32 ops s = Ok (rs, s') ->
  next_page_id_ s + Z.of_nat (length (new_page_ids rs)) ≤ PAGE_ID_MAX + 1 ->
  consecutive_from (next_page_id_ s) (new_page_ids rs)
  ∧ next_page_id_ s'
    = to_page_id_t (next_page_id_ s + Z.of_nat (length (new_page_ids rs))).
Proof. intros Hs Hrun Hlen. by apply (run32_consecutive_ids ops). Qed.

Lemma new_page_ids_consecutive_witness :
  consecutive_from 1 [1; 2]
  ∧ next_page_id_ (state_after32 [ONewPage; OFetchPage (-1); OUnpinPage 1 false; ONewPage]
                     pool_after_delete)
    = to_page_id_t (1 + 2).
Proof.
  apply (new_page_ids_consecutive
           [ONewPage; OFetchPage (-1); OUnpinPage 1 false; ONewPage]
           pool_after_delete
           [RNewPage (Some (1, 1)); RFetchPage (Some 0); RBool true;
            RNewPage (Some (2, 1))]).
  - vm_compute. split; discriminate.
  - vm_compute. reflexivity.
  - vm_compute. discriminate.
Defined.

(** C10.  In every run of calls on a fresh manager with at
    most 2^31 successful [NewPage] calls, the page ids those calls return
    are, in call order, strictly increasing: each is greater than all
    returned before it, whatever calls, [DeletePage] included, came in
    between.  The counter is a [page_id_t]: after the id [PAGE_ID_MAX] it
    wraps. *)
Theorem new_page_ids_strictly_increasing pool_size disk k ops rs s' :
  run32 ops (BufferPoolManager_new pool_size disk k) = Ok (rs, s') ->
  Z.of_nat (length (new_page_ids rs)) ≤ PAGE_ID_MAX + 1 ->
  StronglySorted Z.lt (new_page_ids rs).
Proof.
  intros Hrun Hlen.
  destruct (run32_consecutive_ids _ _ _ _ Hrun) as [Hc _];
    [simpl; unfold PAGE_ID_MIN, PAGE_ID_MAX; lia | simpl; lia |].
  by apply consecutive_from_sorted in Hc as [_ Hs].
Qed.

Lemma new_page_ids_strictly_increasing_witness :
  StronglySorted Z.lt [0; 1; 2].
Proof.
  apply (new_page_ids_strictly_increasing 2 ∅ 2
           [ONewPage; OUnpinPage 0 false; ODeletePage 0; ONewPage;
            OUnpinPage 1 false; ODeletePage 1; ONewPage]
           [RNewPage (Some (0, 0)); RBool true; RBool true;
            RNewPage (Some (1, 1)); RBool true; RBool true;
            RNewPage (Some (2, 0))]
           (state_after32
              [ONewPage; OUnpinPage 0 false; ODeletePage 0; ONewPage;
               OUnpinPage 1 false; ODeletePage 1; ONewPage]
              (BufferPoolManager_new 2 ∅ 2))).
  - vm_compute. reflexivity.
  - vm_compute. discriminate.
Defined.

(** ** A run that takes the counter past [PAGE_ID_MAX] *)

Lemma allocate_and_delete_run pool_size disk k s :
  0 ≤ pool_size ->
  reachable pool_size disk k s ->
  free_list_ s ≠ [] ->
  ∃ rs s', run (allocate_and_delete (next_page_id_ s)) s = Ok (rs, s')
         ∧ new_page_ids rs = [next_page_id_ s]
         ∧ reachable pool_size disk k s'
         ∧ next_page_id_ s' = next_page_id_ s + 1
         ∧ length (free_list_ s') = length (free_list_ s).
Proof.
  intros Hn Hreach Hne.
  pose proof (reachable_inv _ _ _ _ Hn Hreach) as Hinv.
  destruct (free_list_ s) as [|g rest] eqn:Hfl; [done|]. clear Hne.
  destruct (NewPage_from_free_list _ _ _ Hinv Hfl)
    as (s1 & Hnew & Hfl1 & Hnext1 & _ & Hpt1 & _).
  set (n := next_page_id_ s) in *.
  assert (Hp1 : perform ONewPage s = Ok (RNewPage (Some (n, g)), s1)).
  { simpl. by rewrite (sbind_eq _ _ _ _ _ Hnew). }
  pose proof (reachable_step _ _ _ s ONewPage _ s1 Hreach I Hp1) as Hreach1.
  pose proof (reachable_inv _ _ _ _ Hn Hreach1) as Hinv1.
  destruct (NewPage_Some_inv _ _ _ _ Hnew)
    as (s0 & pg0 & r2 & _ & Hpg0 & _ & _ & Hs1).
  assert (Hpg1 : frame s1 g
                 = Some (mkPage zero_page n 1 (is_dirty_ pg0) (rwlatch_ pg0))).
  { rewrite Hs1. unfold frame in *. simpl.
    by rewrite (frame_of_insert_eq _ _ _ _ Hpg0). }
  assert (Hpt1' : page_table_ s1 !! n = Some g).
  { rewrite Hpt1. apply lookup_insert_eq. }
  assert (Hg : 0 ≤ g < replacer_size_ (replacer_ s1)).
  { rewrite (mi_replacer_size _ Hinv1), <- (mi_pages_length _ Hinv1).
    by apply frame_of_Some_range in Hpg1. }
  pose proof (UnpinPage_pinned n false g _ s1 Hpt1' Hpg1) as Hunpin.
  simpl in Hunpin. specialize (Hunpin ltac:(lia) Hg).
  set (s2 := mkBufferPoolManager (pool_size_ s1)
               (<[Z.to_nat g := unpinned false
                    (mkPage zero_page n 1 (is_dirty_ pg0) (rwlatch_ pg0))]> (pages_ s1))
               (page_table_ s1) (free_list_ s1)
               (set_evictable_ ({[g]} ∪ evictable_ (replacer_ s1)) (replacer_ s1))
               (next_page_id_ s1) (disk_ s1) (log_ s1)) in *.
  assert (Hp2 : perform (OUnpinPage n false) s1 = Ok (RBool true, s2)).
  { simpl. by rewrite (sbind_eq _ _ _ _ _ Hunpin). }
  pose proof (reachable_step _ _ _ s1 (OUnpinPage n false) _ s2 Hreach1 I Hp2)
    as Hreach2.
  assert (Hpg2 : frame s2 g
                 = Some (unpinned false
                           (mkPage zero_page n 1 (is_dirty_ pg0) (rwlatch_ pg0)))).
  { unfold frame in *. simpl. by rewrite (frame_of_insert_eq _ _ _ _ Hpg1). }
  pose proof (DeletePage_unpinned n g _ s2 Hpt1' Hpg2) as Hdel.
  simpl in Hdel. specialize (Hdel ltac:(lia)).
  match type of Hdel with _ = Ok (_, ?s) => set (s3 := s) in * end.
  assert (Hp3 : perform (ODeletePage n) s2 = Ok (RBool true, s3)).
  { simpl. by rewrite (sbind_eq _ _ _ _ _ Hdel). }
  pose proof (reachable_step _ _ _ s2 (ODeletePage n) _ s3 Hreach2 I Hp3)
    as Hreach3.
  exists [RNewPage (Some (n, g)); RBool true; RBool true], s3.
  split.
  { unfold allocate_and_delete.
    eapply run_cons; [exact Hp1|]. eapply run_cons; [exact Hp2|].
    eapply run_cons; [exact Hp3|]. reflexivity. }
  split; [done|]. split; [done|]. split; [simpl; lia|].
  simpl. rewrite Hfl1, length_app. simpl. lia.
Qed.

Lemma counter_reaches pool_size disk k (n : nat) :
  1 ≤ pool_size ->
  ∃ rs s, run (flat_map (λ i, allocate_and_delete (Z.of_nat i)) (seq 0 n))
              (BufferPoolManager_new pool_size disk k) = Ok (rs, s)
        ∧ new_page_ids rs = Z.of_nat <$> seq 0 n
        ∧ reachable pool_size disk k s
        ∧ next_page_id_ s = Z.of_nat n
        ∧ length (free_list_ s) = Z.to_nat pool_size.
Proof.
  intros Hn. induction n as [|n (rs & s & Hrun & Hids & Hreach & Hnext & Hlen)].
  - exists [], (BufferPoolManager_new pool_size disk k).
    split; [done|]. split; [done|]. split; [apply reachable_new|].
    split; [done|]. simpl. by rewrite length_fmap, length_seq.
  - destruct (allocate_and_delete_run pool_size disk k s)
      as (rs1 & s1 & Hrun1 & Hids1 & Hreach1 & Hnext1 & Hlen1);
      [lia | done | |].
    { intros Hnil. rewrite Hnil in Hlen. simpl in Hlen. lia. }
    rewrite Hnext in Hrun1, Hids1, Hnext1.
    exists (rs ++ rs1), s1.
    rewrite seq_S, flat_map_app, fmap_app, new_page_ids_app. simpl.
    rewrite Hids, Hids1.
    split; [by apply (run_app _ _ _ _ s)|].
    split; [done|]. split; [done|]. split; [lia | congruence].
Qed.

Lemma NewPage32_from_free_list n k s g rest :
  sized n k s -> free_list_ s = g :: rest -> 0 ≤ g < n ->
  ∃ t, NewPage32 s = Ok (Some (next_page_id_ s, g), t)
     ∧ sized n k t ∧ free_list_ t = rest.
Proof.
  intros Hs Hfl Hg.
  assert (Hfind : FindAndEvictFrame s = Ok (Some g, set_free_list rest s)).
  { unfold FindAndEvictFrame, sbind, gets. by rewrite Hfl. }
  assert (Hs0 : sized n k (set_free_list rest s)) by (by apply sized_set_free_list).
  assert (Hret : returns NewPage s (λ _, sized n k)).
  { unfold NewPage.
    eapply (returns_bind _ _ _
              (λ a s', sized n k s' ∧ ∀ f, a = Some f -> 0 ≤ f < n)).
    - exists (Some g), (set_free_list rest s). split; [exact Hfind|].
      split; [exact Hs0 | by intros ? [= <-]].
    - intros [f|] s1 [Hs1 Hr]; [specialize (Hr f eq_refl)|]; steady. }
  destruct Hret as (res & s' & Hnew & Hs').
  destruct res as [[p f]|].
  2:{ apply NewPage_None in Hnew as (Hnil & _). congruence. }
  destruct (NewPage_Some_inv _ _ _ _ Hnew)
    as (s1 & pg0 & r2 & Hfind' & _ & _ & Hp & Hs'eq).
  rewrite Hfind in Hfind'. injection Hfind' as <- <-. simpl in Hp. subst p.
  exists (set_next_page_id (to_page_id_t (next_page_id_ s + 1)) s').
  split; [by rewrite NewPage32_NewPage, Hnew|].
  split; [by destruct Hs'|]. rewrite Hs'eq. done.
Qed.

(** C10, past the width of [page_id_t].  On a pool of two frames, [PAGE_ID_MAX]
    pages are created and deleted one after the other, which returns the
    ids 0, 1, ..., [PAGE_ID_MAX] - 1, and then two more are created: the
    first gets [PAGE_ID_MAX] = 2147483647 and the second, the counter having
    wrapped, [PAGE_ID_MIN] = -2147483648, which is smaller than every id
    returned before. *)
Lemma new_page_ids_wrap :
  ∃ rs s, run32 wrapping_run (BufferPoolManager_new 2 ∅ 2) = Ok (rs, s)
        ∧ new_page_ids rs
          = (Z.of_nat <$> seq 0 (Z.to_nat PAGE_ID_MAX))
            ++ [PAGE_ID_MAX; PAGE_ID_MIN]
        ∧ (StronglySorted Z.lt (new_page_ids rs) -> False).
Proof.
  destruct (counter_reaches 2 ∅ 2 (Z.to_nat PAGE_ID_MAX))
    as (rs & s & Hrun & Hids & Hreach & Hnext & Hlen); [lia|].
  assert (Hmax : Z.of_nat (Z.to_nat PAGE_ID_MAX) = PAGE_ID_MAX)
    by (apply Z2Nat.id; unfold PAGE_ID_MAX; lia).
  rewrite Hmax in Hnext.
  apply run_run32 in Hrun;
    [| simpl; unfold PAGE_ID_MIN; lia | rewrite Hnext; lia].
  pose proof (reachable_inv 2 ∅ 2 s ltac:(lia) Hreach) as Hinv.
  pose proof (reachable_sized 2 ∅ 2 s ltac:(lia) ltac:(lia) Hreach) as Hs.
  pose proof (reachable_pool_size _ _ _ _ Hreach) as Hps.
  destruct (free_list_ s) as [|g [|h [|? ?]]] eqn:Hfl; try discriminate Hlen.
  assert (Hg : 0 ≤ g < 2).
  { rewrite <- Hps. apply (mi_free_range _ Hinv).
    unfold in_free_list. rewrite Hfl. left. }
  assert (Hh : 0 ≤ h < 2).
  { rewrite <- Hps. apply (mi_free_range _ Hinv).
    unfold in_free_list. rewrite Hfl. right. left. }
  destruct (NewPage32_from_free_list 2 2 s g [h] Hs Hfl Hg)
    as (t1 & Hnew1 & Ht1 & Hfl1).
  assert (Hn1 : next_page_id_ t1 = PAGE_ID_MIN).
  { assert (Hp : perform32 ONewPage s
                 = Ok (RNewPage (Some (next_page_id_ s, g)), t1)).
    { simpl. by rewrite (sbind_eq _ _ _ _ _ Hnew1). }
    apply perform32_next_page_id in Hp as [_ Hp].
    rewrite Hp, Hnext. apply to_page_id_t_wrap. }
  destruct (NewPage32_from_free_list 2 2 t1 h [] Ht1 Hfl1 Hh)
    as (t2 & Hnew2 & _ & _).
  rewrite Hnext in Hnew1. rewrite Hn1 in Hnew2.
  exists (rs ++ [RNewPage (Some (PAGE_ID_MAX, g)); RNewPage (Some (PAGE_ID_MIN, h))]), t2.
  split.
  { unfold wrapping_run. apply (run32_app _ _ _ _ s); [exact Hrun|].
    eapply run32_cons; [simpl; by rewrite (sbind_eq _ _ _ _ _ Hnew1)|].
    eapply run32_cons; [simpl; by rewrite (sbind_eq _ _ _ _ _ Hnew2)|].
    reflexivity. }
  rewrite new_page_ids_app, Hids.
  split; [reflexivity|].
  intros Hsorted. apply StronglySorted_app_1_r in Hsorted.
  apply StronglySorted_inv in Hsorted as [_ Hall].
  apply Forall_inv in Hall. unfold PAGE_ID_MAX, PAGE_ID_MIN in Hall. lia.
Qed.

(* ===================================================================== *)
(** * The bookkeeping that every call keeps *)
(* ===================================================================== *)

Lemma pool_inv_new pool_size disk k :
  0 ≤ pool_size -> pool_inv (BufferPoolManager_new pool_size disk k).
Proof.
  intros Hn. unfold BufferPoolManager_new.
  split; unfold in_free_list, is_evictable, frame, frame_of; simpl.
  - rewrite length_replicate. lia.
  - apply NoDup_fmap; [apply _ | apply NoDup_seq].
  - intros f pg _. destruct (f <? 0); [discriminate|].
    intros [-> _]%lookup_replicate. done.
  - intros f pg Hnf. destruct (f <? 0) eqn:E; [discriminate|].
    apply Z.ltb_ge in E. intros [-> Hlt]%lookup_replicate.
    exfalso. apply Hnf, list_elem_of_fmap. exists (Z.to_nat f).
    split; [lia|]. apply elem_of_seq. lia.
  - intros p f Hpt. by rewrite lookup_empty in Hpt.
Qed.

Lemma pool_inv_frame_range s f pg :
  pool_inv s -> frame s f = Some pg -> 0 ≤ f < replacer_size_ (replacer_ s).
Proof.
  intros Hinv Hpg. rewrite (pi_sizes _ Hinv). by apply frame_of_Some_range in Hpg.
Qed.

(** One frame gets new contents and is off the free list afterwards; the
    free list loses at most that frame; the evictable set changes at most
    at that frame; the page table changes at most by entries for it. *)
Lemma pool_inv_step s s' f pg0 pg' :
  pool_inv s ->
  frame s f = Some pg0 ->
  pages_ s' = <[Z.to_nat f := pg']> (pages_ s) ->
  replacer_size_ (replacer_ s') = replacer_size_ (replacer_ s) ->
  NoDup (free_list_ s') ->
  f ∉ free_list_ s' ->
  (∀ g, g ≠ f -> (g ∈ free_list_ s' <-> g ∈ free_list_ s)) ->
  0 ≤ pin_count_ pg' ->
  (f ∈ evictable_ (replacer_ s') <-> pin_count_ pg' = 0) ->
  (∀ g, g ≠ f ->
     (g ∈ evictable_ (replacer_ s') <-> g ∈ evictable_ (replacer_ s))) ->
  (∀ q h, page_table_ s' !! q = Some h ->
     (h = f ∧ page_id_ pg' = q) ∨ (h ≠ f ∧ page_table_ s !! q = Some h)) ->
  pool_inv s'.
Proof.
  intros Hinv Hpg0 Hpages Hsize Hnodup Hf Hfl Hpin Hev Hevg Hpt.
  assert (Hframe : ∀ g, frame s' g = if decide (f = g) then Some pg' else frame s g).
  { intros g. unfold frame. rewrite Hpages. by apply (frame_of_insert _ _ _ pg0). }
  split; unfold in_free_list, is_evictable in *.
  - rewrite Hsize, Hpages, length_insert. apply (pi_sizes _ Hinv).
  - done.
  - intros g pg Hg. rewrite Hframe. case_decide as Hfg; [by subst g|].
    apply (pi_free _ Hinv). by apply Hfl.
  - intros g pg Hg. rewrite Hframe. case_decide as Hfg.
    + subst g. by intros [= <-].
    + intros Hpg. rewrite (Hevg g) by done.
      apply (pi_used _ Hinv); [|done].
      unfold in_free_list. by rewrite <- (Hfl g).
  - intros q h Hq. destruct (Hpt q h Hq) as [[-> Hid] | [Hne Hq']].
    + split; [done|]. exists pg'. rewrite Hframe. by case_decide.
    + destruct (pi_page_table _ Hinv _ _ Hq') as (Hnf & pg & Hpg & Hid).
      split; [unfold in_free_list in Hnf; by rewrite (Hfl h)|].
      exists pg. rewrite Hframe. by case_decide.
Qed.

(** The frames of the two states differ in ways that leave pin counts
    and page ids alone and set no dirty flag, and nothing else differs. *)
Lemma pool_inv_cleaned s s' :
  pool_inv s ->
  (∀ g, ∃ F : Page -> Page,
     frame s' g = F <$> frame s g
     ∧ ∀ pg, pin_count_ (F pg) = pin_count_ pg
             ∧ page_id_ (F pg) = page_id_ pg
             ∧ (is_dirty_ pg = false -> is_dirty_ (F pg) = false)) ->
  length (pages_ s') = length (pages_ s) ->
  replacer_ s' = replacer_ s ->
  free_list_ s' = free_list_ s ->
  page_table_ s' = page_table_ s ->
  pool_inv s'.
Proof.
  intros Hinv Hframe Hlen Hr Hfl Hpt.
  assert (Hback : ∀ g pg', frame s' g = Some pg' ->
            ∃ pg, frame s g = Some pg ∧ pin_count_ pg' = pin_count_ pg
                  ∧ page_id_ pg' = page_id_ pg
                  ∧ (is_dirty_ pg = false -> is_dirty_ pg' = false)).
  { intros g pg'. destruct (Hframe g) as (F & -> & HF).
    destruct (frame s g) as [pg|]; [|discriminate]. simpl. intros [= <-].
    exists pg. destruct (HF pg) as (? & ? & ?). done. }
  split; unfold in_free_list, is_evictable; rewrite ?Hr, ?Hfl, ?Hpt, ?Hlen.
  - apply (pi_sizes _ Hinv).
  - apply (pi_free_nodup _ Hinv).
  - intros g pg' Hg (pg & Hpg & Hpin & _ & Hd)%Hback.
    destruct (pi_free _ Hinv _ _ Hg Hpg) as [? ?]. split; [congruence | auto].
  - intros g pg' Hg (pg & Hpg & Hpin & _)%Hback. rewrite Hpin.
    by apply (pi_used _ Hinv).
  - intros q h Hq.
    destruct (pi_page_table _ Hinv _ _ Hq) as (Hnf & pg & Hpg & Hid).
    split; [done|]. destruct (Hframe h) as (F & Hh & HF). rewrite Hpg in Hh.
    eexists. split; [exact Hh|]. destruct (HF pg) as (_ & ? & _). congruence.
Qed.

Lemma pool_inv_set_next_page_id x s :
  pool_inv s -> pool_inv (set_next_page_id x s).
Proof. intros [H1 H2 H3 H4 H5]. by split. Qed.

Lemma kept_dirty_same o f pg s s' evs :
  frame s' f = frame s f -> frame s f = Some pg -> is_dirty_ pg = true ->
  log_ s' = log_ s ++ evs -> (∀ e, e ∈ evs -> ¬ overwrites f e) ->
  kept_dirty o f pg s s'.
Proof.
  intros Hsame Hpg Hd Hlog Hevs. exists pg, evs.
  rewrite Hsame. split; [done|]. split; [done|]. split; [done|].
  split; [by left|]. done.
Qed.

Lemma kept_dirty_refl o f pg s :
  frame s f = Some pg -> is_dirty_ pg = true -> kept_dirty o f pg s s.
Proof.
  intros Hpg Hd. apply (kept_dirty_same _ _ _ _ _ []); try done.
  - by rewrite app_nil_r.
  - intros e He. by apply elem_of_nil in He.
Qed.

(** A frame handed out by [FindAndEvictFrame] gets the page [pg'], pinned
    once, with the page-table entry and the event [e] that overwrites its
    buffer. *)
Lemma install_pool_step o s s1 f0 pg0 r2 pg' npid e :
  pool_inv s ->
  FindAndEvictFrame s = Ok (Some f0, s1) ->
  frame s1 f0 = Some pg0 ->
  pinned_replacer f0 (replacer_ s1) r2 ->
  pin_count_ pg' = 1 ->
  (∀ g, overwrites g e -> g = f0) ->
  pool_inv (mkBufferPoolManager (pool_size_ s1)
              (<[Z.to_nat f0 := pg']> (pages_ s1))
              (<[page_id_ pg' := f0]> (page_table_ s1)) (free_list_ s1) r2
              npid (disk_ s1) (log_ s1 ++ [e]))
  ∧ ∀ f pg, frame s f = Some pg -> is_dirty_ pg = true ->
      (f ≠ f0
       ∧ kept_dirty o f pg s
           (mkBufferPoolManager (pool_size_ s1)
              (<[Z.to_nat f0 := pg']> (pages_ s1))
              (<[page_id_ pg' := f0]> (page_table_ s1)) (free_list_ s1) r2
              npid (disk_ s1) (log_ s1 ++ [e])))
      ∨ written_back f pg s
          (mkBufferPoolManager (pool_size_ s1)
             (<[Z.to_nat f0 := pg']> (pages_ s1))
             (<[page_id_ pg' := f0]> (page_table_ s1)) (free_list_ s1) r2
             npid (disk_ s1) (log_ s1 ++ [e])).
Proof.
  intros Hinv Hfind Hpg0 Hr2 Hpin He.
  apply FindAndEvictFrame_Ok in Hfind
    as [(g & rest & Hfl & [= ->] & ->)
       |[(_ & _ & [=] & _)
        |(v & pgv & Hfl & Hv & Hpgv & [= ->] & ->)]].
  - (* a frame of the free list *)
    simpl in *. change (frame s g = Some pg0) in Hpg0.
    assert (Hin : in_free_list s g) by (unfold in_free_list; rewrite Hfl; left).
    pose proof (pi_free_nodup _ Hinv) as Hnd. rewrite Hfl in Hnd.
    apply NoDup_cons in Hnd as [Hg Hnd].
    destruct (pi_free _ Hinv _ _ Hin Hpg0) as [_ Hclean].
    split.
    + apply (pool_inv_step s _ g pg0 pg'); simpl; try done.
      * apply (pr_size _ _ _ Hr2).
      * intros h Hh. rewrite Hfl. set_solver.
      * lia.
      * rewrite (pr_evictable _ _ _ Hr2). set_solver by lia.
      * intros h Hh. rewrite (pr_evictable _ _ _ Hr2). set_solver.
      * intros q h. destruct (decide (q = page_id_ pg')) as [->|Hq].
        -- rewrite lookup_insert_eq. intros [= <-]. by left.
        -- rewrite lookup_insert_ne by done. intros Hqh. right. split; [|done].
           intros ->. by apply (pi_page_table _ Hinv _ _ Hqh).
    + intros f pg Hpg Hd. left.
      assert (Hfg : f ≠ g) by (intros ->; congruence).
      split; [done|].
      apply (kept_dirty_same _ _ _ _ _ [e]); simpl; try done.
      * unfold frame in *. simpl.
        rewrite (frame_of_insert _ _ _ _ _ Hpg0). by case_decide.
      * intros e' ->%list_elem_of_singleton Ho. apply He in Ho. done.
  - (* a victim of the replacer *)
    simpl in *. unfold frame in Hpg0. simpl in Hpg0.
    rewrite list_insert_insert_eq.
    split.
    + apply (pool_inv_step s _ v pgv pg'); simpl; try done.
      * rewrite (pr_size _ _ _ Hr2). done.
      * apply NoDup_nil_2.
      * apply not_elem_of_nil.
      * intros h _. rewrite Hfl. done.
      * lia.
      * rewrite (pr_evictable _ _ _ Hr2). simpl. set_solver by lia.
      * intros h Hh. rewrite (pr_evictable _ _ _ Hr2). simpl. set_solver.
      * intros q h. destruct (decide (q = page_id_ pg')) as [->|Hq].
        -- rewrite lookup_insert_eq. intros [= <-]. by left.
        -- rewrite lookup_insert_ne by done.
           intros [Hqv Hqh]%lookup_delete_Some. right. split; [|done].
           intros ->. destruct (pi_page_table _ Hinv _ _ Hqh) as (_ & pg & Hpg & Hid).
           congruence.
    + intros f pg Hpg Hd. destruct (decide (f = v)) as [->|Hfv].
      * right. rewrite Hpgv in Hpg. injection Hpg as <-.
        rewrite Hd. exists [], [EvResetMemory v; e]. simpl.
        split; [by rewrite <- !app_assoc|].
        split; [intros e' He'; by apply elem_of_nil in He'|].
        by rewrite lookup_insert_eq.
      * left. split; [done|].
        apply (kept_dirty_same _ _ _ _ _
                 ((if is_dirty_ pgv
                   then [EvWritePage (page_id_ pgv) (data_ pgv)] else [])
                  ++ [EvResetMemory v; e])); simpl; try done.
        -- unfold frame in *. simpl.
           rewrite (frame_of_insert _ _ _ _ _ Hpgv). by case_decide.
        -- by rewrite <- !app_assoc.
        -- intros e' He' Ho.
           assert (e' = EvResetMemory v ∨ e' = e
                   ∨ e' = EvWritePage (page_id_ pgv) (data_ pgv)) as [-> | [-> | ->] ]
             by (destruct (is_dirty_ pgv); set_solver).
           ++ simpl in Ho. congruence.
           ++ apply He in Ho. congruence.
           ++ done.
Qed.

(* ===================================================================== *)
(** * Every call keeps the bookkeeping and loses no dirty page *)
(* ===================================================================== *)

Lemma dirty_pages_safe_refl o s : dirty_pages_safe o s s.
Proof. intros f pg Hpg Hd. left. by apply kept_dirty_refl. Qed.

Lemma NewPage_pool_step s res s' :
  pool_inv s -> NewPage s = Ok (res, s') ->
  pool_inv s' ∧ dirty_pages_safe ONewPage s s'
  ∧ ∀ q f pg, res = Some (q, f) -> frame s f = Some pg ->
      is_dirty_ pg = true -> written_back f pg s s'.
Proof.
  intros Hinv H. destruct res as [[q f0]|].
  - apply NewPage_Some_inv in H as (s1 & pg0 & r2 & Hfind & Hpg0 & Hr2 & Hq & ->).
    destruct (install_pool_step ONewPage s s1 f0 pg0 r2
                (mkPage zero_page q 1 (is_dirty_ pg0) (rwlatch_ pg0)) (q + 1)
                (EvResetMemory f0) Hinv Hfind Hpg0 Hr2 eq_refl)
      as [Hinv' Hsafe].
    { simpl. by intros g <-. }
    simpl in Hinv', Hsafe. split; [exact Hinv'|]. split.
    + intros f pg Hpg Hd. destruct (Hsafe f pg Hpg Hd) as [[_ ?]|?]; auto.
    + intros q' f pg [= <- <-] Hpg Hd.
      by destruct (Hsafe f0 pg Hpg Hd) as [[? _]|?].
  - apply NewPage_None in H as (_ & _ & ->).
    split; [done|]. split; [apply dirty_pages_safe_refl|]. by intros ? ? ? [=].
Qed.

Lemma FetchPage_pool_step p s res s' :
  pool_inv s -> FetchPage p s = Ok (res, s') ->
  pool_inv s' ∧ dirty_pages_safe (OFetchPage p) s s'
  ∧ ∀ f pg, page_table_ s !! p = None -> res = Some f ->
      frame s f = Some pg -> is_dirty_ pg = true -> written_back f pg s s'.
Proof.
  intros Hinv H. destruct (page_table_ s !! p) as [f0|] eqn:Hpt.
  - (* the page is resident: one more pin *)
    destruct (pi_page_table _ Hinv _ _ Hpt) as (Hnf & pg0 & Hpg0 & Hid).
    destruct (pi_used _ Hinv _ _ Hnf Hpg0) as [Hpin Hev].
    destruct (FetchPage_hit p f0 pg0 s Hpt Hpg0) as (r2 & Heq & Hr2).
    { by apply (pool_inv_frame_range _ _ pg0). }
    rewrite Heq in H. injection H as <- <-.
    split; [|split; [|by intros ? ? [=]]].
    + apply (pool_inv_step s _ f0 pg0 (set_pin_count (pin_count_ pg0 + 1) pg0));
        simpl; try done.
      * apply (pr_size _ _ _ Hr2).
      * apply (pi_free_nodup _ Hinv).
      * lia.
      * rewrite (pr_evictable _ _ _ Hr2). set_solver by lia.
      * intros g Hg. rewrite (pr_evictable _ _ _ Hr2). set_solver.
      * intros q h Hq. destruct (decide (h = f0)) as [->|Hne]; [left|by right].
        split; [done|].
        destruct (pi_page_table _ Hinv _ _ Hq) as (_ & pg & Hpg & Hidq).
        congruence.
    + intros f pg Hpg Hd. left. destruct (decide (f = f0)) as [->|Hne].
      * assert (pg = pg0) as -> by congruence.
        exists (set_pin_count (pin_count_ pg0 + 1) pg0), []. simpl.
        split; [unfold frame; simpl; by apply (frame_of_insert_eq _ _ _ pg0)|].
        split; [done|]. split; [done|]. split; [by left|].
        split; [by rewrite app_nil_r|]. by intros e He%elem_of_nil.
      * apply (kept_dirty_same _ _ _ _ _ []); simpl; try done.
        -- unfold frame in *. simpl.
           rewrite (frame_of_insert _ _ _ _ _ Hpg0). by case_decide.
        -- by rewrite app_nil_r.
        -- by intros e He%elem_of_nil.
  - (* the page is read into a frame *)
    destruct res as [f0|].
    + apply FetchPage_miss_inv in H as (s1 & pg0 & r2 & Hfind & Hpg0 & Hr2 & ->);
        [|done].
      destruct (install_pool_step (OFetchPage p) s s1 f0 pg0 r2
                  (mkPage (default zero_page (disk_ s1 !! p)) p 1
                     (is_dirty_ pg0) (rwlatch_ pg0))
                  (next_page_id_ s1) (EvReadPage p f0) Hinv Hfind Hpg0 Hr2 eq_refl)
        as [Hinv' Hsafe].
      { simpl. by intros g <-. }
      simpl in Hinv', Hsafe. split; [exact Hinv'|]. split.
      * intros f pg Hpg Hd. destruct (Hsafe f pg Hpg Hd) as [[_ ?]|?]; auto.
      * intros f pg _ [= <-] Hpg Hd.
        by destruct (Hsafe f0 pg Hpg Hd) as [[? _]|?].
    + apply FetchPage_None in H as (_ & _ & _ & ->).
      split; [done|]. split; [apply dirty_pages_safe_refl|]. by intros ? ? ? [=].
Qed.

Lemma UnpinPage_pool_step p d s b s' :
  pool_inv s -> UnpinPage p d s = Ok (b, s') ->
  pool_inv s' ∧ dirty_pages_safe (OUnpinPage p d) s s'.
Proof.
  intros Hinv H. destruct (page_table_ s !! p) as [f0|] eqn:Hpt.
  2:{ rewrite (UnpinPage_not_resident _ _ _ Hpt) in H. injection H as <- <-.
      split; [done | apply dirty_pages_safe_refl]. }
  destruct (pi_page_table _ Hinv _ _ Hpt) as (Hnf & pg0 & Hpg0 & Hid).
  destruct (pi_used _ Hinv _ _ Hnf Hpg0) as [Hpin Hev].
  destruct (decide (pin_count_ pg0 = 0)) as [Hz|Hnz].
  { rewrite (UnpinPage_not_pinned _ _ _ _ _ Hpt Hpg0 Hz) in H.
    injection H as <- <-. split; [done | apply dirty_pages_safe_refl]. }
  rewrite (UnpinPage_pinned _ _ _ _ _ Hpt Hpg0 Hnz) in H
    by (by apply (pool_inv_frame_range _ _ pg0)).
  injection H as <- <-. split.
  - apply (pool_inv_step s _ f0 pg0 (unpinned d pg0)); simpl; try done.
    + by destruct (pin_count_ pg0 - 1 =? 0).
    + apply (pi_free_nodup _ Hinv).
    + lia.
    + unfold is_evictable in Hev.
      destruct (pin_count_ pg0 - 1 =? 0) eqn:E; simpl.
      * apply Z.eqb_eq in E. set_solver.
      * apply Z.eqb_neq in E. rewrite Hev. lia.
    + intros g Hg. destruct (pin_count_ pg0 - 1 =? 0); simpl; set_solver.
    + intros q h Hq. destruct (decide (h = f0)) as [->|Hne]; [left|by right].
      split; [done|].
      destruct (pi_page_table _ Hinv _ _ Hq) as (_ & pg & Hpg & Hidq).
      simpl. congruence.
  - intros f pg Hpg Hd. left. destruct (decide (f = f0)) as [->|Hne].
    + assert (pg = pg0) as -> by congruence.
      exists (unpinned d pg0), []. simpl.
      split; [unfold frame; simpl; by apply (frame_of_insert_eq _ _ _ pg0)|].
      split; [by rewrite Hd|]. split; [done|]. split; [by left|].
      split; [by rewrite app_nil_r|]. by intros e He%elem_of_nil.
    + apply (kept_dirty_same _ _ _ _ _ []); simpl; try done.
      * unfold frame in *. simpl.
        rewrite (frame_of_insert _ _ _ _ _ Hpg0). by case_decide.
      * by rewrite app_nil_r.
      * by intros e He%elem_of_nil.
Qed.

Lemma FlushPage_pool_step p s b s' :
  pool_inv s -> FlushPage p s = Ok (b, s') ->
  pool_inv s' ∧ dirty_pages_safe (OFlushPage p) s s'.
Proof.
  intros Hinv H. destruct (page_table_ s !! p) as [f0|] eqn:Hpt.
  2:{ unfold FlushPage, sbind, gets in H. rewrite Hpt in H.
      apply sret_Ok in H as [_ ->]. split; [done | apply dirty_pages_safe_refl]. }
  destruct (pi_page_table _ Hinv _ _ Hpt) as (Hnf & pg0 & Hpg0 & Hid).
  destruct (pi_used _ Hinv _ _ Hnf Hpg0) as [Hpin Hev].
  rewrite (FlushPage_resident _ _ _ _ Hpt Hpg0) in H. injection H as <- <-.
  split.
  - apply (pool_inv_step s _ f0 pg0 (set_is_dirty false pg0)); simpl; try done.
    + apply (pi_free_nodup _ Hinv).
    + intros q h Hq. destruct (decide (h = f0)) as [->|Hne]; [left|by right].
      split; [done|].
      destruct (pi_page_table _ Hinv _ _ Hq) as (_ & pg & Hpg & Hidq).
      simpl. congruence.
  - intros f pg Hpg Hd. destruct (decide (f = f0)) as [->|Hne].
    + right. assert (pg = pg0) as -> by congruence.
      exists [], []. simpl. rewrite Hid.
      split; [done|]. split; [by intros e He%elem_of_nil|].
      by rewrite lookup_insert_eq.
    + left. apply (kept_dirty_same _ _ _ _ _ [EvWritePage p (data_ pg0)]);
        simpl; try done.
      * unfold frame in *. simpl.
        rewrite (frame_of_insert _ _ _ _ _ Hpg0). by case_decide.
      * intros e ->%list_elem_of_singleton. simpl. tauto.
Qed.

Lemma for_each_flush_entry_events l s s' :
  for_each l flush_entry s = Ok (tt, s') ->
  length (pages_ s') = length (pages_ s)
  ∧ ∃ evs, log_ s' = log_ s ++ evs
         ∧ ∀ p f pg, (p, f) ∈ l -> frame s f = Some pg ->
             EvWritePage p (data_ pg) ∈ evs.
Proof.
  revert s. induction l as [|[p0 f0] l IH]; intros s H; simpl in H.
  - apply sret_Ok in H as [_ ->]. split; [done|]. exists [].
    split; [by rewrite app_nil_r|]. by intros p f pg Hin%elem_of_nil.
  - apply sbind_Ok in H as ([] & s1 & H1 & H2).
    apply flush_entry_inv in H1 as (pg0 & Hpg0 & ->).
    apply IH in H2 as (Hlen & evs & Hlog & Hin). simpl in Hlen, Hlog.
    split; [by rewrite Hlen, length_insert|].
    exists (EvWritePage p0 (data_ pg0) :: evs).
    split; [by rewrite Hlog, <- app_assoc|].
    intros p f pg [[= -> ->] | Hl]%elem_of_cons Hpg.
    + assert (pg = pg0) as -> by congruence. left.
    + right. destruct (decide (f0 = f)) as [->|Hne].
      * assert (pg = pg0) as -> by congruence.
        apply (Hin p f (set_is_dirty false pg0)); [done|].
        unfold frame. simpl. by apply (frame_of_insert_eq _ _ _ pg0).
      * apply (Hin p f pg); [done|]. unfold frame in *. simpl.
        rewrite (frame_of_insert _ _ _ _ _ Hpg0). by case_decide.
Qed.

Lemma FlushAllPages_pool_step s u s' :
  pool_inv s -> FlushAllPages s = Ok (u, s') ->
  pool_inv s' ∧ dirty_pages_safe OFlushAllPages s s'.
Proof.
  intros Hinv H. destruct u. unfold FlushAllPages in H. mstep H.
  pose proof (for_each_flush_entry_events _ _ _ H) as (Hlen & evs & Hlog & Hin).
  apply for_each_flush_entry_flushes in H
    as (Hpt & Hfl & Hr & _ & Hfr & Hdisk & _ & evs' & Hlog' & _ & Hevs).
  2:{ intros p f f' Hf%elem_of_map_to_list Hf'%elem_of_map_to_list. congruence. }
  assert (evs' = evs) as -> by (rewrite Hlog in Hlog'; by apply app_inv_head in Hlog').
  split.
  - apply (pool_inv_cleaned s); try done.
    intros g. eexists. split; [apply Hfr|].
    intros pg. simpl. by destruct (bool_decide _).
  - intros f pg Hpg Hd.
    destruct (decide (f ∈ (map_to_list (page_table_ s)).*2)) as [Hf|Hf].
    + right. apply list_elem_of_fmap in Hf as ([p f'] & -> & Hl). simpl in *.
      pose proof Hl as Hp%elem_of_map_to_list.
      destruct (pi_page_table _ Hinv _ _ Hp) as (_ & pg1 & Hpg1 & Hid).
      assert (pg1 = pg) as -> by congruence.
      destruct (list_elem_of_split _ _ (Hin _ _ _ Hl Hpg)) as (l1 & l2 & ->).
      exists l1, l2. rewrite Hid. split; [done|]. split.
      * intros e He. destruct (Hevs e) as (q & d & ->); [set_solver|]. simpl. tauto.
      * destruct (Hdisk _ _ Hl) as (pg2 & Hpg2 & Hd2). congruence.
    + left. apply (kept_dirty_same _ _ _ _ _ evs); try done.
      * rewrite Hfr, Hpg. simpl. by rewrite bool_decide_eq_false_2.
      * intros e He. destruct (Hevs e He) as (q & d & ->). simpl. tauto.
Qed.

Lemma DeletePage_pool_step p s b s' :
  pool_inv s -> DeletePage p s = Ok (b, s') ->
  pool_inv s' ∧ dirty_pages_safe (ODeletePage p) s s'
  ∧ ∀ f pg, page_table_ s !! p = Some f -> frame s f = Some pg ->
      is_dirty_ pg = true -> b = true -> written_back f pg s s'.
Proof.
  intros Hinv H. destruct (page_table_ s !! p) as [f0|] eqn:Hpt.
  2:{ rewrite (DeletePage_not_resident _ _ Hpt) in H. injection H as <- <-.
      split; [done|]. split; [apply dirty_pages_safe_refl | by intros ? ? [=]]. }
  destruct (pi_page_table _ Hinv _ _ Hpt) as (Hnf & pg0 & Hpg0 & Hid).
  destruct (pi_used _ Hinv _ _ Hnf Hpg0) as [Hpin Hev].
  destruct (decide (1 ≤ pin_count_ pg0)) as [Hpinned|Hz].
  { rewrite (DeletePage_pinned _ _ _ _ Hpt Hpg0 Hpinned) in H.
    injection H as <- <-.
    split; [done|]. split; [apply dirty_pages_safe_refl | by intros ? ? _ _ _ [=]]. }
  rewrite (DeletePage_unpinned _ _ _ _ Hpt Hpg0) in H by lia.
  injection H as <- <-.
  assert (Hframe : ∀ g, frame (deleted p f0 pg0 s) g
            = if decide (f0 = g)
              then Some (mkPage zero_page (page_id_ pg0) (pin_count_ pg0) false
                           (rwlatch_ pg0))
              else frame s g).
  { intros g. unfold frame, deleted. simpl. by apply (frame_of_insert _ _ _ pg0). }
  assert (Hevd : evictable_ (replacer_ (deleted p f0 pg0 s))
                 = evictable_ (replacer_ s)).
  { unfold deleted. simpl. by destruct (bool_decide _). }
  assert (Hwritten : is_dirty_ pg0 = true -> written_back f0 pg0 s (deleted p f0 pg0 s)).
  { intros Hd. exists [], [EvResetMemory f0]. unfold deleted. simpl.
    rewrite Hd, Hid. split; [done|]. split; [by intros e He%elem_of_nil|].
    by rewrite lookup_insert_eq. }
  split; [|split].
  - unfold in_free_list in Hnf.
    split; unfold in_free_list, is_evictable; rewrite ?Hevd.
    + unfold deleted. simpl. rewrite length_insert.
      destruct (bool_decide _); apply (pi_sizes _ Hinv).
    + unfold deleted. simpl. apply NoDup_app. split; [apply (pi_free_nodup _ Hinv)|].
      split; [|apply NoDup_singleton].
      intros g Hg ->%list_elem_of_singleton. done.
    + intros g pg Hg. rewrite Hframe. case_decide as Hfg.
      * intros [= <-]. simpl. split; [lia | done].
      * unfold deleted in Hg. simpl in Hg.
        apply elem_of_app in Hg as [Hg | ->%list_elem_of_singleton]; [|done].
        by apply (pi_free _ Hinv).
    + intros g pg Hg. unfold deleted in Hg. simpl in Hg.
      rewrite Hframe. case_decide as Hfg; [subst g; set_solver|].
      apply (pi_used _ Hinv). unfold in_free_list. set_solver.
    + intros q h Hq. unfold deleted in Hq |- *. simpl in Hq |- *.
      apply lookup_delete_Some in Hq as [Hpq Hq].
      destruct (pi_page_table _ Hinv _ _ Hq) as (Hnh & pg & Hpg & Hidq).
      assert (h ≠ f0) by (intros ->; congruence).
      split; [unfold in_free_list in Hnh; set_solver|].
      exists pg. split; [|done].
      change (frame (deleted p f0 pg0 s) h = Some pg).
      rewrite Hframe. by case_decide.
  - intros f pg Hpg Hd. destruct (decide (f = f0)) as [->|Hne].
    + right. assert (pg = pg0) as -> by congruence. by apply Hwritten.
    + left.
      apply (kept_dirty_same _ _ _ _ _
               ((if is_dirty_ pg0 then [EvWritePage p (data_ pg0)] else [])
                ++ [EvResetMemory f0])); try done.
      * rewrite Hframe. by case_decide.
      * intros e He Ho.
        assert (e = EvResetMemory f0 ∨ e = EvWritePage p (data_ pg0)) as [-> | ->]
          by (destruct (is_dirty_ pg0); set_solver).
        -- simpl in Ho. congruence.
        -- done.
  - intros f pg [= <-] Hpg Hd _. assert (pg = pg0) as -> by congruence.
    by apply Hwritten.
Qed.

Lemma WriteData_pool_step g d s u s' :
  pool_inv s -> update_page g (set_data d) s = Ok (u, s') ->
  pool_inv s' ∧ dirty_pages_safe (OWriteData g d) s s'.
Proof.
  intros Hinv H. apply update_page_Ok in H as (pg0 & Hpg0 & ->).
  assert (Hframe : ∀ h, frame (with_frame g (set_data d pg0) s) h
            = if decide (g = h) then Some (set_data d pg0) else frame s h).
  { intros h. unfold frame, with_frame. simpl. by apply (frame_of_insert _ _ _ pg0). }
  split.
  - apply (pool_inv_cleaned s); try done.
    + intros h. exists (if decide (g = h) then set_data d else id).
      rewrite Hframe. case_decide as Hgh.
      * subst h. rewrite Hpg0. done.
      * split; [by destruct (frame s h)|done].
    + unfold with_frame. simpl. by rewrite length_insert.
  - intros f pg Hpg Hd. left. destruct (decide (f = g)) as [->|Hne].
    + assert (pg = pg0) as -> by congruence.
      exists (set_data d pg0), []. rewrite Hframe. simpl.
      split; [by case_decide|]. split; [done|]. split; [done|].
      split; [by right|]. split; [by rewrite app_nil_r|].
      by intros e He%elem_of_nil.
    + apply (kept_dirty_same _ _ _ _ _ []); try done.
      * rewrite Hframe. by case_decide.
      * simpl. by rewrite app_nil_r.
      * by intros e He%elem_of_nil.
Qed.

Lemma perform_pool_step o s r s' :
  pool_inv s -> perform o s = Ok (r, s') ->
  pool_inv s' ∧ dirty_pages_safe o s s'
  ∧ ∀ f pg, frame s f = Some pg -> is_dirty_ pg = true ->
      (∀ q, r = RNewPage (Some (q, f)) -> written_back f pg s s')
      ∧ (∀ p, o = OFetchPage p -> page_table_ s !! p = None ->
           r = RFetchPage (Some f) -> written_back f pg s s')
      ∧ (∀ p, o = ODeletePage p -> page_table_ s !! p = Some f ->
           r = RBool true -> written_back f pg s s').
Proof.
  intros Hinv H. destruct o as [|p|p d|p| |p|g d]; simpl in H;
    apply sbind_Ok in H as (res & s1 & Hcall & Hret);
    apply sret_Ok in Hret as [Hr Hs]; subst r s1.
  - destruct (NewPage_pool_step _ _ _ Hinv Hcall) as (Hinv' & Hsafe & Hout).
    split; [done|]. split; [done|]. intros f pg Hpg Hd.
    split; [|split]; [|by intros ? [=]..].
    intros q [= ->]. by apply (Hout q f pg).
  - destruct (FetchPage_pool_step _ _ _ _ Hinv Hcall) as (Hinv' & Hsafe & Hout).
    split; [done|]. split; [done|]. intros f pg Hpg Hd.
    split; [by intros ? [=]|]. split; [|by intros ? [=]].
    intros q [= <-] Hpt [= ->]. by apply (Hout f pg).
  - destruct (UnpinPage_pool_step _ _ _ _ _ Hinv Hcall) as (Hinv' & Hsafe).
    split; [done|]. split; [done|]. intros f pg Hpg Hd.
    split; [by intros ? [=]|]. split; by intros ? [=].
  - destruct (FlushPage_pool_step _ _ _ _ Hinv Hcall) as (Hinv' & Hsafe).
    split; [done|]. split; [done|]. intros f pg Hpg Hd.
    split; [by intros ? [=]|]. split; by intros ? [=].
  - destruct (FlushAllPages_pool_step _ _ _ Hinv Hcall) as (Hinv' & Hsafe).
    split; [done|]. split; [done|]. intros f pg Hpg Hd.
    split; [by intros ? [=]|]. split; by intros ? [=].
  - destruct (DeletePage_pool_step _ _ _ _ Hinv Hcall) as (Hinv' & Hsafe & Hout).
    split; [done|]. split; [done|]. intros f pg Hpg Hd.
    split; [by intros ? [=]|]. split; [by intros ? [=]|].
    intros q [= <-] Hpt [= ->]. by apply (Hout f pg).
  - destruct (WriteData_pool_step _ _ _ _ _ Hinv Hcall) as (Hinv' & Hsafe).
    split; [done|]. split; [done|]. intros f pg Hpg Hd.
    split; [by intros ? [=]|]. split; by intros ? [=].
Qed.

(** The width of the page-id counter plays no part in either property. *)
Lemma perform32_pool_step o s r t :
  pool_inv s -> perform32 o s = Ok (r, t) ->
  pool_inv t ∧ dirty_pages_safe o s t
  ∧ ∀ f pg, frame s f = Some pg -> is_dirty_ pg = true ->
      (∀ q, r = RNewPage (Some (q, f)) -> written_back f pg s t)
      ∧ (∀ p, o = OFetchPage p -> page_table_ s !! p = None ->
           r = RFetchPage (Some f) -> written_back f pg s t)
      ∧ (∀ p, o = ODeletePage p -> page_table_ s !! p = Some f ->
           r = RBool true -> written_back f pg s t).
Proof.
  intros Hinv H. apply perform32_Ok in H as (s' & Hcall & ->).
  destruct (perform_pool_step _ _ _ _ Hinv Hcall) as (Hinv' & Hsafe & Hout).
  assert (Hcounter : ∀ x,
            pool_inv (set_next_page_id x s')
            ∧ dirty_pages_safe o s (set_next_page_id x s')
            ∧ ∀ f pg, written_back f pg s s' ->
                written_back f pg s (set_next_page_id x s')).
  { intros x. split; [by apply pool_inv_set_next_page_id|]. split; [|done].
    intros f pg Hpg Hd. exact (Hsafe f pg Hpg Hd). }
  destruct r as [[[q g]|]| | |]; try done.
  destruct (Hcounter (to_page_id_t (next_page_id_ s + 1))) as (? & ? & Hwb).
  split; [done|]. split; [done|]. intros f pg Hpg Hd.
  destruct (Hout f pg Hpg Hd) as (H1 & H2 & H3).
  split; [|split].
  - intros q' Hq'. apply Hwb. by apply (H1 q').
  - intros p Ho Hpt Hr. apply Hwb. by apply (H2 p).
  - intros p Ho Hpt Hr. apply Hwb. by apply (H3 p).
Qed.

Lemma reachable32_inv pool_size disk k s :
  0 ≤ pool_size -> reachable32 pool_size disk k s -> pool_inv s.
Proof.
  intros Hn Hreach. induction Hreach as [|s o r s' _ IH Hstep].
  - by apply pool_inv_new.
  - by destruct (perform32_pool_step _ _ _ _ IH Hstep).
Qed.

Lemma run32_reachable32 pool_size disk k ops s rs s' :
  reachable32 pool_size disk k s -> run32 ops s = Ok (rs, s') ->
  reachable32 pool_size disk k s'.
Proof.
  revert s rs. induction ops as [|o ops IH]; intros s rs Hreach; simpl.
  - by intros [= <- <-].
  - intros (r & s1 & Hstep & Hrest)%sbind_Ok.
    apply sbind_Ok in Hrest as (rs' & s2 & Hrun & Hret).
    apply sret_Ok in Hret as [_ Hs]. subst s2.
    apply (IH s1 rs'); [|done]. by apply (reachable32_step _ _ _ s o r).
Qed.

Lemma state_after32_reachable32 pool_size disk k ops :
  reachable32 pool_size disk k
    (state_after32 ops (BufferPoolManager_new pool_size disk k)).
Proof.
  unfold state_after32.
  destruct (run32 ops _) as [[rs s']|e] eqn:Hrun; [|apply reachable32_new].
  apply (run32_reachable32 _ _ _ ops (BufferPoolManager_new pool_size disk k) rs);
    [apply reachable32_new | done].
Qed.

(* ===================================================================== *)
(** * Evictable frames and pin counts *)
(* ===================================================================== *)




(* ===================================================================== *)
(** * Write-back before discard *)
(* ===================================================================== *)

(** C5.  Take any state the manager can be in between two calls, whatever
    the calls and their arguments were, a frame [f] whose page [pg] is
    dirty there, and any call [o] that returns.  Either frame [f] still
    holds that page dirty afterwards, with the bytes it had (or those the
    client stored by this very call), and the call did not overwrite the
    buffer; or the call wrote the page's id and bytes to disk before
    anything it did to the buffer of [f], and the disk holds them when the
    call returns.  The second is what happens whenever the page leaves the
    frame: when [DeletePage] of the page returns true, and when [NewPage]
    or [FetchPage] hands the frame out for another page.  A page-table
    entry for [f] bears the page id of [pg]. *)
Theorem dirty_page_written_back_before_discard pool_size disk k s o r s' f pg :
  0 ≤ pool_size ->
  reachable32 pool_size disk k s ->
  perform32 o s = Ok (r, s') ->
  frame s f = Some pg ->
  is_dirty_ pg = true ->
  (kept_dirty o f pg s s' ∨ written_back f pg s s')
  ∧ (∀ p, page_table_ s !! p = Some f -> page_id_ pg = p)
  ∧ (∀ p, o = ODeletePage p -> page_table_ s !! p = Some f ->
       r = RBool true -> written_back f pg s s')
  ∧ (∀ q, r = RNewPage (Some (q, f)) -> written_back f pg s s')
  ∧ (∀ p, o = OFetchPage p -> page_table_ s !! p = None ->
       r = RFetchPage (Some f) -> written_back f pg s s').
Proof.
  intros Hn Hreach Hstep Hpg Hd.
  pose proof (reachable32_inv _ _ _ _ Hn Hreach) as Hinv.
  destruct (perform32_pool_step _ _ _ _ Hinv Hstep) as (_ & Hsafe & Hout).
  destruct (Hout f pg Hpg Hd) as (Hnew & Hfetch & Hdelete).
  split; [by apply Hsafe|]. split; [|done].
  intros p Hp. destruct (pi_page_table _ Hinv _ _ Hp) as (_ & pg' & Hpg' & Hid).
  congruence.
Qed.

Lemma dirty_page_written_back_before_discard_witness :
  (kept_dirty ONewPage 0 (mkPage page_of_2a 0 0 true (mkLatch 0 false))
     pool_with_dirty_buffer pool_after_eviction
   ∨ written_back 0 (mkPage page_of_2a 0 0 true (mkLatch 0 false))
       pool_with_dirty_buffer pool_after_eviction)
  ∧ (∀ p, page_table_ pool_with_dirty_buffer !! p = Some 0 -> 0 = p)
  ∧ (∀ p, ONewPage = ODeletePage p ->
       page_table_ pool_with_dirty_buffer !! p = Some 0 ->
       RNewPage (Some (1, 0)) = RBool true ->
       written_back 0 (mkPage page_of_2a 0 0 true (mkLatch 0 false))
         pool_with_dirty_buffer pool_after_eviction)
  ∧ (∀ q, RNewPage (Some (1, 0)) = RNewPage (Some (q, 0)) ->
       written_back 0 (mkPage page_of_2a 0 0 true (mkLatch 0 false))
         pool_with_dirty_buffer pool_after_eviction)
  ∧ (∀ p, ONewPage = OFetchPage p ->
       page_table_ pool_with_dirty_buffer !! p = None ->
       RNewPage (Some (1, 0)) = RFetchPage (Some 0) ->
       written_back 0 (mkPage page_of_2a 0 0 true (mkLatch 0 false))
         pool_with_dirty_buffer pool_after_eviction).
Proof.
  apply (dirty_page_written_back_before_discard 1 ∅ 2 pool_with_dirty_buffer
           ONewPage (RNewPage (Some (1, 0))) pool_after_eviction 0
           (mkPage page_of_2a 0 0 true (mkLatch 0 false))).
  - lia.
  - apply state_after32_reachable32.
  - vm_compute. reflexivity.
  - vm_compute. reflexivity.
  - reflexivity.
Defined.

(** The events of that eviction: the 4096 bytes of the dirty page 0 are
    written, then the frame is reset, and the disk holds the bytes. *)
Lemma eviction_of_dirty_buffer_log :
  log_ pool_after_eviction
  = log_ pool_with_dirty_buffer
    ++ [EvWritePage 0 page_of_2a; EvResetMemory 0; EvResetMemory 0]
  ∧ disk_ pool_after_eviction !! 0 = Some page_of_2a
  ∧ length page_of_2a = 4096%nat.
Proof.
  split; [vm_compute; reflexivity|]. split; vm_compute; reflexivity.
Qed.
